(** * go-cmdtest: the test-file parser, the command micro-language and the
      execution engine of [cmdtest.go], embedded in Rocq.

    Go strings and byte slices are sequences of bytes ([list ascii]); Go's
    [int] is [Z]; a nil slice is the empty list unless the code tells them
    apart (then it is an [option]).  Functions of Go's standard library that
    the program calls ([strings], [bytes], [strconv], [unicode/utf8],
    [bufio.Scanner], [errors.As]) are modelled in the first modules; the
    program itself starts at [Module Cmdtest]. *)

From Stdlib Require Import ZArith NArith List Ascii String Lia Bool.
From stdpp Require Import base option list gmap strings.
From Equations Require Import Equations.
Import ListNotations.
Open Scope list_scope.

(** A Go [string] (and a [[]byte]): an immutable sequence of bytes. *)
Definition gostring : Type := list ascii.

(** A literal, written as a Rocq string. *)
Definition str (s : string) : gostring := list_ascii_of_string s.

(** The newline, ["\n"]. *)
Definition newline : gostring := ["010"%char].

(** The byte [c] as a number. *)
Definition byteval (c : ascii) : N := N_of_ascii c.

(** [s[i:j]] for in-range indices. *)
Definition slice (s : gostring) (i j : nat) : gostring := take (j - i) (drop i s).

(** * unicode/utf8 *)
Module utf8.

Definition RuneError : N := 0xFFFD.
Definition RuneSelf : N := 0x80.
Definition UTFMax : nat := 4.

(** The table [first] together with [acceptRanges]: for a leading byte,
    the length of the sequence and the range allowed for its second byte;
    [None] for a byte that starts no multi-byte sequence. *)
Definition lead (c : ascii) : option (nat * N * N) :=
  let x := byteval c in
  if (x <? 0xC2)%N then None
  else if (x <=? 0xDF)%N then Some (2, 0x80%N, 0xBF%N)
  else if (x =? 0xE0)%N then Some (3, 0xA0%N, 0xBF%N)
  else if (x =? 0xED)%N then Some (3, 0x80%N, 0x9F%N)
  else if (x <=? 0xEF)%N then Some (3, 0x80%N, 0xBF%N)
  else if (x =? 0xF0)%N then Some (4, 0x90%N, 0xBF%N)
  else if (x <=? 0xF3)%N then Some (4, 0x80%N, 0xBF%N)
  else if (x =? 0xF4)%N then Some (4, 0x80%N, 0x8F%N)
  else None.

(** A continuation byte, [locb <= c <= hicb]. *)
Definition cont (c : ascii) : bool :=
  ((0x80 <=? byteval c) && (byteval c <=? 0xBF))%N.

Definition low6 (c : ascii) : N := N.land (byteval c) 0x3F.

(** [DecodeRuneInString]: the first rune of [s] and its width in bytes;
    [(RuneError, 0)] for the empty string and [(RuneError, 1)] for an
    invalid encoding. *)
Definition DecodeRuneInString (s : gostring) : N * nat :=
  match s with
  | [] => (RuneError, 0)
  | s0 :: t =>
    let x := byteval s0 in
    if (x <? RuneSelf)%N then (x, 1)
    else match lead s0 with
      | None => (RuneError, 1)
      | Some (sz, lo, hi) =>
        if length s <? sz then (RuneError, 1)
        else match t with
          | [] => (RuneError, 1)
          | s1 :: t1 =>
            if ((byteval s1 <? lo) || (hi <? byteval s1))%N then (RuneError, 1)
            else if sz <=? 2 then
              (N.lor (N.shiftl (N.land x 0x1F) 6) (low6 s1), 2)
            else match t1 with
              | [] => (RuneError, 1)
              | s2 :: t2 =>
                if negb (cont s2) then (RuneError, 1)
                else if sz <=? 3 then
                  (N.lor (N.shiftl (N.land x 0x0F) 12)
                     (N.lor (N.shiftl (low6 s1) 6) (low6 s2)), 3)
                else match t2 with
                  | [] => (RuneError, 1)
                  | s3 :: _ =>
                    if negb (cont s3) then (RuneError, 1)
                    else
                      (N.lor (N.shiftl (N.land x 0x07) 18)
                         (N.lor (N.shiftl (low6 s1) 12)
                            (N.lor (N.shiftl (low6 s2) 6) (low6 s3))), 4)
                  end
              end
          end
      end
  end.

(** [RuneStart]: the byte is not a continuation byte. *)
Definition RuneStart (c : ascii) : bool :=
  negb (N.land (byteval c) 0xC0 =? 0x80)%N.

(** The loop [for start--; start >= lim; start--] of
    [DecodeLastRuneInString], which stops at a rune start; [k] bounds the
    number of iterations, at most [UTFMax]. *)
Fixpoint backToStart (k : nat) (s : gostring) (start lim : Z) : Z :=
  match k with
  | O => start
  | S k' =>
    if (start <? lim)%Z then start
    else match s !! Z.to_nat start with
      | Some c => if RuneStart c then start else backToStart k' s (start - 1) lim
      | None => start
      end
  end.

(** [DecodeLastRuneInString]: the last rune of [s] and its width. *)
Definition DecodeLastRuneInString (s : gostring) : N * nat :=
  let end_ := length s in
  match last s with
  | None => (RuneError, 0)
  | Some c =>
    if (byteval c <? RuneSelf)%N then (byteval c, 1)
    else
      let lim := Z.max 0 (Z.of_nat end_ - Z.of_nat UTFMax) in
      let start := Z.max 0 (backToStart UTFMax s (Z.of_nat end_ - 2) lim) in
      let '(r, size) := DecodeRuneInString (drop (Z.to_nat start) s) in
      if (Z.to_nat start + size =? end_) then (r, size) else (RuneError, 1)
  end.

(** The runes of [s] from left to right, each with the bytes it was decoded
    from, as [for _, r := range s] sees them.  Every step takes at least
    one byte, so [length s] steps are enough. *)
Fixpoint runesFrom (steps : nat) (s : gostring) : list (N * gostring) :=
  match steps, s with
  | S n, _ :: _ =>
    let '(r, wid) := DecodeRuneInString s in
    (r, take wid s) :: runesFrom n (drop wid s)
  | _, _ => []
  end.

Definition runes (s : gostring) : list (N * gostring) := runesFrom (length s) s.

End utf8.

(** * unicode *)
Module unicode.

(** [unicode.IsSpace]: the Latin-1 spaces and the table [White_Space]. *)
Definition IsSpace (r : N) : bool :=
  (((0x09 <=? r) && (r <=? 0x0D)) || (r =? 0x20) || (r =? 0x85) || (r =? 0xA0)
   || (r =? 0x1680) || ((0x2000 <=? r) && (r <=? 0x200A))
   || (r =? 0x2028) || (r =? 0x2029) || (r =? 0x202F) || (r =? 0x205F)
   || (r =? 0x3000))%N.

End unicode.

(** * errors: Go error values

    An [error] is an interface value.  The constructors are the concrete
    error types the program meets: the three that [extractExitCode] looks
    for, the errors of the standard library, wrapping errors, and the
    messages the program builds itself with [fmt.Errorf] and [errors.New]
    (kept structured: the fields are the arguments of the format string).
    The program formats with [%v], never [%w], so its own errors wrap
    nothing. *)
#[warnings="-register-all"] Inductive error : Type :=
| Errno (errno : Z)                                (* syscall.Errno *)
| ExitError (exitCode : Z)                         (* *exec.ExitError, with its ExitCode() *)
| ExitCodeErr (Msg : gostring) (Code : Z)          (* *cmdtest.ExitCodeErr *)
| errorString (msg : gostring)                     (* errors.New(msg) *)
| wrapError (msg : gostring) (errs : list error)   (* fmt.Errorf with %w, errors.Join, *os.PathError *)
| NumError (Func Num : gostring) (Err : error)     (* *strconv.NumError *)
| ErrTooLong                                       (* bufio.ErrTooLong *)
| ErrBadLine (filename : gostring) (lineno : Z) (line : gostring)
| ErrZeroExitCode                                  (* "cannot use 0 as a FAIL exit code" *)
| ErrVarNotFound (varName : gostring)              (* "variable %q not found" *)
| ErrNoSuchCommand (line : Z) (name : gostring)
| ErrSucceeded (line : Z) (cmd : gostring)
| ErrFailedWith (line : Z) (cmd : gostring) (err : error)
| ErrNoExitCode (line : Z) (cmd : gostring)
| ErrExitCode (line : Z) (cmd : gostring) (gotExitCode wantExitCode : Z)
| ErrInFile (filename : gostring) (what : gostring) (err : error). (* "%s: %v", "%s:%v", "%s: calling Setup: %v" *)

Module errors.

(** [Unwrap]: the errors one level below [e].  Only wrapping types have
    an [Unwrap] method. *)
Definition Unwrap (e : error) : list error :=
  match e with
  | wrapError _ errs => errs
  | NumError _ _ err => [err]
  | _ => []
  end.

(** [errors.As(err, &target)]: the first error of the tree of [err], in
    depth-first order, that has the type of the target; [pick] is the type
    test and gives the target's value. *)
Fixpoint As {A : Type} (pick : error -> option A) (e : error) : option A :=
  match pick e with
  | Some a => Some a
  | None =>
    match e with
    | wrapError _ errs =>
      (fix first (l : list error) : option A :=
         match l with
         | [] => None
         | e' :: l' => match As pick e' with Some a => Some a | None => first l' end
         end) errs
    | NumError _ _ err => As pick err
    | _ => None
    end
  end.

(** [e'] is [e] or an error that [e] wraps, directly or not. *)
Inductive InTree (e' : error) : error -> Prop :=
| InTree_here : InTree e' e'
| InTree_below e e1 : In e1 (Unwrap e) -> InTree e' e1 -> InTree e' e.

End errors.

(** * strings, bytes, strconv *)
Module strings.

(** [strings.HasPrefix]. *)
Fixpoint HasPrefix (s prefix : gostring) : bool :=
  match prefix, s with
  | [], _ => true
  | p :: prefix', c :: s' => Ascii.eqb c p && HasPrefix s' prefix'
  | _ :: _, [] => false
  end.

(** [strings.Index]: the index of the first occurrence, or [-1]. *)
Fixpoint Index (s substr : gostring) : Z :=
  if HasPrefix s substr then 0
  else match s with
    | [] => -1
    | _ :: s' => let i := Index s' substr in if (i <? 0)%Z then -1 else (i + 1)%Z
    end.

(** [strings.LastIndex]: the index of the last occurrence, or [-1].
    [lastIndexFrom s substr i] tries the indices [i], [i-1], ..., [0]. *)
Fixpoint lastIndexFrom (s substr : gostring) (i : nat) : Z :=
  if HasPrefix (drop i s) substr then Z.of_nat i
  else match i with
    | O => -1
    | S j => lastIndexFrom s substr j
    end.

Definition LastIndex (s substr : gostring) : Z :=
  if length s <? length substr then -1
  else lastIndexFrom s substr (length s - length substr).

(** [indexFunc]: the index of the first rune [r] with [f r = truth]. *)
Fixpoint indexFuncFrom (f : N -> bool) (truth : bool)
    (rs : list (N * gostring)) (start : nat) : Z :=
  match rs with
  | [] => -1
  | (r, bs) :: rest =>
    if Bool.eqb (f r) truth then Z.of_nat start
    else indexFuncFrom f truth rest (start + length bs)
  end.

Definition indexFunc (s : gostring) (f : N -> bool) (truth : bool) : Z :=
  indexFuncFrom f truth (utf8.runes s) 0.

(** [lastIndexFunc]: the same from the end; the loop
    [for i := len(s); i > 0; ] steps back by at least one byte. *)
Fixpoint lastIndexFuncFrom (steps : nat) (s : gostring) (f : N -> bool)
    (truth : bool) (i : nat) : Z :=
  match steps with
  | O => -1
  | S n =>
    if i =? 0 then -1
    else
      let '(r, size) := utf8.DecodeLastRuneInString (take i s) in
      let i' := i - size in
      if Bool.eqb (f r) truth then Z.of_nat i'
      else lastIndexFuncFrom n s f truth i'
  end.

Definition lastIndexFunc (s : gostring) (f : N -> bool) (truth : bool) : Z :=
  lastIndexFuncFrom (length s) s f truth (length s).

(** [strings.TrimLeftFunc]. *)
Definition TrimLeftFunc (s : gostring) (f : N -> bool) : gostring :=
  let i := indexFunc s f false in
  if (i =? -1)%Z then [] else drop (Z.to_nat i) s.

(** [strings.TrimRightFunc]. *)
Definition TrimRightFunc (s : gostring) (f : N -> bool) : gostring :=
  let i := lastIndexFunc s f false in
  let i' :=
    match (if (0 <=? i)%Z then s !! Z.to_nat i else None) with
    | Some c =>
      if (utf8.RuneSelf <=? byteval c)%N
      then (i + Z.of_nat (snd (utf8.DecodeRuneInString (drop (Z.to_nat i) s))))%Z
      else (i + 1)%Z
    | None => (i + 1)%Z
    end in
  take (Z.to_nat i') s.

(** [strings.TrimSpace]: the leading and trailing white space, as defined
    by Unicode, removed.  (Go's fast path for ASCII computes the same.) *)
Definition TrimSpace (s : gostring) : gostring :=
  TrimRightFunc (TrimLeftFunc s unicode.IsSpace) unicode.IsSpace.

(** [strings.Fields]: the maximal runs of runes that are not white space.
    [cur] is the field being read, if any. *)
Fixpoint fieldsFrom (rs : list (N * gostring)) (cur : option gostring)
    : list gostring :=
  match rs with
  | [] => match cur with Some w => [w] | None => [] end
  | (r, bs) :: rest =>
    if unicode.IsSpace r then
      match cur with
      | Some w => w :: fieldsFrom rest None
      | None => fieldsFrom rest None
      end
    else fieldsFrom rest (Some (default [] cur ++ bs))
  end.

Definition Fields (s : gostring) : list gostring := fieldsFrom (utf8.runes s) None.

(** [strings.Join]. *)
Fixpoint Join (elems : list gostring) (sep : gostring) : gostring :=
  match elems with
  | [] => []
  | [e] => e
  | e :: rest => e ++ sep ++ Join rest sep
  end.

(** [strings.TrimRight(s, cutset)] for a cutset of ASCII bytes: the
    trailing bytes that are in the cutset removed. *)
Fixpoint TrimRight (s cutset : gostring) : gostring :=
  match s with
  | [] => []
  | c :: s' =>
    match TrimRight s' cutset with
    | [] => if bool_decide (c ∈ cutset) then [] else [c]
    | t => c :: t
    end
  end.

(** [strings.Split(s, sep)] for a separator of one byte: the pieces between
    the separators, one piece more than there are separators. *)
Fixpoint Split (s : gostring) (sep : ascii) : list gostring :=
  match s with
  | [] => [[]]
  | c :: s' =>
    match Split s' sep with
    | [] => [[c]]
    | piece :: pieces =>
      if Ascii.eqb c sep then [] :: piece :: pieces else (c :: piece) :: pieces
    end
  end.

(** [strings.Replace(s, old, new, 1)] for a non-empty [old]: the first
    occurrence of [old] replaced. *)
Definition ReplaceFirst (s old new : gostring) : gostring :=
  let j := Index s old in
  if (j <? 0)%Z then s
  else take (Z.to_nat j) s ++ new ++ drop (Z.to_nat j + length old) s.

(** [strings.TrimSuffix]. *)
Definition TrimSuffix (s suffix : gostring) : gostring :=
  if (length suffix <=? length s)
     && bool_decide (drop (length s - length suffix) s = suffix)
  then take (length s - length suffix) s else s.

End strings.

Module bytes.

(** The loop of [bytes.Replace] for a non-empty [old]; each replacement
    takes at least one byte of [s]. *)
Fixpoint replaceFrom (steps : nat) (s old new : gostring) : gostring :=
  match steps with
  | O => s
  | S n =>
    let j := strings.Index s old in
    if (j <? 0)%Z then s
    else take (Z.to_nat j) s ++ new
           ++ replaceFrom n (drop (Z.to_nat j + length old) s) old new
  end.

(** [bytes.Replace(s, old, new, -1)]: every non-overlapping occurrence of
    [old] replaced by [new]; an empty [old] matches at the beginning and
    after every UTF-8 sequence. *)
Definition Replace (s old new : gostring) : gostring :=
  match old with
  | [] => new ++ concat (map (fun rb => snd rb ++ new) (utf8.runes s))
  | _ => replaceFrom (length s) s old new
  end.

End bytes.

Module strconv.

Definition intSize : Z := 64.
Definition maxInt : Z := 2 ^ (intSize - 1) - 1.
Definition minInt : Z := - 2 ^ (intSize - 1).

Definition digit (c : ascii) : option Z :=
  let x := byteval c in
  if ((48 <=? x) && (x <=? 57))%N then Some (Z.of_N x - 48)%Z else None.

(** The value of a run of decimal digits, [None] if another byte occurs. *)
Fixpoint digits (acc : Z) (s : gostring) : option Z :=
  match s with
  | [] => Some acc
  | c :: s' =>
    match digit c with
    | Some d => digits (acc * 10 + d) s'
    | None => None
    end
  end.

Definition ErrSyntax : error := errorString (str "invalid syntax").
Definition ErrRange : error := errorString (str "value out of range").

(** [strconv.Atoi]: an optional sign and one or more decimal digits, of a
    value that fits [int]. *)
Definition Atoi (s : gostring) : Z + error :=
  let syntaxError := inr (NumError (str "Atoi") s ErrSyntax) in
  let '(neg, ds) :=
    match s with
    | c :: s' =>
      if Ascii.eqb c "-" then (true, s')
      else if Ascii.eqb c "+" then (false, s') else (false, s)
    | [] => (false, s)
    end in
  match ds with
  | [] => syntaxError
  | _ =>
    match digits 0 ds with
    | None => syntaxError
    | Some n =>
      let v := if neg then (- n)%Z else n in
      if ((minInt <=? v) && (v <=? maxInt))%Z then inl v
      else inr (NumError (str "Atoi") s ErrRange)
    end
  end.

End strconv.

Module bufio.

Definition MaxScanTokenSize : N := 64 * 1024.

(** The line read so far no longer fits the buffer. *)
Definition tooLong (cur : gostring) : bool :=
  (MaxScanTokenSize <=? N.of_nat (length cur))%N.

(** [dropCR]: a trailing carriage return removed. *)
Definition dropCR (data : gostring) : gostring :=
  match last data with
  | Some c => if Ascii.eqb c "013" then removelast data else data
  | None => data
  end.

(** The tokens a [bufio.Scanner] with the split function [ScanLines]
    yields for the input [s], and the error [scanner.Err()] reports when
    the scan ends.  [cur] is the part of the current line read so far.  A
    line is a token when it fits the buffer with its terminator, that is,
    when it is shorter than [MaxScanTokenSize]; a longer line ends the
    scan with [ErrTooLong].  A final line without a newline is a token
    when it is not empty. *)
Fixpoint scanFrom (cur s : gostring) : list gostring * option error :=
  match s with
  | [] =>
    match cur with
    | [] => ([], None)
    | _ => if tooLong cur then ([], Some ErrTooLong)
           else ([dropCR cur], None)
    end
  | c :: s' =>
    if Ascii.eqb c "010" then
      if tooLong cur then ([], Some ErrTooLong)
      else let '(lines, err) := scanFrom [] s' in (dropCR cur :: lines, err)
    else scanFrom (cur ++ [c]) s'
  end.

Definition Scan (s : gostring) : list gostring * option error := scanFrom [] s.

End bufio.

(** * Results and effects

    A Go function that returns [(T, error)] returns a [result T]; a run-time
    panic (an index out of range, a nil dereference) is a result of its own.
    Code with effects on a state [S] (a writer, the process and its file
    system) is a function from the state to a result and the new state. *)
Inductive result (A : Type) : Type :=
| Ok (a : A)
| Err (e : error)
| Panic (msg : gostring).

Arguments Ok {A} a.
Arguments Err {A} e.
Arguments Panic {A} msg.

Definition io (S A : Type) : Type := S -> result A * S.

Definition ret {S A} (a : A) : io S A := fun s => (Ok a, s).
Definition fail {S A} (e : error) : io S A := fun s => (Err e, s).
Definition panic {S A} (msg : gostring) : io S A := fun s => (Panic msg, s).

Definition bind {S A B} (c : io S A) (k : A -> io S B) : io S B :=
  fun s =>
    match c s with
    | (Ok a, s') => k a s'
    | (Err e, s') => (Err e, s')
    | (Panic m, s') => (Panic m, s')
    end.

Declare Scope io_scope.
Delimit Scope io_scope with io.
Notation "x <- c ;; k" := (bind c (fun x => k))
  (at level 100, c at next level, right associativity) : io_scope.
Notation "c ;;; k" := (bind c (fun _ => k))
  (at level 100, right associativity) : io_scope.

(** [io.Writer]. *)
Class Writer (W : Type) : Type := Write : gostring -> io W unit.

(** A [bytes.Buffer] as a writer: it holds what was written and never
    fails. *)
#[export] Instance Buffer_Writer : Writer gostring :=
  fun p buf => (Ok tt, buf ++ p).

Module Cmdtest.

(** ** The data model *)

Record testCase : Type := {
  before : list gostring;           (* lines before the commands *)
  startLine : Z;                    (* line of first command *)
  commands : list gostring;         (* the list of commands to execute *)
  gotOutput : option (list gostring);  (* from execution; [None] is nil *)
  wantOutput : list gostring        (* from file *)
}.

Record testFile : Type := {
  filename : gostring;              (* full filename of the test file *)
  cases : list testCase;
  suffix : list gostring            (* non-output lines after last case *)
}.

(** ** Reading a test file *)

(** [tc.addCommandLine(line)]; [line] begins with the marker. *)
Definition addCommandLine (tc : testCase) (line : gostring) : testCase :=
  {| before := before tc; startLine := startLine tc;
     commands := commands tc ++ [strings.TrimSpace (drop 1 line)];
     gotOutput := gotOutput tc; wantOutput := wantOutput tc |}.

(** The test of the loop of [addCase]:
    [wantOutput[i] != "" && wantOutput[i][0] != '#']. *)
Definition isOutputLine (l : gostring) : bool :=
  match l with
  | [] => false
  | c :: _ => negb (Ascii.eqb c "#")
  end.

(** The loop of [addCase] and the [i++] after it: with the lines
    [out[0..n)] still to look at, from the last one down, the index of the
    first line to ignore. *)
Fixpoint firstIgnored (out : list gostring) (n : nat) : nat :=
  match n with
  | O => O
  | S i =>
    match out !! i with
    | Some l => if isOutputLine l then S i else firstIgnored out i
    | None => firstIgnored out i
    end
  end.

(** [tf.addCase(tc)]: the case with its output trimmed is added to the
    file; the trimmed lines are returned.  ([keep] of length 0 is set to
    nil, which is the empty list here.) *)
Definition addCase (tf : testFile) (tc : testCase) : testFile * list gostring :=
  let i := firstIgnored (wantOutput tc) (length (wantOutput tc)) in
  let keep := take i (wantOutput tc) in
  let suffix' := drop i (wantOutput tc) in
  let tc' := {| before := before tc; startLine := startLine tc;
                commands := commands tc; gotOutput := gotOutput tc;
                wantOutput := keep |} in
  ({| filename := filename tf; cases := cases tf ++ [tc']; suffix := suffix tf |},
   suffix').

(** The parse states. *)
Inductive parseState : Type := beforeFirstCommand | inCommands | inOutput.

(** The local variables of [readFile]. *)
Record reader : Type := {
  r_tf : testFile;
  r_tc : option testCase;           (* [None] is the nil pointer *)
  r_lineno : Z;
  r_prefix : list gostring;
  r_state : parseState
}.

Definition newCase (lineno : Z) (prefix : list gostring) : testCase :=
  {| before := prefix; startLine := lineno; commands := [];
     gotOutput := None; wantOutput := [] |}.

Definition appendOutput (tc : testCase) (line : gostring) : testCase :=
  {| before := before tc; startLine := startLine tc; commands := commands tc;
     gotOutput := gotOutput tc; wantOutput := wantOutput tc ++ [line] |}.

Definition nilDereference : gostring :=
  str "invalid memory address or nil pointer dereference".

(** The body of the loop [for scanner.Scan()] for one line. *)
Definition readLine (r : reader) (line : gostring) : result reader :=
  let lineno := (r_lineno r + 1)%Z in
  let isCommand := strings.HasPrefix line (str "$") in
  match r_state r with
  | beforeFirstCommand =>
    if isCommand then
      Ok {| r_tf := r_tf r;
            r_tc := Some (addCommandLine (newCase lineno (r_prefix r)) line);
            r_lineno := lineno; r_prefix := r_prefix r; r_state := inCommands |}
    else
      let line := strings.TrimSpace line in
      if match line with [] => true | c :: _ => Ascii.eqb c "#" end then
        Ok {| r_tf := r_tf r; r_tc := r_tc r; r_lineno := lineno;
              r_prefix := r_prefix r ++ [line]; r_state := beforeFirstCommand |}
      else Err (ErrBadLine (filename (r_tf r)) lineno line)
  | inCommands =>
    match r_tc r with
    | None => Panic nilDereference
    | Some tc =>
      if isCommand then
        Ok {| r_tf := r_tf r; r_tc := Some (addCommandLine tc line);
              r_lineno := lineno; r_prefix := r_prefix r; r_state := inCommands |}
      else (* End of commands marks the start of the output. *)
        Ok {| r_tf := r_tf r; r_tc := Some (appendOutput tc line);
              r_lineno := lineno; r_prefix := r_prefix r; r_state := inOutput |}
    end
  | inOutput =>
    match r_tc r with
    | None => Panic nilDereference
    | Some tc =>
      if isCommand then (* A command marks the end of the output. *)
        let '(tf, prefix) := addCase (r_tf r) tc in
        Ok {| r_tf := tf;
              r_tc := Some (addCommandLine (newCase lineno prefix) line);
              r_lineno := lineno; r_prefix := prefix; r_state := inCommands |}
      else
        Ok {| r_tf := r_tf r; r_tc := Some (appendOutput tc line);
              r_lineno := lineno; r_prefix := r_prefix r; r_state := inOutput |}
    end
  end.

(** The loop over the lines. *)
Fixpoint readLines (r : reader) (lines : list gostring) : result reader :=
  match lines with
  | [] => Ok r
  | line :: rest =>
    match readLine r line with
    | Ok r' => readLines r' rest
    | Err e => Err e
    | Panic m => Panic m
    end
  end.

Definition initReader (filename : gostring) : reader :=
  {| r_tf := {| filename := filename; cases := []; suffix := [] |};
     r_tc := None; r_lineno := 0; r_prefix := []; r_state := beforeFirstCommand |}.

(** What [readFile] does once the lines are read: the scanner's error is
    looked at, then the open case is added. *)
Definition finishRead (r : reader) (scanErr : option error) : result testFile :=
  match scanErr with
  | Some e => Err e
  | None =>
    match r_tc r with
    | Some tc =>
      let '(tf, suffix') := addCase (r_tf r) tc in
      Ok {| filename := filename tf; cases := cases tf; suffix := suffix' |}
    | None => Ok (r_tf r)
    end
  end.

(** [readFile(filename)], where [text] is the content of the file (the
    error of [os.Open] comes before all this). *)
Definition readFile (filename text : gostring) : result testFile :=
  let '(lines, scanErr) := bufio.Scan text in
  match readLines (initReader filename) lines with
  | Ok r => finishRead r scanErr
  | Err e => Err e
  | Panic m => Panic m
  end.

(** ** Writing a test file *)

Section Write.
Context {W : Type} {wr : Writer W}.
Local Open Scope io_scope.

(** [writeLines(w, lines)]. *)
Fixpoint writeLines (lines : list gostring) : io W unit :=
  match lines with
  | [] => ret tt
  | l :: rest => Write l ;;; Write newline ;;; writeLines rest
  end.

(** [tc.writeCommands(w)]: [fmt.Fprintf(w, "$ %s\n", c)] for every
    command. *)
Fixpoint writeCommandLines (cs : list gostring) : io W unit :=
  match cs with
  | [] => ret tt
  | c :: rest => Write (str "$ " ++ c ++ newline) ;;; writeCommandLines rest
  end.

Definition writeCommands (tc : testCase) : io W unit :=
  writeCommandLines (commands tc).

(** [tc.write(w)]. *)
Definition writeCase (tc : testCase) : io W unit :=
  writeLines (before tc) ;;;
  writeCommands tc ;;;
  let out := match gotOutput tc with
             | None => wantOutput tc
             | Some out => out
             end in
  writeLines out.

Fixpoint writeCases (cs : list testCase) : io W unit :=
  match cs with
  | [] => ret tt
  | c :: rest => writeCase c ;;; writeCases rest
  end.

(** [tf.write(w)]. *)
Definition write (tf : testFile) : io W unit :=
  writeCases (cases tf) ;;; writeLines (suffix tf).

End Write.

(** ** The command micro-language *)

Definition failMarker : gostring := str " --> FAIL".

(** [parseCommand(cmdline)]: the command, whether it must fail, and the
    exit code wanted ([0] for none). *)
Definition parseCommand (cmdline : gostring) : result (gostring * bool * Z) :=
  let i := strings.LastIndex cmdline failMarker in
  if (i <? 0)%Z then Ok (cmdline, false, 0%Z)
  else
    let cmd := take (Z.to_nat i) cmdline in
    let rest := strings.TrimSpace (drop (Z.to_nat i + length failMarker) cmdline) in
    if 0 <? length rest then
      match strconv.Atoi rest with
      | inr err => Err err
      | inl wantExitCode =>
        if (wantExitCode =? 0)%Z then Err ErrZeroExitCode
        else Ok (cmd, true, wantExitCode)
      end
    else Ok (cmd, true, 0%Z).

(** [extractExitCode(err)]: the switch tries [syscall.Errno], then
    [*exec.ExitError], then [*ExitCodeErr]. *)
Definition asErrno (e : error) : option Z :=
  match e with Errno n => Some n | _ => None end.
Definition asExitError (e : error) : option Z :=
  match e with ExitError c => Some c | _ => None end.
Definition asExitCodeErr (e : error) : option Z :=
  match e with ExitCodeErr _ c => Some c | _ => None end.

Definition extractExitCode (err : error) : Z * bool :=
  match errors.As asErrno err with
  | Some errno => (errno, true)
  | None =>
    match errors.As asExitError err with
    | Some code => (code, true)
    | None =>
      match errors.As asExitCodeErr err with
      | Some code => (code, true)
      | None => (0%Z, false)
      end
    end
  end.

(** *** Variable expansion *)

(** A byte of the class [[^${}]] of [varRegexp].  (The class is one of
    runes; the three bytes it excludes are ASCII, so a rune is in the class
    exactly when none of its bytes is one of them.) *)
Definition isNameByte (c : ascii) : bool :=
  negb (Ascii.eqb c "$" || Ascii.eqb c "{" || Ascii.eqb c "}").

(** The length of the longest run of name bytes at the start of [s]. *)
Fixpoint nameRun (s : gostring) : nat :=
  match s with
  | c :: s' => if isNameByte c then S (nameRun s') else 0
  | [] => 0
  end.

(** [varRegexp] matched at the start of [s]: the length of the name.  The
    run of name bytes is taken whole (the next byte, a closing brace, is
    not in the class). *)
Definition matchHere (s : gostring) : option nat :=
  match s with
  | c0 :: c1 :: s' =>
    if Ascii.eqb c0 "$" && Ascii.eqb c1 "{" then
      let n := nameRun s' in
      match drop n s' with
      | c :: _ => if (0 <? n) && Ascii.eqb c "}" then Some n else None
      | [] => None
      end
    else None
  | _ => None
  end.

(** [varRegexp.FindStringSubmatchIndex(s)]: for the leftmost match, the
    indices [ixs[0], ixs[1]] of the match and [ixs[2], ixs[3]] of the
    name; [pos] is the index of [s] in the whole string. *)
Fixpoint findFrom (pos : nat) (s : gostring) : option (nat * nat * nat * nat) :=
  match matchHere s with
  | Some n => Some (pos, pos + 2 + n + 1, pos + 2, pos + 2 + n)
  | None =>
    match s with
    | [] => None
    | _ :: s' => findFrom (S pos) s'
    end
  end.

Definition FindStringSubmatchIndex (s : gostring) : option (nat * nat * nat * nat) :=
  findFrom 0 s.

Lemma findFrom_end pos s i0 i1 i2 i3 :
  findFrom pos s = Some (i0, i1, i2, i3) -> s <> [] /\ 0 < i1.
Proof.
  revert pos. induction s as [|c s IH]; intros pos; cbn [findFrom].
  - discriminate.
  - destruct (matchHere (c :: s)) as [n|].
    + intros Heq. inversion Heq; subst. split; [discriminate | lia].
    + intros Hf. split; [discriminate | eapply IH; eauto].
Qed.

Lemma expand_shrinks s i0 i1 i2 i3 :
  FindStringSubmatchIndex s = Some (i0, i1, i2, i3) ->
  length (drop i1 s) < length s.
Proof.
  intros Hf. apply findFrom_end in Hf as [Hs Hi].
  rewrite length_drop. destruct s; [congruence | simpl; lia].
Qed.

(** A value together with the equation that names it, for the recursion
    below. *)
Definition inspect {A : Type} (a : A) : {b : A | a = b} := exist _ a eq_refl.

(** The loop of [expandVariables]; [sb] is the [strings.Builder]. *)
Equations expandLoop (lookup : gostring -> option gostring) (sb s : gostring)
  : result gostring by wf (length s) lt :=
  expandLoop lookup sb s with inspect (FindStringSubmatchIndex s) := {
    | exist _ None _ => Ok (sb ++ s)
    | exist _ (Some (i0, i1, i2, i3)) Hixs with lookup (slice s i2 i3) := {
      | None => Err (ErrVarNotFound (slice s i2 i3))
      | Some varVal => expandLoop lookup (sb ++ take i0 s ++ varVal) (drop i1 s)
      }
    }.
Next Obligation. eapply expand_shrinks; eauto. Qed.

(** [expandVariables(s, lookup)]. *)
Definition expandVariables (s : gostring) (lookup : gostring -> option gostring)
  : result gostring :=
  expandLoop lookup [] s.

(** ** The process and its operating system

    The program acts on the process (environment, working directory,
    standard output) and on the file system through [os], [ioutil], [io]
    and [path/filepath].  [World] is the state of all that, [File] the type of
    an open file ([*os.File]).  Every call is a function on the world; a
    failing call gives [Err]. *)
Class OS (World : Type) : Type := {
  File : Type;
  LookupEnv : gostring -> World -> option gostring;
  Setenv : gostring -> gostring -> io World unit;
  Unsetenv : gostring -> io World unit;
  Getwd : io World gostring;
  Chdir : gostring -> io World unit;
  Stat : gostring -> io World unit;
  TempDir : gostring -> gostring -> io World gostring;
  RemoveAll : gostring -> io World unit;
  ReadDir : gostring -> io World (list gostring);   (* the names *)
  Open : gostring -> io World File;
  Create : gostring -> io World File;
  Copy : File -> File -> io World unit;             (* io.Copy(dst, src) *)
  TempFile : gostring -> gostring -> io World File;
  Name : File -> gostring;
  FileWrite : File -> gostring -> io World unit;
  Sync : File -> io World unit;
  Close : File -> io World unit;
  Remove : gostring -> io World unit;
  Rename : gostring -> gostring -> io World unit;
  Printf : gostring -> io World unit;               (* to standard output *)
  Separator : ascii;                                (* filepath.Separator *)
  Join : gostring -> gostring -> gostring;          (* filepath.Join *)
  Base : gostring -> gostring                       (* filepath.Base *)
}.

Section Engine.
Context {World : Type} {os : OS World}.
Local Open Scope io_scope.

(** [os.Getenv]. *)
Definition Getenv (key : gostring) (w : World) : gostring :=
  default [] (LookupEnv key w).

(** An open file is a writer. *)
#[local] Instance File_Writer (f : File) : Writer World := FileWrite f.

(** [defer d] around [body]: [d] runs when [body] returns, whatever its
    result; the result of [d] is dropped. *)
Definition deferring {A B} (d : io World B) (body : io World A) : io World A :=
  fun w => let '(r, w') := body w in (r, snd (d w')).

(** [CommandFunc]: the output and the error are both returned. *)
Definition CommandFunc : Type :=
  list gostring -> gostring -> World -> (gostring * option error) * World.

(** The log function, [t.Logf] or [noopLogger], on a formatted
    message. *)
Definition Logger : Type := gostring -> World -> World.
Definition noopLogger : Logger := fun _ w => w.

Record TestSuite : Type := {
  Setup : option (gostring -> io World unit);
  Commands : gmap gostring CommandFunc;
  KeepRootDirs : bool;
  DisableLogging : bool;
  files : list testFile
}.

(** [scrub(rootDir, b)]. *)
Definition scrubbedRootDir : gostring := str "${ROOTDIR}".

Definition scrub (rootDir b : gostring) : gostring :=
  let sep := [Separator] in
  let rootDirWithSeparator := rootDir ++ sep in
  let scrubbedRootDirWithSeparator := scrubbedRootDir ++ sep in
  let b := bytes.Replace b rootDirWithSeparator scrubbedRootDirWithSeparator in
  bytes.Replace b rootDir scrubbedRootDir.

(** The loop [for i := range args] of [tc.execute]: the variables of
    every word expanded, up to the first failure. *)
Fixpoint expandArgs (args : list gostring) (lookup : gostring -> option gostring)
    : result (list gostring) :=
  match args with
  | [] => Ok []
  | a :: rest =>
    match expandVariables a lookup with
    | Ok a' =>
      match expandArgs rest lookup with
      | Ok rest' => Ok (a' :: rest')
      | Err e => Err e
      | Panic m => Panic m
      end
    | Err e => Err e
    | Panic m => Panic m
    end
  end.

(** The three [if]s at the end of the loop body of [tc.execute], on the
    error [err] of the command; the result is the error returned, if
    any. *)
Definition checkOutcome (line : Z) (cmd : gostring) (wantFail : bool)
    (wantExitCode : Z) (err : option error) : option error :=
  match err with
  | None => if wantFail then Some (ErrSucceeded line cmd) else None
  | Some e =>
    if negb wantFail then Some (ErrFailedWith line cmd e)
    else if negb (wantExitCode =? 0)%Z then
      let '(gotExitCode, ok) := extractExitCode e in
      if negb ok then Some (ErrNoExitCode line cmd)
      else if negb (gotExitCode =? wantExitCode)%Z
      then Some (ErrExitCode line cmd gotExitCode wantExitCode)
      else None
    else None
  end.

(** The input redirection: [args] without the command name gives the
    input file and the arguments left. *)
Definition splitInput (args : list gostring) : gostring * list gostring :=
  if (2 <=? length args)
     && bool_decide (args !! (length args - 2) = Some (str "<"))
  then (default [] (args !! (length args - 1)), take (length args - 2) args)
  else ([], args).

Definition indexOutOfRange : gostring :=
  str "index out of range [0] with length 0".

(** The body of the loop [for i, cmd := range tc.commands] of
    [tc.execute], for the command on line [line = tc.startLine + i]: the
    output of the command. *)
Definition executeCommand (ts : TestSuite) (log : Logger) (line : Z)
    (cmdline : gostring) : io World gostring :=
  fun w =>
    match parseCommand cmdline with
    | Err e => (Err e, w)
    | Panic m => (Panic m, w)
    | Ok (cmd, wantFail, wantExitCode) =>
      match expandArgs (strings.Fields cmd) (fun name => LookupEnv name w) with
      | Err e => (Err e, w)
      | Panic m => (Panic m, w)
      | Ok args =>
        let w := log (str "$ " ++ strings.Join args (str " ")) w in
        match args with
        | [] => (Panic indexOutOfRange, w)          (* name := args[0] *)
        | name :: args =>
          let '(infile, args) := splitInput args in
          match Commands ts !! name with
          | None => (Err (ErrNoSuchCommand line name), w)
          | Some f =>
            let '((out, err), w) := f args infile w in
            let w := log (out ++ newline) w in
            match checkOutcome line cmd wantFail wantExitCode err with
            | Some e => (Err e, w)
            | None => (Ok out, w)
            end
          end
        end
      end
    end.

(** The loop over the commands of a case; [allout] is the output so
    far, [i] the index of the first of [cmds] in the case. *)
Fixpoint executeCommands (ts : TestSuite) (log : Logger) (startLine : Z)
    (i : Z) (cmds : list gostring) (allout : gostring) : io World gostring :=
  match cmds with
  | [] => ret allout
  | cmd :: rest =>
    out <- executeCommand ts log (startLine + i) cmd ;;
    executeCommands ts log startLine (i + 1) rest (allout ++ out)
  end.

Definition setGotOutput (tc : testCase) (out : option (list gostring)) : testCase :=
  {| before := before tc; startLine := startLine tc; commands := commands tc;
     gotOutput := out; wantOutput := wantOutput tc |}.

(** [tc.execute(ts, log, parallel)].  The case is changed in place:
    the result carries the case as the call leaves it. *)
Definition executeCase (ts : TestSuite) (log : Logger) (parallel : bool)
    (tc : testCase) (w : World) : result unit * testCase * World :=
  let tc := setGotOutput tc None in
  match executeCommands ts log (startLine tc) 0 (commands tc) [] w with
  | (Ok allout, w) =>
    if 0 <? length allout then
      let allout := if negb parallel then scrub (Getenv (str "ROOTDIR") w) allout
                    else allout in
      let s := strings.TrimRight allout [" "; "009"; "010"]%char in
      (Ok tt, setGotOutput tc (Some (strings.Split s "010")), w)
    else (Ok tt, tc, w)
  | (Err e, w) => (Err e, tc, w)
  | (Panic m, w) => (Panic m, tc, w)
  end.

(** The loop [for _, tc := range tf.cases] of [tf.execute]; it returns
    at the first error. *)
Fixpoint executeCases (ts : TestSuite) (log : Logger) (parallel : bool)
    (cs : list testCase) (w : World) : result unit * list testCase * World :=
  match cs with
  | [] => (Ok tt, [], w)
  | tc :: rest =>
    match executeCase ts log parallel tc w with
    | (Ok _, tc', w') =>
      let '(r, rest', w'') := executeCases ts log parallel rest w' in
      (r, tc' :: rest', w'')
    | (Err e, tc', w') => (Err e, tc' :: rest, w')
    | (Panic m, tc', w') => (Panic m, tc' :: rest, w')
    end
  end.

Definition setCases (tf : testFile) (cs : list testCase) : testFile :=
  {| filename := filename tf; cases := cs; suffix := suffix tf |}.

(** An error of [e] reported for the file: [fmt.Errorf("%s: %v", ...)]
    and its variants, [what] being the text between the file name and
    the error. *)
Definition inFile (tf : testFile) (what : gostring) {A} (c : io World A) : io World A :=
  fun w =>
    match c w with
    | (Err e, w') => (Err (ErrInFile (filename tf) what e), w')
    | r => r
    end.

(** [copyFile(src, dst)]. *)
Definition copyFile (src dst : gostring) : io World unit :=
  sourceFile <- Open src ;;
  deferring (Close sourceFile)
    (destFile <- Create dst ;;
     deferring (Close destFile) (Copy destFile sourceFile)).

(** [copyTestFiles(tmpDir, testFilesDir)]. *)
Fixpoint copyEach (tmpDir testFilesDir : gostring) (names : list gostring)
    : io World unit :=
  match names with
  | [] => ret tt
  | name :: rest =>
    copyFile (Join testFilesDir name) (Join tmpDir name) ;;;
    copyEach tmpDir testFilesDir rest
  end.

Definition copyTestFiles (tmpDir testFilesDir : gostring) : io World unit :=
  names <- ReadDir testFilesDir ;;
  copyEach tmpDir testFilesDir names.

(** The end of [tf.execute], from [if tf.suite.Setup != nil]. *)
Definition setupAndCases (ts : TestSuite) (log : Logger) (parallel : bool)
    (tf : testFile) (rootDir : gostring) (w : World)
    : result unit * testFile * World :=
  let '(r, w) :=
    match Setup ts with
    | Some setup => inFile tf (str ": calling Setup: ") (setup rootDir) w
    | None => (Ok tt, w)
    end in
  match r with
  | Ok _ =>
    let '(r, cs, w) := executeCases ts log parallel (cases tf) w in
    match r with
    | Err e => (Err (ErrInFile (filename tf) (str ":") e), setCases tf cs, w)
    | _ => (r, setCases tf cs, w)
    end
  | _ => (r, tf, w)
  end.

(** The deferred calls of a function whose result carries the file. *)
Definition deferringF {B} (d : io World B)
    (body : World -> result unit * testFile * World)
    : World -> result unit * testFile * World :=
  fun w => let '(r, tf, w') := body w in (r, tf, snd (d w')).

(** A step of [tf.execute] before the cases run: on failure the
    function returns with the file as it is. *)
Definition step {A} (tf : testFile) (c : io World A)
    (k : A -> World -> result unit * testFile * World)
    : World -> result unit * testFile * World :=
  fun w =>
    match c w with
    | (Ok a, w') => k a w'
    | (Err e, w') => (Err e, tf, w')
    | (Panic m, w') => (Panic m, tf, w')
    end.

(** [if tf.suite.KeepRootDirs { fmt.Printf(...) } else { defer
    os.RemoveAll(rootDir) }], around the rest of the function. *)
Definition keepOrRemove (ts : TestSuite) (tf : testFile) (rootDir : gostring)
    (rest : World -> result unit * testFile * World)
    : World -> result unit * testFile * World :=
  if KeepRootDirs ts then
    fun w => rest (snd (Printf (filename tf ++ str ": test root directory: "
                                  ++ rootDir ++ newline) w))
  else deferringF (RemoveAll rootDir) rest.

(** [if _, err := os.Stat(testFilesDir); err == nil { ... }]. *)
Definition copyIfPresent (tf : testFile) (rootDir : gostring) : io World unit :=
  let testFilesDir := strings.ReplaceFirst (filename tf) (str ".ct") (str "_tf") in
  fun w =>
    match Stat testFilesDir w with
    | (Ok _, w') =>
      inFile tf (str ": copying test files: ") (copyTestFiles rootDir testFilesDir) w'
    | (_, w') => (Ok tt, w')
    end.

(** [tf.execute(log, parallel)]. *)
Definition execute (ts : TestSuite) (log : Logger) (parallel : bool)
    (tf : testFile) : World -> result unit * testFile * World :=
  if negb parallel then
    step tf (inFile tf (str ": ") (TempDir [] (str "cmdtest"))) (fun rootDir =>
    keepOrRemove ts tf rootDir (
    step tf (inFile tf (str ": ") (Setenv (str "ROOTDIR") rootDir)) (fun _ =>
    deferringF (Unsetenv (str "ROOTDIR")) (
    step tf (inFile tf (str ": ") Getwd) (fun cwd =>
    step tf (copyIfPresent tf rootDir) (fun _ =>
    step tf (inFile tf (str ": ") (Chdir rootDir)) (fun _ =>
    deferringF (Chdir cwd) (
    setupAndCases ts log parallel tf rootDir))))))))
  else setupAndCases ts log parallel tf [].

(** ** Comparing *)

(** [cmp.Diff(c.wantOutput, c.gotOutput) == ""]: the two slices are
    equal, a nil slice being equal to a nil slice only. *)
Definition sameOutput (want : list gostring) (got : option (list gostring)) : bool :=
  match got with
  | None => bool_decide (want = [])
  | Some g => bool_decide (g = want) && negb (bool_decide (g = []))
  end.

(** What a subtest reports with [t.Error] or [t.Fatal]: an error, or
    the cases whose output differs (for each of them [tf.compare] prints
    the file name, the line, the commands and the diff). *)
Inductive report : Type :=
| reportError (e : error)
| reportDiffs (filename : gostring) (cs : list testCase).

(** [tf.compare(log, parallel)]: [None] is the empty string. *)
Definition compareFile (ts : TestSuite) (log : Logger) (parallel : bool)
    (tf : testFile) (w : World) : result (option report) * testFile * World :=
  match execute ts log parallel tf w with
  | (Err e, tf', w') => (Ok (Some (reportError e)), tf', w')
  | (Panic m, tf', w') => (Panic m, tf', w')
  | (Ok _, tf', w') =>
    match filter (fun c => negb (sameOutput (wantOutput c) (gotOutput c))) (cases tf') with
    | [] => (Ok None, tf', w')
    | cs => (Ok (Some (reportDiffs (filename tf') cs)), tf', w')
    end
  end.

(** ** Updating *)

(** [simpleTempFile]. *)
Record simpleTempFile : Type := {
  tmpFile : File;
  path : gostring;                (* rename to this *)
  closed : bool;                  (* Close was called *)
  done : bool                     (* Close and Rename succeeded *)
}.

Definition createTempFile (filename : gostring) : io World simpleTempFile :=
  f <- TempFile [] (Base filename) ;;
  ret {| tmpFile := f; path := filename; closed := false; done := false |}.

(** [t.Cleanup()]. *)
Definition Cleanup (t : simpleTempFile) : io World unit :=
  if done t then ret tt
  else fun w =>
    let '(closeErr, w) :=
      if negb (closed t) then Close (tmpFile t) w else (Ok tt, w) in
    match Remove (Name (tmpFile t)) w with
    | (Ok _, w') => (closeErr, w')
    | r => r
    end.

(** [t.CloseAtomicallyReplace()]; it sets the fields of [t]. *)
Definition CloseAtomicallyReplace (t : simpleTempFile) (w : World)
    : result unit * simpleTempFile * World :=
  match Sync (tmpFile t) w with
  | (Ok _, w) =>
    let t := {| tmpFile := tmpFile t; path := path t; closed := true; done := done t |} in
    match Close (tmpFile t) w with
    | (Ok _, w) =>
      match Rename (Name (tmpFile t)) (path t) w with
      | (Ok _, w) =>
        (Ok tt, {| tmpFile := tmpFile t; path := path t; closed := closed t;
                   done := true |}, w)
      | (r, w) => (r, t, w)
      end
    | (r, w) => (r, t, w)
    end
  | (r, w) => (r, t, w)
  end.

(** [tf.updateToTemp(parallel)]: the temporary file, nil or not, and
    the error. *)
Definition updateToTemp (ts : TestSuite) (parallel : bool) (tf : testFile)
    (w : World) : option simpleTempFile * result unit * testFile * World :=
  match execute ts noopLogger parallel tf w with
  | (Ok _, tf, w) =>
    match createTempFile (filename tf) w with
    | (Ok f, w) =>
      (* Return f in order to clean it up outside this function. *)
      let '(r, w) := write (wr := File_Writer (tmpFile f)) tf w in
      (Some f, r, tf, w)
    | (Err e, w) => (None, Err e, tf, w)
    | (Panic m, w) => (None, Panic m, tf, w)
    end
  | (r, tf, w) => (None, r, tf, w)
  end.

(** The function that [ts.update] runs as the subtest of a file: what
    it reports with [t.Fatal], in order.  [t.Fatal] ends the function;
    the deferred call of [Cleanup] runs all the same, and reports its own
    error.  (A panic before [updateToTemp] returns comes before the [defer]
    statement.) *)
Definition updateFile (ts : TestSuite) (parallel : bool) (tf : testFile)
    (w : World) : result (list report) * testFile * World :=
  let '(tmpfile, err, tf, w) := updateToTemp ts parallel tf w in
  match tmpfile, err with
  | _, Panic m => (Panic m, tf, w)
  | None, Err e => (Ok [reportError e], tf, w)
  | None, Ok _ => (Panic nilDereference, tf, w)
  | Some t, _ =>
    let '(fatal, t, w) :=
      match err with
      | Err e => (Ok [reportError e], t, w)
      | _ =>
        match CloseAtomicallyReplace t w with
        | (Err e, t, w) => (Ok [reportError e], t, w)
        | (Ok _, t, w) => (Ok [], t, w)
        | (Panic m, t, w) => (Panic m, t, w)
        end
      end in
    match Cleanup t w, fatal with
    | (Err e, w), Ok msgs => (Ok (msgs ++ [reportError e]), tf, w)
    | (_, w), _ => (fatal, tf, w)
    end
  end.

(** ** The suite *)

(** The function that [ts.compare] runs as the subtest of a file. *)
Definition compareSubtest (ts : TestSuite) (tLogf : Logger) (parallel : bool)
    (tf : testFile) (w : World) : result (list report) * testFile * World :=
  let log := if DisableLogging ts then noopLogger else tLogf in
  match compareFile ts log parallel tf w with
  | (Ok (Some s), tf, w) => (Ok [s], tf, w)
  | (Ok None, tf, w) => (Ok [], tf, w)
  | (Err e, tf, w) => (Err e, tf, w)
  | (Panic m, tf, w) => (Panic m, tf, w)
  end.

(** The loop [for _, tf := range ts.files] with [t.Run] in it, the
    subtests running one after the other: for every file the name of
    its subtest and what the subtest reported.  A subtest that panics
    ends the test binary. *)
Fixpoint runFiles
    (subtest : testFile -> World -> result (list report) * testFile * World)
    (fs : list testFile) (w : World)
    : list (gostring * result (list report)) * list testFile * World :=
  match fs with
  | [] => ([], [], w)
  | tf :: rest =>
    let name := strings.TrimSuffix (filename tf) (str ".ct") in
    match subtest tf w with
    | (Panic m, tf', w') => ([(name, Panic m)], tf' :: rest, w')
    | (r, tf', w') =>
      let '(rs, rest', w'') := runFiles subtest rest w' in
      ((name, r) :: rs, tf' :: rest', w'')
    end
  end.

(** [ts.compare(t, parallel)] and [ts.update(t, parallel)]. *)
Definition compare (ts : TestSuite) (tLogf : Logger) (parallel : bool)
    : World -> list (gostring * result (list report)) * list testFile * World :=
  runFiles (compareSubtest ts tLogf parallel) (files ts).

Definition update (ts : TestSuite) (parallel : bool)
    : World -> list (gostring * result (list report)) * list testFile * World :=
  runFiles (updateFile ts parallel) (files ts).

(** ** A built-in command *)

(** [echoCmd]: the arguments, a literal [\n] in them replaced by a
    newline, and a newline. *)
Definition echoCmd : CommandFunc :=
  fun args inputFile w =>
    if negb (bool_decide (inputFile = [])) then
      (([], Some (errorString (str "input redirection not supported"))), w)
    else
      let s := strings.Join args (str " ") in
      let s := bytes.Replace s (str "\n") newline in
      ((s ++ newline, None), w).

End Engine.

Arguments CommandFunc : clear implicits.
Arguments Logger : clear implicits.
Arguments TestSuite : clear implicits.

End Cmdtest.

(** * A simulated operating system

    An instance of [OS] to run the program on: a flat file system (a path
    names a file directly), an environment, and a schedule of faults.  Every
    call that can fail takes the next entry of the schedule and fails when it
    is [true]; with the schedule used up, calls succeed. *)
Module Sim.
Import Cmdtest.

Record World : Type := {
  fs : gmap gostring gostring;      (* path to content *)
  env : gmap gostring gostring;
  cwd : gostring;
  faults : list bool;
  names : list gostring;            (* the random parts of temporary names *)
  stdout : gostring
}.

Definition setFs (w : World) (m : gmap gostring gostring) : World :=
  {| fs := m; env := env w; cwd := cwd w; faults := faults w;
     names := names w; stdout := stdout w |}.
Definition setEnv (w : World) (m : gmap gostring gostring) : World :=
  {| fs := fs w; env := m; cwd := cwd w; faults := faults w;
     names := names w; stdout := stdout w |}.
Definition setCwd (w : World) (d : gostring) : World :=
  {| fs := fs w; env := env w; cwd := d; faults := faults w;
     names := names w; stdout := stdout w |}.
Definition setFaults (w : World) (l : list bool) : World :=
  {| fs := fs w; env := env w; cwd := cwd w; faults := l;
     names := names w; stdout := stdout w |}.
Definition setNames (w : World) (l : list gostring) : World :=
  {| fs := fs w; env := env w; cwd := cwd w; faults := faults w;
     names := l; stdout := stdout w |}.
Definition setStdout (w : World) (out : gostring) : World :=
  {| fs := fs w; env := env w; cwd := cwd w; faults := faults w;
     names := names w; stdout := out |}.

(** The next entry of the schedule: [Err e] when it is a fault. *)
Definition attempt (e : error) : io World unit :=
  fun w =>
    match faults w with
    | true :: rest => (Err e, setFaults w rest)
    | false :: rest => (Ok tt, setFaults w rest)
    | [] => (Ok tt, w)
    end.

Definition EIO : error := Errno 5.
Definition ENOENT : error := Errno 2.
Definition EEXIST : error := Errno 17.

Local Open Scope io_scope.

Definition sep : ascii := "/"%char.

Definition nextName (pattern : gostring) (w : World) : gostring * World :=
  match names w with
  | n :: rest => (str "/tmp/" ++ pattern ++ n, setNames w rest)
  | [] => (str "/tmp/" ++ pattern, w)
  end.

Definition exists_ (p : gostring) : io World unit :=
  fun w => match fs w !! p with Some _ => (Ok tt, w) | None => (Err ENOENT, w) end.

(** The part of a path after the last separator. *)
Fixpoint base (p : gostring) : gostring :=
  match p with
  | [] => []
  | c :: p' => if bool_decide (sep ∈ p') then base p'
               else if Ascii.eqb c sep then p' else p
  end.

Definition under (dir : gostring) (kv : gostring * gostring) : Prop :=
  strings.HasPrefix kv.1 (dir ++ [sep]) = true.

#[global] Instance under_dec dir kv : Decision (under dir kv).
Proof. unfold under. apply _. Defined.

#[global] Instance Sim_OS : OS World := {|
  File := gostring;
  LookupEnv := fun key w => env w !! key;
  Setenv := fun key value =>
    attempt EIO ;;; fun w => (Ok tt, setEnv w (<[key := value]> (env w)));
  Unsetenv := fun key =>
    attempt EIO ;;; fun w => (Ok tt, setEnv w (delete key (env w)));
  Getwd := attempt EIO ;;; fun w => (Ok (cwd w), w);
  Chdir := fun dir => attempt ENOENT ;;; fun w => (Ok tt, setCwd w dir);
  Stat := fun p => attempt EIO ;;; exists_ p;
  TempDir := fun _ pattern =>
    attempt EIO ;;; fun w => let '(n, w) := nextName pattern w in (Ok n, w);
  RemoveAll := fun dir =>
    attempt EIO ;;;
    fun w => (Ok tt, setFs w (filter (fun kv => ¬ under dir kv) (fs w)));
  ReadDir := fun dir =>
    attempt EIO ;;;
    fun w => (Ok (map (fun kv => drop (S (length dir)) kv.1)
                    (map_to_list (filter (under dir) (fs w)))), w);
  Open := fun p => attempt EIO ;;; exists_ p ;;; ret p;
  Create := fun p =>
    attempt EIO ;;; fun w => (Ok p, setFs w (<[p := []]> (fs w)));
  Copy := fun dst src =>
    attempt EIO ;;;
    fun w => (Ok tt, setFs w (<[dst := default [] (fs w !! src)]> (fs w)));
  TempFile := fun _ pattern =>
    attempt EIO ;;;
    fun w =>
      let '(n, w) := nextName pattern w in
      match fs w !! n with
      | Some _ => (Err EEXIST, w)
      | None => (Ok n, setFs w (<[n := []]> (fs w)))
      end;
  Name := fun f => f;
  FileWrite := fun f p w =>
    (* a failing write may have written a part *)
    match attempt EIO w with
    | (Ok _, w) => (Ok tt, setFs w (<[f := default [] (fs w !! f) ++ p]> (fs w)))
    | (r, w) =>
      (r, setFs w (<[f := default [] (fs w !! f) ++ take (length p / 2) p]> (fs w)))
    end;
  Sync := fun _ => attempt EIO;
  Close := fun _ => attempt EIO;
  Remove := fun p =>
    attempt EIO ;;; exists_ p ;;; fun w => (Ok tt, setFs w (delete p (fs w)));
  Rename := fun old new =>
    attempt EIO ;;; exists_ old ;;;
    fun w => (Ok tt, setFs w (<[new := default [] (fs w !! old)]> (delete old (fs w))));
  Printf := fun msg w => (Ok tt, setStdout w (stdout w ++ msg));
  Separator := sep;
  Join := fun a b => a ++ [sep] ++ b;
  Base := base
|}.

(** A command that fails with the exit code given as its argument, as a
    program run with [exec.Command] does. *)
Definition exitCmd : CommandFunc World :=
  fun args _ w =>
    match args with
    | [code] =>
      match strconv.Atoi code with
      | inl 0%Z => (([], None), w)
      | inl n => ((str "exiting" ++ newline, Some (ExitError n)), w)
      | inr e => (([], Some e), w)
      end
    | _ => (([], Some (errorString (str "need exactly 1 arguments"))), w)
    end.

Definition world0 : World :=
  {| fs := ∅; env := ∅; cwd := str "/work"; faults := []; names := []; stdout := [] |}.

Definition suite (fs : list testFile) : TestSuite World :=
  {| Setup := None;
     Commands := <[str "echo" := echoCmd]> (<[str "exit" := exitCmd]> ∅);
     KeepRootDirs := false; DisableLogging := true; files := fs |}.

End Sim.

(** * Properties *)

Import Cmdtest.

(** Both sides are the same concatenation, bracketed differently. *)
Ltac same_text :=
  repeat (cbn [app]; rewrite <- ?app_assoc; cbn [app]);
  rewrite ?app_nil_r; reflexivity.

(** ** The writer on a buffer *)

(** The text of a list of lines, each with its newline. *)
Definition unlines (lines : list gostring) : gostring :=
  concat (map (fun l => l ++ newline) lines).

Definition commandLines (cs : list gostring) : gostring :=
  concat (map (fun c => str "$ " ++ c ++ newline) cs).

(** The text [tc.write] writes for a case that was not executed. *)
Definition caseText (tc : testCase) : gostring :=
  unlines (before tc) ++ commandLines (commands tc) ++ unlines (wantOutput tc).

Lemma unlines_app l1 l2 : unlines (l1 ++ l2) = unlines l1 ++ unlines l2.
Proof. unfold unlines. now rewrite map_app, concat_app. Qed.

Lemma commandLines_app l1 l2 :
  commandLines (l1 ++ l2) = commandLines l1 ++ commandLines l2.
Proof. unfold commandLines. now rewrite map_app, concat_app. Qed.

Lemma writeLines_buffer lines buf :
  writeLines lines buf = (Ok tt, buf ++ unlines lines).
Proof.
  revert buf. induction lines as [|l rest IH]; intros buf; simpl.
  - unfold ret. now rewrite app_nil_r.
  - unfold bind, Write, Buffer_Writer. rewrite IH. f_equal.
    unfold unlines. simpl. same_text.
Qed.

Lemma writeCommandLines_buffer cs buf :
  writeCommandLines cs buf = (Ok tt, buf ++ commandLines cs).
Proof.
  revert buf. induction cs as [|c rest IH]; intros buf; simpl.
  - unfold ret. now rewrite app_nil_r.
  - unfold bind, Write, Buffer_Writer. rewrite IH. f_equal.
    unfold commandLines, str. simpl. same_text.
Qed.

Lemma writeCase_buffer tc buf :
  gotOutput tc = None -> writeCase tc buf = (Ok tt, buf ++ caseText tc).
Proof.
  intros Hgot. unfold writeCase, writeCommands, bind.
  rewrite writeLines_buffer, writeCommandLines_buffer, Hgot, writeLines_buffer.
  unfold caseText. now rewrite <- !app_assoc.
Qed.

Lemma writeCases_buffer cs buf :
  Forall (fun tc => gotOutput tc = None) cs ->
  writeCases cs buf = (Ok tt, buf ++ concat (map caseText cs)).
Proof.
  intros Hall. revert buf. induction Hall as [|tc rest Htc _ IH]; intros buf; simpl.
  - unfold ret. now rewrite app_nil_r.
  - unfold bind. rewrite writeCase_buffer by assumption. rewrite IH.
    now rewrite <- app_assoc.
Qed.

(** ** The split of the output in [addCase] *)

(** A line that [addCase] takes for no output: it is empty or begins with
    the comment character. *)
Definition ignorable (l : gostring) : Prop :=
  l = [] \/ exists t, l = "#"%char :: t.

Lemma isOutputLine_false l : isOutputLine l = false <-> ignorable l.
Proof.
  unfold ignorable. destruct l as [|c t]; simpl.
  - split; auto.
  - rewrite negb_false_iff, Ascii.eqb_eq. split.
    + intros ->. right. eauto.
    + intros [H | [t' H]]; [discriminate | congruence].
Qed.

Lemma isOutputLine_true l : isOutputLine l = true <-> ~ ignorable l.
Proof.
  rewrite <- isOutputLine_false. destruct (isOutputLine l); split; congruence.
Qed.

Lemma firstIgnored_le out n : firstIgnored out n <= n.
Proof.
  induction n as [|i IH]; simpl; [lia|].
  destruct (out !! i) as [l|]; [destruct (isOutputLine l)|]; lia.
Qed.

(** The lines from the index found up to [n] are all ignorable. *)
Lemma firstIgnored_suffix out n :
  n <= length out ->
  Forall ignorable (drop (firstIgnored out n) (take n out)).
Proof.
  induction n as [|i IH]; intros Hn; simpl.
  - constructor.
  - destruct (out !! i) as [l|] eqn:Hl.
    + destruct (isOutputLine l) eqn:Ho.
      * rewrite drop_ge; [constructor|]. rewrite length_take. lia.
      * pose proof (firstIgnored_le out i) as Hle.
        rewrite (take_S_r _ _ _ Hl), drop_app_le by (rewrite length_take; lia).
        apply Forall_app. split; [apply IH; lia|].
        constructor; [|constructor]. now apply isOutputLine_false.
    + apply lookup_ge_None in Hl. lia.
Qed.

(** The line before the index found, if there is one, is an output line. *)
Lemma firstIgnored_last out n :
  firstIgnored out n = 0 \/
  exists l, 0 < firstIgnored out n /\
            out !! (firstIgnored out n - 1) = Some l /\ isOutputLine l = true.
Proof.
  induction n as [|i IH]; simpl; [now left|].
  destruct (out !! i) as [l|] eqn:Hl; [|exact IH].
  destruct (isOutputLine l) eqn:Ho; [|exact IH].
  right. exists l. simpl. rewrite Nat.sub_0_r. split; [lia|now split].
Qed.

(** The last line of the output before the index found, as the claim C5
    words the split: "everything from the last non-blank, non-comment line
    onward is the suffix, and everything before it is kept". *)
Fixpoint lastOutputLine (out : list gostring) : option nat :=
  match out with
  | [] => None
  | l :: rest =>
    match lastOutputLine rest with
    | Some i => Some (S i)
    | None => if isOutputLine l then Some 0 else None
    end
  end.

Definition splitFromLastOutputLine (out : list gostring)
    : list gostring * list gostring :=
  match lastOutputLine out with
  | Some i => (take i out, drop i out)
  | None => ([], out)
  end.

(** The output kept and the suffix returned by [addCase] for the output
    [out]. *)
Definition splitOfAddCase (out : list gostring) : list (list gostring) * list gostring :=
  let '(tf, suffix') :=
    addCase {| filename := []; cases := []; suffix := [] |}
            {| before := []; startLine := 1; commands := [str "echo hi"];
               gotOutput := None; wantOutput := out |} in
  (map wantOutput (cases tf), suffix').

(** C5, as stated, fails on the output ["hi"; ""]: [addCase] keeps the last
    output line ["hi"] and returns only the empty line after it, while the
    split at the last output line would keep nothing and return both
    lines.  And a line of white space is no blank line for [addCase]: on
    the output ["hi"; "  "] it keeps both lines. *)
Lemma C5_split_from_last_output_line_fails :
  splitOfAddCase [str "hi"; []] = ([[str "hi"]], [[]]) /\
  splitFromLastOutputLine [str "hi"; []] = ([], [str "hi"; []]) /\
  splitOfAddCase [str "hi"; []]
    <> ([fst (splitFromLastOutputLine [str "hi"; []])],
        snd (splitFromLastOutputLine [str "hi"; []])) /\
  splitOfAddCase [str "hi"; str "  "] = ([[str "hi"; str "  "]], []).
Proof. repeat split; vm_compute; congruence. Qed.

(** C5, amended: [addCase] splits the output of the case after its last
    line that is neither empty nor a comment.  The lines up to and
    including that line are kept as [wantOutput] of the case added to the
    file; the lines after it, all of them empty or comments, are returned
    as the suffix; an output of ignorable lines only leaves [wantOutput]
    empty. *)
Theorem C5_addCase_splits_after_last_output_line (tf : testFile) (tc : testCase) :
  exists keep,
    fst (addCase tf tc)
      = {| filename := filename tf;
           cases := cases tf ++ [{| before := before tc; startLine := startLine tc;
                                   commands := commands tc; gotOutput := gotOutput tc;
                                   wantOutput := keep |}];
           suffix := suffix tf |} /\
    wantOutput tc = keep ++ snd (addCase tf tc) /\
    Forall ignorable (snd (addCase tf tc)) /\
    (keep = [] \/ exists l, last keep = Some l /\ ~ ignorable l) /\
    (Forall ignorable (wantOutput tc) -> keep = []).
Proof.
  remember (wantOutput tc) as out eqn:Hout.
  remember (firstIgnored out (length out)) as i eqn:Hi.
  assert (Hle : i <= length out) by (subst i; apply firstIgnored_le).
  assert (Hlast : take i out = [] \/ exists l, last (take i out) = Some l /\ ~ ignorable l).
  { pose proof (firstIgnored_last out (length out)) as Hfl. rewrite <- Hi in Hfl.
    destruct Hfl as [H0 | [l [Hpos [Hl Ho]]]].
    - left. now rewrite H0.
    - right. exists l. split; [|now apply isOutputLine_true].
      rewrite last_lookup, length_take, Nat.min_l by assumption.
      assert (Hi1 : i - 1 < i) by (clear - Hpos; lia).
      replace (Nat.pred i) with (i - 1) by (clear; lia).
      now rewrite lookup_take_lt.  }
  exists (take i out). unfold addCase. rewrite <- Hout, <- Hi. simpl.
  split; [reflexivity|]. split; [now rewrite take_drop|]. split.
  - pose proof (firstIgnored_suffix out (length out) (Nat.le_refl _)) as Hs.
    rewrite <- Hi in Hs. now rewrite take_ge in Hs.
  - split; [exact Hlast|]. intros Hall.
    destruct Hlast as [H0 | [l [Hl Hn]]]; [exact H0|]. exfalso. apply Hn.
    rewrite Forall_forall in Hall. apply Hall.
    rewrite last_lookup in Hl.
    apply list_elem_of_lookup_2 in Hl.
    eapply subseteq_take; eauto.
Qed.

(** ** The invariant of the reader *)

(** What holds of the local variables of [readFile] between two lines: the
    cases added so far and the open case have commands and were not
    executed; no case is open before the first command, one is open after
    it; the open case has no output while its commands are read. *)
Record readerOk (r : reader) : Prop := {
  ok_commands : Forall (fun tc => commands tc <> []) (cases (r_tf r));
  ok_got : Forall (fun tc => gotOutput tc = None) (cases (r_tf r));
  ok_suffix : suffix (r_tf r) = [];
  ok_before :
    r_state r = beforeFirstCommand -> r_tc r = None /\ cases (r_tf r) = [];
  ok_open :
    r_state r <> beforeFirstCommand ->
    exists tc, r_tc r = Some tc /\ commands tc <> [] /\ gotOutput tc = None /\
               (r_state r = inCommands -> wantOutput tc = [])
}.

Lemma initReader_ok filename : readerOk (initReader filename).
Proof. split; simpl; auto; congruence. Qed.

Lemma addCase_cases tf tc :
  cases (fst (addCase tf tc))
    = cases tf ++ [{| before := before tc; startLine := startLine tc;
                      commands := commands tc; gotOutput := gotOutput tc;
                      wantOutput := take (firstIgnored (wantOutput tc)
                                            (length (wantOutput tc)))
                                         (wantOutput tc) |}].
Proof. reflexivity. Qed.

Lemma snoc_nonempty {A} (l : list A) x : l ++ [x] <> [].
Proof. destruct l; discriminate. Qed.

Lemma readLine_ok r line r' :
  readerOk r -> readLine r line = Ok r' -> readerOk r'.
Proof.
  intros [Hc Hg Hs Hb Ho]. unfold readLine.
  destruct (r_state r) eqn:Hst.
  - destruct (Hb eq_refl) as [Htc Hnil].
    destruct (strings.HasPrefix line (str "$")).
    + intros [= <-]. split; simpl; auto; try congruence.
      intros _. eexists. split; [reflexivity|]. simpl.
      repeat split; auto.
    + destruct (strings.TrimSpace line) as [|c t] eqn:Ht;
        [|destruct (Ascii.eqb c "#")]; intros [= <-];
        split; simpl; auto; congruence.
  - destruct Ho as [tc [Htc [Hcmd [Hgot Hout]]]]; [congruence|].
    rewrite Htc. destruct (strings.HasPrefix line (str "$")); intros [= <-].
    + split; simpl; auto; try congruence.
      intros _. eexists. split; [reflexivity|]. simpl.
      repeat split; auto. apply snoc_nonempty.
    + split; simpl; auto; try congruence.
      intros _. eexists. split; [reflexivity|]. simpl.
      repeat split; auto. congruence.
  - destruct Ho as [tc [Htc [Hcmd [Hgot Hout]]]]; [congruence|].
    rewrite Htc. destruct (strings.HasPrefix line (str "$")).
    + destruct (addCase (r_tf r) tc) as [tf prefix] eqn:Hadd.
      intros [= <-].
      assert (Htf : tf = fst (addCase (r_tf r) tc)) by now rewrite Hadd.
      split; simpl; try congruence.
      * rewrite Htf, addCase_cases. apply Forall_app. split; auto.
      * rewrite Htf, addCase_cases. apply Forall_app. split; auto.
      * rewrite Htf. simpl. exact Hs.
      * intros _. eexists. split; [reflexivity|]. simpl. repeat split; auto.
    + intros [= <-]. split; simpl; auto; try congruence.
      intros _. eexists. split; [reflexivity|]. simpl.
      repeat split; auto. congruence.
Qed.

Lemma readLines_ok lines : forall r r',
  readerOk r -> readLines r lines = Ok r' -> readerOk r'.
Proof.
  induction lines as [|l rest IH]; intros r r' Hok; simpl.
  - now intros [= <-].
  - destruct (readLine r l) as [r1| |] eqn:Hl; try discriminate.
    intros Hrest. eapply IH; [|exact Hrest]. eapply readLine_ok; eauto.
Qed.

(** C9: in a test file that [readFile] has read, every case has a command.
    A case is made when a line with the marker is read, and that line is
    added to it at once. *)
Theorem C9_commands_never_empty (filename text : gostring) (tf : testFile) :
  readFile filename text = Ok tf ->
  Forall (fun tc => commands tc <> []) (cases tf).
Proof.
  unfold readFile. destruct (bufio.Scan text) as [lines scanErr].
  destruct (readLines (initReader filename) lines) as [r| |] eqn:Hr;
    try discriminate.
  pose proof (readLines_ok _ _ _ (initReader_ok filename) Hr) as [Hc Hg Hs Hb Ho].
  unfold finishRead. destruct scanErr; [discriminate|].
  destruct (r_tc r) as [tc|] eqn:Htc.
  - destruct (addCase (r_tf r) tc) as [tf' suffix'] eqn:Hadd.
    intros [= <-]. simpl.
    assert (Htf : tf' = fst (addCase (r_tf r) tc)) by now rewrite Hadd.
    rewrite Htf, addCase_cases. apply Forall_app. split; [exact Hc|].
    constructor; [|constructor]. simpl.
    destruct (r_state r) eqn:Hst.
    + destruct (Hb eq_refl); congruence.
    + destruct Ho as [tc' [Htc' [Hcmd _]]]; congruence.
    + destruct Ho as [tc' [Htc' [Hcmd _]]]; congruence.
  - now intros [= <-].
Qed.

(** The lines of the file [testdata/read/read.ct], as the test [TestRead]
    expects them. *)
Definition read_ct : list gostring :=
  map str
    ["# A sample test file."; ""; "#   Prefix stuff."; "";
     "$ command arg1 arg2"; "$ cmd2"; "out1"; "out2"; "";
     "# start of the next case"; "$ c3"; ""; "# start of the third"; "";
     "$ c4 --> FAIL"; "out3"; ""; "$ c5 --> FAIL 2"; "out4"; ""; "";
     "# end"]%string.

(** C9 on the file of the test [TestRead], with its four cases. *)
Lemma C9_commands_never_empty_witness :
  exists tf,
    readFile (str "read.ct") (unlines read_ct) = Ok tf /\
    length (cases tf) = 4 /\
    Forall (fun tc => commands tc <> []) (cases tf).
Proof.
  eexists. split; [vm_compute; reflexivity|]. split; [reflexivity|].
  apply (C9_commands_never_empty (str "read.ct") (unlines read_ct)).
  vm_compute. reflexivity.
Defined.

(** ** Reading a file and writing it back *)

(** What [tf.write] would write for the reader as it stands: the cases
    added, then the open case or, before the first command, the prefix. *)
Definition pendingText (r : reader) : gostring :=
  concat (map caseText (cases (r_tf r)))
  ++ match r_tc r with
     | Some tc => caseText tc
     | None => unlines (r_prefix r)
     end.

(** The line that is written back for the line [l]: a command line comes
    back as the marker, a space and the command trimmed; a line before the
    first command comes back trimmed; every other line comes back as it
    is. *)
Definition writtenLine (seenCommand : bool) (l : gostring) : gostring :=
  if strings.HasPrefix l (str "$") then str "$ " ++ strings.TrimSpace (drop 1 l)
  else if seenCommand then l else strings.TrimSpace l.

Fixpoint writtenLines (seenCommand : bool) (lines : list gostring) : list gostring :=
  match lines with
  | [] => []
  | l :: rest =>
    writtenLine seenCommand l
    :: writtenLines (seenCommand || strings.HasPrefix l (str "$")) rest
  end.

Definition seenCommand (r : reader) : bool :=
  match r_state r with beforeFirstCommand => false | _ => true end.

Lemma caseText_addCase tf tc prefix' tf' :
  addCase tf tc = (tf', prefix') ->
  concat (map caseText (cases tf')) ++ unlines prefix'
    = concat (map caseText (cases tf)) ++ caseText tc.
Proof.
  unfold addCase. intros [= <- <-]. simpl.
  rewrite map_app, concat_app. simpl. rewrite app_nil_r.
  unfold caseText. simpl.
  set (i := firstIgnored (wantOutput tc) (length (wantOutput tc))).
  assert (E : unlines (wantOutput tc)
              = unlines (take i (wantOutput tc)) ++ unlines (drop i (wantOutput tc)))
    by now rewrite <- unlines_app, take_drop.
  rewrite E. same_text.
Qed.

Lemma readLine_text r line r' :
  readerOk r -> readLine r line = Ok r' ->
  pendingText r' = pendingText r ++ writtenLine (seenCommand r) line ++ newline /\
  seenCommand r' = seenCommand r || strings.HasPrefix line (str "$").
Proof.
  intros [Hc Hg Hs Hb Ho]. unfold readLine, pendingText, writtenLine, seenCommand.
  destruct (r_state r) eqn:Hst.
  - destruct (Hb eq_refl) as [Htc Hnil]. rewrite Htc.
    destruct (strings.HasPrefix line (str "$")).
    + intros [= <-]. simpl. split; [|reflexivity].
      unfold caseText, commandLines. simpl. same_text.
    + destruct (strings.TrimSpace line) as [|c t] eqn:Ht;
        [|destruct (Ascii.eqb c "#")]; intros [= <-]; simpl;
        (split; [|reflexivity]); rewrite ?Htc, unlines_app;
        unfold unlines; simpl; same_text.
  - destruct Ho as [tc [Htc [Hcmd [Hgot Hout]]]]; [congruence|].
    rewrite Htc. specialize (Hout eq_refl).
    destruct (strings.HasPrefix line (str "$")); intros [= <-]; simpl;
      (split; [|reflexivity]); unfold caseText; simpl; rewrite Hout.
    + rewrite commandLines_app. unfold commandLines, unlines. simpl. same_text.
    + unfold unlines. simpl. same_text.
  - destruct Ho as [tc [Htc [Hcmd [Hgot Hout]]]]; [congruence|].
    rewrite Htc. destruct (strings.HasPrefix line (str "$")).
    + destruct (addCase (r_tf r) tc) as [tf prefix] eqn:Hadd.
      intros [= <-]. simpl. split; [|reflexivity].
      rewrite <- (caseText_addCase _ _ _ _ Hadd).
      unfold caseText at 2. unfold commandLines. simpl. same_text.
    + intros [= <-]. simpl. split; [|reflexivity].
      unfold caseText. simpl. rewrite unlines_app. unfold unlines. simpl. same_text.
Qed.

Lemma readLines_text lines : forall r r',
  readerOk r -> readLines r lines = Ok r' ->
  pendingText r' = pendingText r ++ unlines (writtenLines (seenCommand r) lines) /\
  seenCommand r'
    = seenCommand r || existsb (fun l => strings.HasPrefix l (str "$")) lines.
Proof.
  induction lines as [|l rest IH]; intros r r' Hok; simpl.
  - intros [= <-]. now rewrite app_nil_r, orb_false_r.
  - destruct (readLine r l) as [r1| |] eqn:Hl; try discriminate.
    intros Hrest.
    destruct (readLine_text _ _ _ Hok Hl) as [Ht Hseen].
    destruct (IH _ _ (readLine_ok _ _ _ Hok Hl) Hrest) as [Ht' Hseen'].
    rewrite Ht', Ht, Hseen', Hseen. split; [|now rewrite orb_assoc].
    unfold unlines. simpl. same_text.
Qed.

(** What [tf.write] writes, on a buffer, for a file that [readFile] has
    read: nothing if the file has no command line (the lines before the
    first command are kept in no case); otherwise the lines read, each as
    [writtenLine] gives it. *)
Lemma write_readFile filename text tf :
  readFile filename text = Ok tf ->
  exists lines,
    bufio.Scan text = (lines, None) /\
    write tf []
      = (Ok tt,
         if existsb (fun l => strings.HasPrefix l (str "$")) lines
         then unlines (writtenLines false lines) else []).
Proof.
  unfold readFile. destruct (bufio.Scan text) as [lines scanErr].
  destruct (readLines (initReader filename) lines) as [r| |] eqn:Hr;
    try discriminate.
  pose proof (readLines_ok _ _ _ (initReader_ok filename) Hr) as Hok.
  destruct (readLines_text _ _ _ (initReader_ok filename) Hr) as [Ht Hseen].
  destruct Hok as [Hc Hg Hs Hb Ho].
  unfold finishRead. destruct scanErr; [discriminate|].
  intros Hfin. exists lines. split; [reflexivity|].
  change (seenCommand (initReader filename)) with false in *.
  rewrite orb_false_l in Hseen. rewrite <- Hseen.
  unfold pendingText in Ht. simpl in Ht.
  unfold seenCommand in *. unfold write, bind.
  destruct (r_state r) eqn:Hst.
  - destruct (Hb eq_refl) as [Htc Hnil]. rewrite Htc in Hfin.
    injection Hfin as <-. rewrite Hnil, Hs. reflexivity.
  - destruct Ho as [tc [Htc [Hcmd [Hgot Hout]]]]; [congruence|].
    rewrite Htc in Hfin, Ht.
    destruct (addCase (r_tf r) tc) as [tf' suffix'] eqn:Hadd.
    injection Hfin as <-. simpl.
    rewrite writeCases_buffer, writeLines_buffer; cycle 1.
    { replace tf' with (fst (addCase (r_tf r) tc)) by now rewrite Hadd.
      rewrite addCase_cases. apply Forall_app. split; auto. }
    simpl. now rewrite (caseText_addCase _ _ _ _ Hadd), Ht.
  - destruct Ho as [tc [Htc [Hcmd [Hgot Hout]]]]; [congruence|].
    rewrite Htc in Hfin, Ht.
    destruct (addCase (r_tf r) tc) as [tf' suffix'] eqn:Hadd.
    injection Hfin as <-. simpl.
    rewrite writeCases_buffer, writeLines_buffer; cycle 1.
    { replace tf' with (fst (addCase (r_tf r) tc)) by now rewrite Hadd.
      rewrite addCase_cases. apply Forall_app. split; auto. }
    simpl. now rewrite (caseText_addCase _ _ _ _ Hadd), Ht.
Qed.

(** *** Texts that the scanner gives back line by line *)

(** A line that [bufio.Scanner] yields as it is: no newline in it, no
    carriage return at its end, and short enough for the buffer. *)
Definition cleanLine (l : gostring) : bool :=
  negb (existsb (Ascii.eqb "010") l)
  && negb (bool_decide (last l = Some "013"%char))
  && negb (bufio.tooLong l).

Lemma scanFrom_line l : forall cur rest,
  existsb (Ascii.eqb "010") l = false ->
  bufio.scanFrom cur (l ++ newline ++ rest)
    = if bufio.tooLong (cur ++ l) then ([], Some ErrTooLong)
      else let '(lines, err) := bufio.scanFrom [] rest in
           (bufio.dropCR (cur ++ l) :: lines, err).
Proof.
  induction l as [|c l IH]; intros cur rest Hnl.
  - rewrite app_nil_r. reflexivity.
  - cbn [existsb] in Hnl. apply orb_false_iff in Hnl as [Hc Hl].
    rewrite Ascii.eqb_sym in Hc. cbn [app bufio.scanFrom]. rewrite Hc.
    rewrite IH by assumption. now rewrite <- app_assoc.
Qed.

Lemma Scan_unlines lines :
  forallb cleanLine lines = true -> bufio.Scan (unlines lines) = (lines, None).
Proof.
  unfold bufio.Scan. induction lines as [|l rest IH]; simpl; [reflexivity|].
  intros Hall. apply andb_true_iff in Hall as [Hl Hrest].
  unfold cleanLine in Hl. apply andb_true_iff in Hl as [Hl Hlong].
  apply andb_true_iff in Hl as [Hnl Hcr].
  apply negb_true_iff in Hnl, Hcr, Hlong.
  unfold unlines in *. simpl. rewrite <- app_assoc.
  rewrite scanFrom_line by assumption. simpl. rewrite Hlong, (IH Hrest).
  f_equal. f_equal. unfold bufio.dropCR.
  destruct (last l) as [c|] eqn:Hlast; [|reflexivity].
  destruct (Ascii.eqb c "013") eqn:Hc; [|reflexivity].
  apply Ascii.eqb_eq in Hc. subst c.
  apply bool_decide_eq_false in Hcr. congruence.
Qed.

(** *** White space in front of a trimmed string *)

Lemma runes_space s :
  utf8.runes (" "%char :: s) = (32%N, [" "%char]) :: utf8.runes s.
Proof. unfold utf8.runes. simpl. now rewrite drop_0. Qed.

Lemma indexFuncFrom_shift f truth rs : forall start k,
  strings.indexFuncFrom f truth rs (start + k)
    = (if (strings.indexFuncFrom f truth rs start =? -1)%Z then -1
       else strings.indexFuncFrom f truth rs start + Z.of_nat k)%Z.
Proof.
  induction rs as [|[r bs] rest IH]; intros start k; simpl; [reflexivity|].
  destruct (Bool.eqb (f r) truth).
  - destruct (Z.eqb_spec (Z.of_nat start) (-1)); lia.
  - replace (start + k + length bs) with (start + length bs + k) by lia.
    apply IH.
Qed.

Lemma indexFuncFrom_range f truth rs : forall start,
  (strings.indexFuncFrom f truth rs start = -1
   \/ 0 <= strings.indexFuncFrom f truth rs start)%Z.
Proof.
  induction rs as [|[r bs] rest IH]; intros start; simpl; [now left|].
  destruct (Bool.eqb (f r) truth); [right; lia | apply IH].
Qed.

Lemma TrimSpace_space s : strings.TrimSpace (" "%char :: s) = strings.TrimSpace s.
Proof.
  unfold strings.TrimSpace. f_equal.
  unfold strings.TrimLeftFunc, strings.indexFunc. rewrite runes_space.
  cbn [strings.indexFuncFrom]. change (unicode.IsSpace 32) with true.
  cbn [Bool.eqb]. change (0 + length [" "%char]) with (0 + 1).
  rewrite indexFuncFrom_shift.
  destruct (indexFuncFrom_range unicode.IsSpace false (utf8.runes s) 0) as [E|E].
  - rewrite E. reflexivity.
  - set (i := strings.indexFuncFrom unicode.IsSpace false (utf8.runes s) 0) in *.
    destruct (Z.eqb_spec i (-1)) as [E1|E1]; [lia|].
    destruct (Z.eqb_spec (i + Z.of_nat 1) (-1)) as [E2|E2]; [lia|].
    replace (Z.to_nat (i + Z.of_nat 1)) with (S (Z.to_nat i)) by lia.
    reflexivity.
Qed.

(** *** Texts in the form that [write] gives them *)

(** A command line in written form: the marker, one space, and a command
    with no white space around it. *)
Definition commandInWrittenForm (l : gostring) : bool :=
  match l with
  | c0 :: c1 :: cmd =>
    Ascii.eqb c0 "$" && Ascii.eqb c1 " " && bool_decide (strings.TrimSpace cmd = cmd)
  | _ => false
  end.

(** The lines of a text in written form: every command line is in written
    form, and the lines before the first command have no white space around
    them. *)
Fixpoint linesInWrittenForm (seenCommand : bool) (lines : list gostring) : bool :=
  match lines with
  | [] => true
  | l :: rest =>
    (if strings.HasPrefix l (str "$") then commandInWrittenForm l
     else seenCommand || bool_decide (strings.TrimSpace l = l))
    && linesInWrittenForm (seenCommand || strings.HasPrefix l (str "$")) rest
  end.

(** A text in written form has a command line, unless it has no line. *)
Definition writtenForm (lines : list gostring) : bool :=
  linesInWrittenForm false lines
  && (bool_decide (lines = [])
      || existsb (fun l => strings.HasPrefix l (str "$")) lines).

Lemma writtenLines_fixed lines : forall seen,
  linesInWrittenForm seen lines = true -> writtenLines seen lines = lines.
Proof.
  induction lines as [|l rest IH]; intros seen;
    cbn [linesInWrittenForm writtenLines]; [reflexivity|].
  intros H. apply andb_true_iff in H as [Hl Hrest].
  rewrite (IH _ Hrest). f_equal. unfold writtenLine. revert Hl.
  destruct (strings.HasPrefix l (str "$")).
  - destruct l as [|c0 [|c1 cmd]]; try discriminate. cbn [commandInWrittenForm].
    intros Hl. apply andb_true_iff in Hl as [Hl Hcmd].
    apply andb_true_iff in Hl as [H0 H1].
    apply Ascii.eqb_eq in H0, H1. subst. apply bool_decide_eq_true in Hcmd.
    cbn [drop]. now rewrite TrimSpace_space, Hcmd.
  - destruct seen; [reflexivity|]. cbn [orb]. intros Hl.
    now apply bool_decide_eq_true in Hl.
Qed.

(** C1, as stated, fails.  The command line ["$cmd"] is written back as
    ["$ cmd"]; a comment before the first command is written back without
    the white space in front of it, so the [before] lines of the first case
    are not those read; and a file of comments only is written back
    empty. *)
Lemma C1_roundtrip_fails :
  (exists tf, readFile (str "t.ct") (unlines [str "$cmd"]) = Ok tf /\
              write tf [] = (Ok tt, unlines [str "$ cmd"]) /\
              unlines [str "$ cmd"] <> unlines [str "$cmd"]) /\
  (exists tf, readFile (str "t.ct") (unlines [str "  # c"; str "$ x"]) = Ok tf /\
              map before (cases tf) = [[str "# c"]] /\
              write tf [] = (Ok tt, unlines [str "# c"; str "$ x"])) /\
  (exists tf, readFile (str "t.ct") (unlines [str "# only"]) = Ok tf /\
              write tf [] = (Ok tt, [])).
Proof.
  split; [|split]; eexists; (split; [vm_compute; reflexivity|]);
    repeat split; vm_compute; congruence.
Qed.

(** C1, amended: reading a text and writing it back, no case having been
    executed, gives the text byte for byte when the text is in the form in
    which [write] leaves a file: its lines end with a newline, none with a
    carriage return before it, and are shorter than the scanner's buffer;
    every command line is the marker, one space and the command without
    white space around it; the lines before the first command have no white
    space around them; and the text has a command line unless it is empty.
    The output lines, the blank lines and the comments after the first
    command are then written back as they were read, the trailing ones
    included. *)
Theorem C1_roundtrip_of_written_form
    (filename : gostring) (lines : list gostring) (tf : testFile) :
  forallb cleanLine lines = true ->
  writtenForm lines = true ->
  readFile filename (unlines lines) = Ok tf ->
  write tf [] = (Ok tt, unlines lines).
Proof.
  intros Hclean Hform Hread.
  destruct (write_readFile _ _ _ Hread) as [lines' [Hscan Hwrite]].
  rewrite (Scan_unlines _ Hclean) in Hscan. injection Hscan as <-.
  rewrite Hwrite. f_equal.
  unfold writtenForm in Hform. apply andb_true_iff in Hform as [Hlines Hcmd].
  destruct (existsb _ lines) eqn:Hex.
  - now rewrite writtenLines_fixed.
  - rewrite orb_false_r in Hcmd. apply bool_decide_eq_true in Hcmd. now subst.
Qed.

(** C1 on the file of the test [TestRead]. *)
Lemma C1_roundtrip_of_written_form_witness :
  exists tf,
    readFile (str "read.ct") (unlines read_ct) = Ok tf /\
    write tf [] = (Ok tt, unlines read_ct).
Proof.
  eexists. split; [vm_compute; reflexivity|].
  apply (C1_roundtrip_of_written_form (str "read.ct") read_ct);
    vm_compute; reflexivity.
Defined.

(** ** Occurrences of a substring *)

Lemma HasPrefix_spec s p :
  strings.HasPrefix s p = true <-> exists post, s = p ++ post.
Proof.
  revert s. induction p as [|c p IH]; intros s.
  - split; [eauto | intros _; destruct s; reflexivity].
  - destruct s as [|d s]; simpl.
    + split; [discriminate | intros [post H]; discriminate].
    + rewrite andb_true_iff, Ascii.eqb_eq, IH. split.
      * intros [-> [post ->]]. eauto.
      * intros [post H]. injection H as -> ->. eauto.
Qed.

(** [sub] occurs in [s] at the index [i]. *)
Definition occursAt (sub s : gostring) (i : nat) : Prop :=
  exists pre post, s = pre ++ sub ++ post /\ length pre = i.

Lemma occursAt_HasPrefix sub s i :
  occursAt sub s i <-> i <= length s /\ strings.HasPrefix (drop i s) sub = true.
Proof.
  unfold occursAt. rewrite HasPrefix_spec. split.
  - intros [pre [post [-> <-]]]. split.
    + rewrite length_app. lia.
    + exists post. now rewrite drop_app_length.
  - intros [Hi [post Hpost]]. exists (take i s), post. split.
    + now rewrite <- Hpost, take_drop.
    + rewrite length_take. lia.
Qed.

Lemma occursAt_bound sub s i : occursAt sub s i -> i + length sub <= length s.
Proof.
  intros [pre [post [-> <-]]]. rewrite !length_app. lia.
Qed.

(** [lastIndexFrom s sub i] is [-1] when [sub] occurs at no index up to
    [i], and otherwise the largest index up to [i] at which it occurs. *)
Lemma lastIndexFrom_spec sub s : forall i,
  i <= length s ->
  (strings.lastIndexFrom s sub i = (-1)%Z /\ forall j, j <= i -> ~ occursAt sub s j)
  \/ (exists k, strings.lastIndexFrom s sub i = Z.of_nat k /\ k <= i /\
                occursAt sub s k /\ forall j, j <= i -> occursAt sub s j -> j <= k).
Proof.
  induction i as [|i IH]; intros Hi; cbn [strings.lastIndexFrom].
  - destruct (strings.HasPrefix (drop 0 s) sub) eqn:Hp.
    + right. exists 0. split; [reflexivity|]. split; [lia|]. split.
      * apply occursAt_HasPrefix. split; [lia | exact Hp].
      * intros j Hj _. exact Hj.
    + left. split; [reflexivity|]. intros j Hj Hocc.
      assert (j = 0) by lia. subst j.
      apply occursAt_HasPrefix in Hocc as [_ Hocc]. congruence.
  - destruct (strings.HasPrefix (drop (S i) s) sub) eqn:Hp.
    + right. exists (S i). split; [reflexivity|]. split; [lia|]. split.
      * apply occursAt_HasPrefix. split; [exact Hi | exact Hp].
      * intros j Hj _. exact Hj.
    + destruct IH as [[Hm Hno] | [k [Hk [Hle [Hocc Hmax]]]]]; [lia | |].
      * left. split; [exact Hm|]. intros j Hj Hocc.
        destruct (Nat.eq_dec j (S i)) as [->|Hne].
        -- apply occursAt_HasPrefix in Hocc as [_ Hocc]. congruence.
        -- apply (Hno j); [lia | exact Hocc].
      * right. exists k. split; [exact Hk|]. split; [lia|]. split; [exact Hocc|].
        intros j Hj Hoccj. destruct (Nat.eq_dec j (S i)) as [->|Hne].
        -- apply occursAt_HasPrefix in Hoccj as [_ Hoccj]. congruence.
        -- apply Hmax; [lia | exact Hoccj].
Qed.

(** [strings.LastIndex s sub] is [-1] when [sub] does not occur in [s], and
    otherwise the index of its last occurrence. *)
Lemma LastIndex_spec sub s :
  (strings.LastIndex s sub = (-1)%Z /\ forall j, ~ occursAt sub s j)
  \/ (exists k, strings.LastIndex s sub = Z.of_nat k /\
                occursAt sub s k /\ forall j, occursAt sub s j -> j <= k).
Proof.
  unfold strings.LastIndex. destruct (Nat.ltb_spec (length s) (length sub)) as [Hlt|Hge].
  - left. split; [reflexivity|]. intros j Hocc. apply occursAt_bound in Hocc. lia.
  - destruct (lastIndexFrom_spec sub s (length s - length sub)) as
      [[Hm Hno] | [k [Hk [Hle [Hocc Hmax]]]]]; [lia | |].
    + left. split; [exact Hm|]. intros j Hocc.
      apply (Hno j); [|exact Hocc]. apply occursAt_bound in Hocc. lia.
    + right. exists k. split; [exact Hk|]. split; [exact Hocc|]. intros j Hoccj.
      apply Hmax; [|exact Hoccj]. apply occursAt_bound in Hoccj. lia.
Qed.

(** ** The command line *)

(** C3: [parseCommand] looks for the last occurrence of [" --> FAIL"].
    Without an occurrence the whole line is the command, which need not
    fail, and no exit code is wanted.  With the last occurrence between
    [pre] and [post], the command is [pre] and it must fail; when [post]
    trimmed is empty no exit code is wanted; otherwise [post] trimmed must be
    read by [strconv.Atoi] as an integer other than zero, which is the exit
    code wanted; zero is an error, and so is what [Atoi] does not read as an
    [int]. *)
Theorem C3_parseCommand (cmdline : gostring) :
  ((forall pre post, cmdline <> pre ++ failMarker ++ post) /\
   parseCommand cmdline = Ok (cmdline, false, 0%Z))
  \/
  (exists pre post,
     cmdline = pre ++ failMarker ++ post /\
     (forall pre' post', cmdline = pre' ++ failMarker ++ post' ->
                         length pre' <= length pre) /\
     parseCommand cmdline =
       match strings.TrimSpace post with
       | [] => Ok (pre, true, 0%Z)
       | rest =>
         match strconv.Atoi rest with
         | inl wantExitCode =>
           if (wantExitCode =? 0)%Z then Err ErrZeroExitCode
           else Ok (pre, true, wantExitCode)
         | inr err => Err err
         end
       end).
Proof.
  unfold parseCommand.
  destruct (LastIndex_spec failMarker cmdline) as [[Hm Hno] | [k [Hk [Hocc Hmax]]]].
  - left. rewrite Hm. split; [|reflexivity].
    intros pre post Heq. apply (Hno (length pre)). now exists pre, post.
  - right. rewrite Hk. destruct Hocc as [pre [post [Heq Hlen]]].
    exists pre, post. split; [exact Heq|]. split.
    + intros pre' post' Heq'. rewrite Hlen. apply Hmax. now exists pre', post'.
    + destruct (Z.ltb_spec (Z.of_nat k) 0) as [Hneg|_]; [lia|].
      rewrite Nat2Z.id. subst k.
      replace (take (length pre) cmdline) with pre
        by (rewrite Heq; now rewrite take_app_length).
      replace (drop (length pre + length failMarker) cmdline) with post
        by (rewrite Heq, app_assoc, <- length_app; now rewrite drop_app_length).
      destruct (strings.TrimSpace post) as [|c rest]; reflexivity.
Qed.

(** The cases of the test [TestParseCommand]. *)
Example parseCommand_tests :
  parseCommand (str "ls") = Ok (str "ls", false, 0%Z) /\
  parseCommand (str "a b c --> FAIL   ") = Ok (str "a b c", true, 0%Z) /\
  parseCommand (str "a b c --> fail") = Ok (str "a b c --> fail", false, 0%Z) /\
  parseCommand (str "a b c --> FAIL 23") = Ok (str "a b c", true, 23%Z) /\
  parseCommand (str "a b c --> FAIL 23a")
    = Err (NumError (str "Atoi") (str "23a") strconv.ErrSyntax) /\
  parseCommand (str "a b c --> FAIL 0") = Err ErrZeroExitCode.
Proof. repeat split; vm_compute; reflexivity. Qed.

(** ** Variable references *)

(** A name of [varRegexp]: one or more bytes, none of them a dollar or a
    brace. *)
Definition validName (name : gostring) : bool :=
  negb (bool_decide (name = [])) && forallb isNameByte name.

(** The reference [${name}]. *)
Definition ref (name : gostring) : gostring := str "${" ++ name ++ str "}".

(** [s] has a match of [varRegexp] at the index [i], for the name given. *)
Definition refAt (s : gostring) (i : nat) (name : gostring) : Prop :=
  exists pre post, s = pre ++ ref name ++ post /\ length pre = i /\ validName name = true.

(** [s] has a match of [varRegexp]. *)
Definition containsRef (s : gostring) : Prop := exists i name, refAt s i name.

Lemma validName_inv name :
  validName name = true -> name <> [] /\ forallb isNameByte name = true.
Proof.
  unfold validName. rewrite andb_true_iff, negb_true_iff, bool_decide_eq_false. tauto.
Qed.

Lemma nameRun_name name post :
  forallb isNameByte name = true ->
  nameRun (name ++ "}"%char :: post) = length name.
Proof.
  induction name as [|c name IH]; cbn [forallb app nameRun length].
  - reflexivity.
  - intros H. apply andb_true_iff in H as [Hc Hn]. now rewrite Hc, IH.
Qed.

Lemma nameRun_take s : forallb isNameByte (take (nameRun s) s) = true.
Proof.
  induction s as [|c s IH]; cbn [nameRun]; [reflexivity|].
  destruct (isNameByte c) eqn:Hc; [|reflexivity].
  cbn [take forallb]. now rewrite Hc, IH.
Qed.

Lemma matchHere_ref name post :
  validName name = true -> matchHere (ref name ++ post) = Some (length name).
Proof.
  intros Hv. apply validName_inv in Hv as [Hne Hall].
  unfold ref, str. cbn [list_ascii_of_string app matchHere].
  rewrite Ascii.eqb_refl. cbn [andb].
  rewrite <- app_assoc. cbn [app]. rewrite nameRun_name by assumption.
  rewrite drop_app_length. rewrite Ascii.eqb_refl, andb_true_r.
  destruct name; [congruence | reflexivity].
Qed.

Lemma matchHere_Some s n :
  matchHere s = Some n ->
  exists name post, s = ref name ++ post /\ validName name = true /\ length name = n.
Proof.
  unfold matchHere. destruct s as [|c0 [|c1 s']]; try discriminate.
  destruct (Ascii.eqb c0 "$" && Ascii.eqb c1 "{") eqn:Hh; [|discriminate].
  apply andb_true_iff in Hh as [H0 H1]. apply Ascii.eqb_eq in H0, H1. subst c0 c1.
  destruct (drop (nameRun s') s') as [|c rest] eqn:Hdrop; [discriminate|].
  destruct ((0 <? nameRun s') && Ascii.eqb c "}") eqn:Hc; [|discriminate].
  intros [= <-]. apply andb_true_iff in Hc as [Hpos Hc].
  apply Ascii.eqb_eq in Hc. subst c. apply Nat.ltb_lt in Hpos.
  assert (Hlen : length (take (nameRun s') s') = nameRun s').
  { rewrite length_take. apply Nat.min_l.
    destruct (Nat.le_gt_cases (nameRun s') (length s')) as [Hle|Hgt]; [exact Hle|].
    rewrite drop_ge in Hdrop by lia. discriminate. }
  exists (take (nameRun s') s'), rest. split; [|split].
  - unfold ref, str. cbn [list_ascii_of_string app]. rewrite <- app_assoc. cbn [app].
    now rewrite <- Hdrop, take_drop.
  - unfold validName. rewrite nameRun_take, andb_true_r.
    apply negb_true_iff, bool_decide_eq_false. intros E. rewrite E in Hlen.
    cbn [length] in Hlen. lia.
  - exact Hlen.
Qed.

(** The name matched at an index is unique: it ends at the first closing
    brace. *)
Lemma ref_inj name1 post1 name2 post2 :
  validName name1 = true -> validName name2 = true ->
  ref name1 ++ post1 = ref name2 ++ post2 -> name1 = name2 /\ post1 = post2.
Proof.
  intros H1 H2 Heq.
  pose proof (matchHere_ref name1 post1 H1) as M1.
  pose proof (matchHere_ref name2 post2 H2) as M2.
  rewrite Heq in M1. rewrite M1 in M2. injection M2 as Hlen.
  unfold ref, str in Heq. cbn [list_ascii_of_string app] in Heq.
  injection Heq as Heq. rewrite <- !app_assoc in Heq.
  apply app_inj_1 in Heq as [Hn Hp]; [|exact Hlen].
  split; [exact Hn|]. cbn [app] in Hp. now injection Hp.
Qed.

(** [findFrom pos s] finds no match when [s] has none, and otherwise the
    leftmost match of [s], with its indices counted from [pos]. *)
Lemma findFrom_spec s : forall pos,
  (findFrom pos s = None /\ ~ containsRef s)
  \/ (exists pre name post,
        s = pre ++ ref name ++ post /\ validName name = true /\
        (forall i name', refAt s i name' -> length pre <= i) /\
        findFrom pos s
          = Some (pos + length pre, pos + length pre + 2 + length name + 1,
                  pos + length pre + 2, pos + length pre + 2 + length name)).
Proof.
  induction s as [|c s IH]; intros pos; cbn [findFrom].
  - left. split; [reflexivity|]. intros [i [name [pre [post [Heq _]]]]].
    destruct pre; discriminate.
  - destruct (matchHere (c :: s)) as [n|] eqn:Hm.
    + right. apply matchHere_Some in Hm as [name [post [Heq [Hv Hlen]]]].
      exists [], name, post. cbn [app length]. split; [exact Heq|].
      split; [exact Hv|]. split; [intros; lia|].
      rewrite Hlen. f_equal. f_equal; [f_equal; [f_equal|]|]; lia.
    + destruct (IH (S pos)) as [[Hf Hno] | [pre [name [post [Heq [Hv [Hleft Hf]]]]]]].
      * left. split; [exact Hf|]. intros [i [name [pre [post [Heq [Hlen Hv]]]]]].
        destruct pre as [|d pre].
        -- cbn [app] in Heq. rewrite Heq, matchHere_ref in Hm by assumption.
           discriminate.
        -- cbn [app] in Heq. injection Heq as -> Heq. apply Hno.
           exists (length pre), name, pre, post. auto.
      * right. exists (c :: pre), name, post. cbn [app length].
        split; [now rewrite Heq|]. split; [exact Hv|]. split.
        -- intros i name' [pre' [post' [Heq' [Hlen' Hv']]]].
           destruct pre' as [|d pre'].
           ++ cbn [app] in Heq'. rewrite Heq', matchHere_ref in Hm by assumption.
              discriminate.
           ++ cbn [app] in Heq'. injection Heq' as -> Heq'.
              cbn [length] in Hlen'. subst i.
              assert (length pre <= length pre'); [|lia].
              apply (Hleft (length pre') name'). exists pre', post'. auto.
        -- rewrite Hf. f_equal. f_equal; [f_equal; [f_equal|]|]; lia.
Qed.

(** ** Expanding variables *)

(** One turn of the loop of [expandVariables]. *)
Lemma expandLoop_unfold lookup sb s :
  expandLoop lookup sb s =
    match FindStringSubmatchIndex s with
    | None => Ok (sb ++ s)
    | Some (i0, i1, i2, i3) =>
      match lookup (slice s i2 i3) with
      | None => Err (ErrVarNotFound (slice s i2 i3))
      | Some varVal => expandLoop lookup (sb ++ take i0 s ++ varVal) (drop i1 s)
      end
    end.
Proof.
  rewrite expandLoop_equation_1.
  destruct (inspect (FindStringSubmatchIndex s)) as [[[[[i0 i1] i2] i3]|] H].
  - rewrite expandLoop_clause_1_equation_1.
    destruct (lookup (slice s i2 i3)) as [v|] eqn:Hl.
    + rewrite expandLoop_clause_1_clause_2_equation_1. now rewrite H, Hl.
    + rewrite expandLoop_clause_1_clause_2_equation_2. now rewrite H, Hl.
  - rewrite expandLoop_clause_1_equation_2. now rewrite H.
Qed.

(** The result with something in front. *)
Definition prepend (sb : gostring) (r : result gostring) : result gostring :=
  match r with
  | Ok s => Ok (sb ++ s)
  | Err e => Err e
  | Panic m => Panic m
  end.

Lemma prepend_app a b r : prepend (a ++ b) r = prepend a (prepend b r).
Proof. destruct r; simpl; now rewrite <- ?app_assoc. Qed.

(** What the builder holds stays in front of the result. *)
Lemma expandLoop_builder lookup : forall n s sb,
  length s < n -> expandLoop lookup sb s = prepend sb (expandLoop lookup [] s).
Proof.
  induction n as [|n IH]; intros s sb Hn; [lia|].
  rewrite (expandLoop_unfold lookup sb s), (expandLoop_unfold lookup [] s).
  destruct (FindStringSubmatchIndex s) as [[[[i0 i1] i2] i3]|] eqn:Hf;
    [|reflexivity].
  destruct (lookup (slice s i2 i3)) as [v|]; [|reflexivity].
  pose proof (expand_shrinks _ _ _ _ _ Hf) as Hlt.
  rewrite (IH (drop i1 s) (sb ++ take i0 s ++ v)) by lia.
  rewrite (IH (drop i1 s) ([] ++ take i0 s ++ v)) by lia.
  now rewrite <- prepend_app.
Qed.

Lemma ref_cons name post :
  ref name ++ post = "$"%char :: "{"%char :: name ++ "}"%char :: post.
Proof. unfold ref, str. cbn [list_ascii_of_string app]. now rewrite <- app_assoc. Qed.

(** The first turn of the loop on a string with a reference. *)
Lemma expandLoop_ref lookup sb pre name post :
  validName name = true ->
  (forall i name', refAt (pre ++ ref name ++ post) i name' -> length pre <= i) ->
  expandLoop lookup sb (pre ++ ref name ++ post) =
    match lookup name with
    | None => Err (ErrVarNotFound name)
    | Some value => expandLoop lookup (sb ++ pre ++ value) post
    end.
Proof.
  intros Hv Hleft. rewrite expandLoop_unfold. unfold FindStringSubmatchIndex.
  destruct (findFrom_spec (pre ++ ref name ++ post) 0)
    as [[_ Hno] | [pre' [name' [post' [Heq [Hv' [Hleft' Hf]]]]]]].
  - exfalso. apply Hno. exists (length pre), name, pre, post. auto.
  - assert (Hlen : length pre' = length pre).
    { apply Nat.le_antisymm.
      - apply (Hleft' (length pre) name). exists pre, post. auto.
      - apply (Hleft (length pre') name'). exists pre', post'. auto. }
    apply app_inj_1 in Heq as [<- Heq]; [|now symmetry].
    apply ref_inj in Heq as [<- <-]; [| assumption | assumption].
    rewrite Hf. cbn [Nat.add]. rewrite ref_cons.
    assert (Hname : slice (pre ++ "$"%char :: "{"%char :: name ++ "}"%char :: post)
                      (length pre + 2) (length pre + 2 + length name) = name).
    { unfold slice.
      replace (length pre + 2 + length name - (length pre + 2)) with (length name) by lia.
      rewrite drop_app_add. cbn [skipn]. rewrite drop_0.
      now rewrite take_app_length. }
    rewrite Hname. destruct (lookup name) as [value|]; [|reflexivity].
    f_equal.
    + now rewrite take_app_length.
    + replace (length pre + 2 + length name + 1)
        with (length pre + S (S (length name + 1))) by lia.
      rewrite drop_app_add. cbn [skipn]. now rewrite drop_app_add.
Qed.

(** C4: [expandVariables] on a string without a reference gives the
    string.  On a string with a reference it takes the leftmost one,
    [${name}] between [pre] and [post], and looks the name up: when the name
    is not defined the call fails with an error that carries the name; when
    it is defined the result is [pre], the value, and the expansion of
    [post], so that the scan goes on after the value and the value itself is
    never scanned. *)
Theorem C4_expandVariables (s : gostring) (lookup : gostring -> option gostring) :
  (~ containsRef s /\ expandVariables s lookup = Ok s)
  \/
  (exists pre name post,
     s = pre ++ ref name ++ post /\
     validName name = true /\
     (forall i name', refAt s i name' -> length pre <= i) /\
     expandVariables s lookup =
       match lookup name with
       | None => Err (ErrVarNotFound name)
       | Some value =>
         match expandVariables post lookup with
         | Ok rest => Ok (pre ++ value ++ rest)
         | Err e => Err e
         | Panic m => Panic m
         end
       end).
Proof.
  unfold expandVariables.
  destruct (findFrom_spec s 0) as [[Hf Hno] | [pre [name [post [Heq [Hv [Hleft Hf]]]]]]].
  - left. split; [exact Hno|]. rewrite expandLoop_unfold.
    unfold FindStringSubmatchIndex. now rewrite Hf.
  - right. exists pre, name, post. split; [exact Heq|]. split; [exact Hv|].
    split; [exact Hleft|]. subst s. rewrite expandLoop_ref by assumption.
    destruct (lookup name) as [value|]; [|reflexivity].
    rewrite (expandLoop_builder lookup (S (length post))) by lia.
    cbn [app]. destruct (expandLoop lookup [] post); cbn [prepend];
      now rewrite <- ?app_assoc.
Qed.

(** The lookup function and the cases of the test [TestExpandVariables]. *)
Definition lookupTest (name : gostring) : option gostring :=
  if bool_decide (name = str "A") then Some (str "1")
  else if bool_decide (name = str "B_C") then Some (str "234")
  else None.

Example expandVariables_tests :
  expandVariables (str "") lookupTest = Ok (str "") /\
  expandVariables (str "${A}") lookupTest = Ok (str "1") /\
  expandVariables (str "${A}${B_C}") lookupTest = Ok (str "1234") /\
  expandVariables (str " x${A}y  ${B_C}z ") lookupTest = Ok (str " x1y  234z ") /\
  expandVariables (str " ${A${B_C}") lookupTest = Ok (str " ${A234") /\
  expandVariables (str "x${C}y") lookupTest = Err (ErrVarNotFound (str "C")).
Proof. repeat split; vm_compute; reflexivity. Qed.

(** *** References in the result *)

(** The names of the references of [s], at all indices. *)
Fixpoint refsOf (s : gostring) : list gostring :=
  match s with
  | [] => []
  | _ :: s' =>
    match matchHere s with
    | Some n => [take n (drop 2 s)]
    | None => []
    end ++ refsOf s'
  end.

Lemma refAt_refsOf s i name : refAt s i name -> In name (refsOf s).
Proof.
  intros [pre [post [-> [_ Hv]]]]. clear i.
  induction pre as [|c pre IH].
  - cbn [app]. rewrite ref_cons. cbn [refsOf]. rewrite <- ref_cons.
    rewrite matchHere_ref by assumption. rewrite ref_cons. cbn [skipn app].
    rewrite drop_0, take_app_length. now left.
  - cbn [app refsOf]. apply in_or_app. now right.
Qed.

Lemma containsRef_dollar s : containsRef s -> In "$"%char s.
Proof.
  intros [i [name [pre [post [-> _]]]]]. rewrite ref_cons.
  apply in_or_app. right. now left.
Qed.

(** A lookup function with a value that is itself a reference. *)
Definition lookupNested (name : gostring) : option gostring :=
  if bool_decide (name = str "A") then Some (str "${B}")
  else if bool_decide (name = str "B") then Some (str "x")
  else None.

(** C8, as stated, fails: every reference of ["${A}"] names a variable that
    is defined, and the expansion is the value ["${B}"], a reference. *)
Lemma C8_expansion_contains_reference :
  (forall i name, refAt (str "${A}") i name -> lookupNested name <> None) /\
  expandVariables (str "${A}") lookupNested = Ok (str "${B}") /\
  containsRef (str "${B}").
Proof.
  split; [|split].
  - intros i name Href. apply refAt_refsOf in Href.
    vm_compute in Href. destruct Href as [<- | []]. vm_compute. discriminate.
  - vm_compute. reflexivity.
  - exists 0, (str "B"), [], []. split; [reflexivity|]. split; reflexivity.
Qed.

(** The same with values that are plain: the text around a reference can
    make a reference of its value. *)
Lemma expansion_forms_reference :
  (forall i name, refAt (str "${${A}}") i name -> lookupTest name <> None) /\
  expandVariables (str "${${A}}") lookupTest = Ok (str "${1}") /\
  containsRef (str "${1}").
Proof.
  split; [|split].
  - intros i name Href. apply refAt_refsOf in Href.
    vm_compute in Href. destruct Href as [<- | []]. vm_compute. discriminate.
  - vm_compute. reflexivity.
  - exists 0, (str "1"), [], []. split; [reflexivity|]. split; reflexivity.
Qed.

(** A string in which every dollar begins a reference to a variable that
    [lookup] defines. *)
Inductive onlyRefs (lookup : gostring -> option gostring) : gostring -> Prop :=
| onlyRefs_nil : onlyRefs lookup []
| onlyRefs_byte c s :
    c <> "$"%char -> onlyRefs lookup s -> onlyRefs lookup (c :: s)
| onlyRefs_ref name s :
    validName name = true -> lookup name <> None -> onlyRefs lookup s ->
    onlyRefs lookup (ref name ++ s).

Lemma findFrom_shift s : forall pos,
  findFrom (S pos) s
    = match findFrom pos s with
      | Some (i0, i1, i2, i3) => Some (S i0, S i1, S i2, S i3)
      | None => None
      end.
Proof.
  induction s as [|c s IH]; intros pos; cbn [findFrom].
  - reflexivity.
  - destruct (matchHere (c :: s)); [reflexivity | apply IH].
Qed.

Lemma matchHere_plain c s : c <> "$"%char -> matchHere (c :: s) = None.
Proof.
  intros Hc. unfold matchHere. destruct s as [|c1 s]; [reflexivity|].
  apply Ascii.eqb_neq in Hc. now rewrite Hc.
Qed.

(** A byte that is no dollar goes to the builder as it is. *)
Lemma expandLoop_plain lookup sb c s :
  c <> "$"%char -> expandLoop lookup sb (c :: s) = expandLoop lookup (sb ++ [c]) s.
Proof.
  intros Hc. rewrite (expandLoop_unfold lookup sb), (expandLoop_unfold lookup (sb ++ [c])).
  unfold FindStringSubmatchIndex. cbn [findFrom].
  rewrite matchHere_plain by assumption. rewrite findFrom_shift.
  destruct (findFrom 0 s) as [[[[i0 i1] i2] i3]|]; [|now rewrite <- app_assoc].
  unfold slice. cbn [skipn firstn Nat.sub].
  destruct (lookup (take (i3 - i2) (drop i2 s))); [|reflexivity].
  now rewrite <- !app_assoc.
Qed.

Lemma expandLoop_onlyRefs lookup s :
  (forall name value, lookup name = Some value -> ~ In "$"%char value) ->
  onlyRefs lookup s ->
  forall sb, ~ In "$"%char sb ->
  exists r, expandLoop lookup sb s = Ok r /\ ~ In "$"%char r.
Proof.
  intros Hval Hs. induction Hs as [|c s Hc Hs IH|name s Hv Hdef Hs IH]; intros sb Hsb.
  - exists sb. rewrite expandLoop_unfold. cbn. now rewrite app_nil_r.
  - rewrite expandLoop_plain by assumption. apply IH.
    intros Hin. apply in_app_or in Hin as [Hin | [Hin | []]]; [auto | congruence].
  - change (ref name ++ s) with ([] ++ ref name ++ s).
    rewrite expandLoop_ref; [|assumption|intros; cbn [length]; lia].
    destruct (lookup name) as [value|] eqn:Hl; [|now elim Hdef].
    apply IH. cbn [app]. intros Hin.
    apply in_app_or in Hin as [Hin | Hin]; [auto | eapply Hval; eauto].
Qed.

(** C8, amended: when every dollar of [s] begins a reference to a variable
    that [lookup] defines, and no value that [lookup] gives has a dollar in
    it, [expandVariables] succeeds and its result has no dollar in it, hence
    no reference.  (A value with a dollar, or a dollar of [s] outside the
    references, can leave a reference in the result.) *)
Theorem C8_expansion_without_reference
    (s : gostring) (lookup : gostring -> option gostring) :
  (forall name value, lookup name = Some value -> ~ In "$"%char value) ->
  onlyRefs lookup s ->
  exists r, expandVariables s lookup = Ok r /\ ~ In "$"%char r /\ ~ containsRef r.
Proof.
  intros Hval Hs.
  destruct (expandLoop_onlyRefs lookup s Hval Hs [] (fun H => H)) as [r [Hr Hno]].
  exists r. split; [exact Hr|]. split; [exact Hno|].
  intros Hc. apply Hno. now apply containsRef_dollar.
Qed.

Lemma lookupTest_values name value :
  lookupTest name = Some value -> ~ In "$"%char value.
Proof.
  unfold lookupTest. repeat case_bool_decide; intros [= <-]; vm_compute; intuition congruence.
Qed.

(** C8 on a case of the test [TestExpandVariables]. *)
Lemma C8_expansion_without_reference_witness :
  exists r,
    expandVariables (str " x${A}y  ${B_C}z ") lookupTest = Ok r /\
    ~ In "$"%char r /\ ~ containsRef r.
Proof.
  apply (C8_expansion_without_reference (str " x${A}y  ${B_C}z ") lookupTest).
  - exact lookupTest_values.
  - apply onlyRefs_byte; [discriminate|]. apply onlyRefs_byte; [discriminate|].
    apply (onlyRefs_ref lookupTest (str "A")); [reflexivity | discriminate |].
    apply onlyRefs_byte; [discriminate|]. apply onlyRefs_byte; [discriminate|].
    apply onlyRefs_byte; [discriminate|].
    apply (onlyRefs_ref lookupTest (str "B_C")); [reflexivity | discriminate |].
    apply onlyRefs_byte; [discriminate|]. apply onlyRefs_byte; [discriminate|].
    apply onlyRefs_nil.
Defined.

(** ** The exit code of an error *)

(** The size of the tree of an error, for induction on what it wraps. *)
Fixpoint esize (e : error) : nat :=
  match e with
  | wrapError _ errs =>
    S ((fix sum (l : list error) : nat :=
          match l with
          | [] => 0
          | e' :: l' => esize e' + sum l'
          end) errs)
  | NumError _ _ err => S (esize err)
  | _ => 1
  end.

Lemma esize_wrapped e e1 : In e1 (errors.Unwrap e) -> esize e1 < esize e.
Proof.
  destruct e; cbn [errors.Unwrap]; try contradiction.
  - cbn [esize]. induction errs as [|e' errs IH]; [contradiction|].
    intros [<- | Hin]; [lia|]. specialize (IH Hin). lia.
  - intros [<- | []]. cbn [esize]. lia.
Qed.

Lemma InTree_inv e' e :
  errors.InTree e' e ->
  e' = e \/ exists e1, In e1 (errors.Unwrap e) /\ errors.InTree e' e1.
Proof. intros H. destruct H; [now left | right; eauto]. Qed.

(** What [errors.As] finds in a list of errors: the loop over
    [x.Unwrap()] of an error that wraps several. *)
Fixpoint firstAs {A} (pick : error -> option A) (l : list error) : option A :=
  match l with
  | [] => None
  | e :: l' =>
    match errors.As pick e with
    | Some a => Some a
    | None => firstAs pick l'
    end
  end.

Lemma As_unfold {A} (pick : error -> option A) e :
  errors.As pick e
    = match pick e with
      | Some a => Some a
      | None => firstAs pick (errors.Unwrap e)
      end.
Proof.
  destruct e; cbn [errors.As errors.Unwrap firstAs]; try reflexivity.
  - destruct (pick (wrapError msg errs)); [reflexivity|].
    induction errs as [|e errs IH]; [reflexivity|]. cbn [firstAs].
    destruct (errors.As pick e); [reflexivity | exact IH].
  - destruct (pick (NumError Func Num e)); [reflexivity|].
    now destruct (errors.As pick e).
Qed.

(** What [errors.As] finds for [e]: the value of an error of the tree of
    [e], or nothing if no error of the tree has a value. *)
Definition AsFinds {A} (pick : error -> option A) (e : error) (r : option A) : Prop :=
  match r with
  | Some a => exists e', errors.InTree e' e /\ pick e' = Some a
  | None => forall e', errors.InTree e' e -> pick e' = None
  end.

Lemma firstAs_spec {A} (pick : error -> option A) l :
  (forall e1, In e1 l -> AsFinds pick e1 (errors.As pick e1)) ->
  match firstAs pick l with
  | Some a => exists e1 e', In e1 l /\ errors.InTree e' e1 /\ pick e' = Some a
  | None => forall e1 e', In e1 l -> errors.InTree e' e1 -> pick e' = None
  end.
Proof.
  induction l as [|e l IH]; intros Hall; cbn [firstAs].
  - intros e1 e' [].
  - pose proof (Hall e (or_introl eq_refl)) as He. unfold AsFinds in He.
    destruct (errors.As pick e) as [a|].
    + destruct He as [e' [Ht Hp]]. exists e, e'. split; [now left | now split].
    + specialize (IH (fun e1 Hin => Hall e1 (or_intror Hin))).
      destruct (firstAs pick l) as [a|].
      * destruct IH as [e1 [e' [Hin [Ht Hp]]]]. exists e1, e'.
        split; [now right | now split].
      * intros e1 e' [<- | Hin] Ht; [now apply He | eapply IH; eauto].
Qed.

Lemma As_spec_sized {A} (pick : error -> option A) : forall n e,
  esize e < n -> AsFinds pick e (errors.As pick e).
Proof.
  induction n as [|n IH]; intros e Hn; [lia|].
  rewrite As_unfold. destruct (pick e) as [a|] eqn:Hp.
  - exists e. split; [constructor | exact Hp].
  - assert (Hall : forall e1, In e1 (errors.Unwrap e) ->
                              AsFinds pick e1 (errors.As pick e1)).
    { intros e1 Hin. apply IH. apply esize_wrapped in Hin. lia. }
    pose proof (firstAs_spec pick (errors.Unwrap e) Hall) as Hf.
    destruct (firstAs pick (errors.Unwrap e)) as [a|]; cbn [AsFinds].
    + destruct Hf as [e1 [e' [Hin [Ht Hp']]]]. exists e'. split; [|exact Hp'].
      eapply errors.InTree_below; eauto.
    + intros e' Ht. apply InTree_inv in Ht as [-> | [e1 [Hin Ht]]];
        [exact Hp | eapply Hf; eauto].
Qed.

Lemma As_spec {A} (pick : error -> option A) e : AsFinds pick e (errors.As pick e).
Proof. apply (As_spec_sized pick (S (esize e))). lia. Qed.

Lemma asErrno_Some e n : asErrno e = Some n -> e = Errno n.
Proof. destruct e; cbn; congruence. Qed.

Lemma asExitError_Some e c : asExitError e = Some c -> e = ExitError c.
Proof. destruct e; cbn; congruence. Qed.

Lemma asExitCodeErr_Some e c : asExitCodeErr e = Some c -> exists msg, e = ExitCodeErr msg c.
Proof. destruct e; cbn; try congruence. intros [= ->]. eauto. Qed.

(** The order in which [extractExitCode] tries the sources: the error
    number of the operating system first, then the exit status of a process,
    then the typed error. *)
Lemma extractExitCode_order (err : error) :
  (exists errno, errors.InTree (Errno errno) err /\
                 extractExitCode err = (errno, true))
  \/ ((forall errno, ~ errors.InTree (Errno errno) err) /\
      exists code, errors.InTree (ExitError code) err /\
                   extractExitCode err = (code, true))
  \/ ((forall errno, ~ errors.InTree (Errno errno) err) /\
      (forall code, ~ errors.InTree (ExitError code) err) /\
      exists msg code, errors.InTree (ExitCodeErr msg code) err /\
                       extractExitCode err = (code, true))
  \/ ((forall errno, ~ errors.InTree (Errno errno) err) /\
      (forall code, ~ errors.InTree (ExitError code) err) /\
      (forall msg code, ~ errors.InTree (ExitCodeErr msg code) err) /\
      extractExitCode err = (0%Z, false)).
Proof.
  unfold extractExitCode.
  pose proof (As_spec asErrno err) as H1.
  destruct (errors.As asErrno err) as [errno|]; cbn [AsFinds] in H1.
  { left. destruct H1 as [e' [Ht Hp]]. apply asErrno_Some in Hp. subst e'.
    exists errno. now split. }
  assert (N1 : forall errno, ~ errors.InTree (Errno errno) err).
  { intros errno Ht. specialize (H1 _ Ht). discriminate. }
  right. pose proof (As_spec asExitError err) as H2.
  destruct (errors.As asExitError err) as [code|]; cbn [AsFinds] in H2.
  { left. split; [exact N1|]. destruct H2 as [e' [Ht Hp]].
    apply asExitError_Some in Hp. subst e'. exists code. now split. }
  assert (N2 : forall code, ~ errors.InTree (ExitError code) err).
  { intros code Ht. specialize (H2 _ Ht). discriminate. }
  right. pose proof (As_spec asExitCodeErr err) as H3.
  destruct (errors.As asExitCodeErr err) as [code|]; cbn [AsFinds] in H3.
  { left. split; [exact N1|]. split; [exact N2|]. destruct H3 as [e' [Ht Hp]].
    apply asExitCodeErr_Some in Hp as [msg ->]. exists msg, code. now split. }
  right. split; [exact N1|]. split; [exact N2|]. split; [|reflexivity].
  intros msg code Ht. specialize (H3 _ Ht). discriminate.
Qed.

(** The sources tried in the order in which C2 names them: the exit status
    of a process, then the error number, then the typed error. *)
Definition extractExitCodeAsClaimed (err : error) : Z * bool :=
  match errors.As asExitError err with
  | Some code => (code, true)
  | None =>
    match errors.As asErrno err with
    | Some errno => (errno, true)
    | None =>
      match errors.As asExitCodeErr err with
      | Some code => (code, true)
      | None => (0%Z, false)
      end
    end
  end.

(** C2, as stated, fails on an error that joins an exit status and an error
    number ([errors.Join], or [fmt.Errorf] with two [%w]): the code takes
    the error number, 2, where the order of the claim gives the exit
    status, 3; a command expected to fail with the exit code 3 is then
    reported as failing with the exit code 2. *)
Lemma C2_exit_status_is_not_first :
  let err := wrapError (str "wait and chdir") [ExitError 3; Errno 2] in
  extractExitCode err = (2%Z, true) /\
  extractExitCodeAsClaimed err = (3%Z, true) /\
  extractExitCode err <> extractExitCodeAsClaimed err /\
  checkOutcome 7 (str "cmd") true 3 (Some err)
    = Some (ErrExitCode 7 (str "cmd") 2 3).
Proof. repeat split; vm_compute; congruence. Qed.

Section ExitCode.
Context {World : Type} {os : OS World}.

Lemma executeCommand_outcome (ts : TestSuite World) (log : Logger World)
    (line : Z) (cmdline cmd : gostring) (wantFail : bool) (wantExitCode : Z)
    (w w' : World) name args (f : CommandFunc World) out err :
  parseCommand cmdline = Ok (cmd, wantFail, wantExitCode) ->
  expandArgs (strings.Fields cmd) (fun n => LookupEnv n w) = Ok (name :: args) ->
  Commands ts !! name = Some f ->
  f (snd (splitInput args)) (fst (splitInput args))
    (log (str "$ " ++ strings.Join (name :: args) (str " ")) w) = ((out, err), w') ->
  executeCommand ts log line cmdline w
    = (match checkOutcome line cmd wantFail wantExitCode err with
       | Some e => Err e
       | None => Ok out
       end, log (out ++ newline) w').
Proof.
  intros Hparse Hargs Hcmd Hrun. unfold executeCommand.
  rewrite Hparse, Hargs. cbv beta iota zeta.
  destruct (splitInput args) as [infile args'] eqn:Hsplit.
  cbn [fst snd] in Hrun.
  match goal with
  | |- match ?x with Some _ => _ | None => _ end = _ =>
    replace x with (Some f) by (symmetry; exact Hcmd)
  end.
  rewrite Hrun. now destruct (checkOutcome line cmd wantFail wantExitCode err).
Qed.

(** C2, amended: when a command that was expected to fail with the exit
    code [wantExitCode], not zero, returns the error [err], the engine takes
    the exit code of [err] from the first of these that the tree of [err]
    has: an error number of the operating system, the exit status of a
    process, the typed [ExitCodeErr].  When the tree has none of them, or
    when the code taken is not the one wanted, the command ends with an
    error, and so does the case; otherwise the run goes on. *)
Theorem C2_exit_code_of_a_failure (ts : TestSuite World) (log : Logger World)
    (parallel : bool) (tc : testCase) (cmdline cmd : gostring) (wantExitCode : Z)
    (w w' : World) name args (f : CommandFunc World) out err :
  commands tc = [cmdline] ->
  parseCommand cmdline = Ok (cmd, true, wantExitCode) ->
  wantExitCode <> 0%Z ->
  expandArgs (strings.Fields cmd) (fun n => LookupEnv n w) = Ok (name :: args) ->
  Commands ts !! name = Some f ->
  f (snd (splitInput args)) (fst (splitInput args))
    (log (str "$ " ++ strings.Join (name :: args) (str " ")) w)
    = ((out, Some err), w') ->
  ((exists errno, errors.InTree (Errno errno) err /\
                  extractExitCode err = (errno, true))
   \/ ((forall errno, ~ errors.InTree (Errno errno) err) /\
       exists code, errors.InTree (ExitError code) err /\
                    extractExitCode err = (code, true))
   \/ ((forall errno, ~ errors.InTree (Errno errno) err) /\
       (forall code, ~ errors.InTree (ExitError code) err) /\
       exists msg code, errors.InTree (ExitCodeErr msg code) err /\
                        extractExitCode err = (code, true))
   \/ ((forall errno, ~ errors.InTree (Errno errno) err) /\
       (forall code, ~ errors.InTree (ExitError code) err) /\
       (forall msg code, ~ errors.InTree (ExitCodeErr msg code) err) /\
       extractExitCode err = (0%Z, false))) /\
  fst (executeCommand ts log (startLine tc + 0) cmdline w)
    = (let '(gotExitCode, ok) := extractExitCode err in
       if negb ok then Err (ErrNoExitCode (startLine tc + 0) cmd)
       else if (gotExitCode =? wantExitCode)%Z then Ok out
       else Err (ErrExitCode (startLine tc + 0) cmd gotExitCode wantExitCode)) /\
  fst (fst (executeCase ts log parallel tc w))
    = (let '(gotExitCode, ok) := extractExitCode err in
       if negb ok then Err (ErrNoExitCode (startLine tc + 0) cmd)
       else if (gotExitCode =? wantExitCode)%Z then Ok tt
       else Err (ErrExitCode (startLine tc + 0) cmd gotExitCode wantExitCode)).
Proof.
  intros Hcmds Hparse Hwant Hargs Hcmd Hrun.
  split; [apply extractExitCode_order|].
  pose proof (executeCommand_outcome ts log (startLine tc + 0) _ _ _ _ _ _ _ _ _ _ _
                Hparse Hargs Hcmd Hrun) as Hexec.
  assert (Hout : checkOutcome (startLine tc + 0) cmd true wantExitCode (Some err)
                 = let '(gotExitCode, ok) := extractExitCode err in
                   if negb ok then Some (ErrNoExitCode (startLine tc + 0) cmd)
                   else if (gotExitCode =? wantExitCode)%Z then None
                   else Some (ErrExitCode (startLine tc + 0) cmd gotExitCode wantExitCode)).
  { unfold checkOutcome. cbn [negb].
    destruct (Z.eqb_spec wantExitCode 0) as [E|_]; [contradiction|]. cbn [negb].
    destruct (extractExitCode err) as [got ok]. destruct ok; cbn [negb]; [|reflexivity].
    now destruct (got =? wantExitCode)%Z. }
  rewrite Hout in Hexec. split.
  - rewrite Hexec. cbn [fst]. destruct (extractExitCode err) as [got ok].
    destruct ok; cbn [negb]; [|reflexivity]. now destruct (got =? wantExitCode)%Z.
  - unfold executeCase. cbn [setGotOutput commands startLine]. rewrite Hcmds.
    cbn [executeCommands]. unfold bind. rewrite Hexec.
    destruct (extractExitCode err) as [got ok].
    destruct ok; cbn [negb]; [|reflexivity].
    destruct (got =? wantExitCode)%Z; [|reflexivity].
    unfold ret. destruct (0 <? length ([] ++ out)); reflexivity.
Qed.

End ExitCode.

(** C2 on the simulated system, for the line [$ exit 3 --> FAIL 2] (the case
    of [testdata/bad/bad-fail-5.ct], with a program in place of [cd]): a
    process that exits with the status 3 where 2 was expected. *)
Lemma C2_exit_code_of_a_failure_witness :
  fst (fst (executeCase (Sim.suite []) noopLogger true
              {| before := []; startLine := 1; commands := [str "exit 3 --> FAIL 2"];
                 gotOutput := None; wantOutput := [] |} Sim.world0))
    = Err (ErrExitCode 1 (str "exit 3") 3 2).
Proof.
  pose proof (C2_exit_code_of_a_failure (Sim.suite []) noopLogger true
    {| before := []; startLine := 1; commands := [str "exit 3 --> FAIL 2"];
       gotOutput := None; wantOutput := [] |}
    (str "exit 3 --> FAIL 2") (str "exit 3") 2 Sim.world0 Sim.world0
    (str "exit") [str "3"] Sim.exitCmd (str "exiting" ++ newline) (ExitError 3)
    eq_refl eq_refl ltac:(discriminate) eq_refl eq_refl eq_refl) as [_ [_ H]].
  exact H.
Defined.

(** ** Running cases and files *)

Section Running.
Context {World : Type} {os : OS World}.

(** A command without a word makes the engine panic: [strings.Fields] gives
    no word, and [args[0]] is out of range. *)
Lemma executeCommand_no_word (ts : TestSuite World) (log : Logger World)
    (line : Z) (w : World) :
  fst (executeCommand ts log line [] w) = Panic indexOutOfRange.
Proof. reflexivity. Qed.

(** C10: [readFile] reads a file that is the line ["$"] as one case with
    the empty command; and [tc.execute] on a case that begins with the empty
    command panics with an index out of range, whatever the suite, the
    logger and the world are: it returns no error. *)
Theorem C10_empty_command_panics (ts : TestSuite World) (log : Logger World)
    (parallel : bool) (w : World)
    (before : list gostring) (startLine : Z) (rest : list gostring)
    (gotOutput : option (list gostring)) (wantOutput : list gostring) :
  readFile (str "t.ct") (str "$")
    = Ok {| filename := str "t.ct";
            cases := [{| Cmdtest.before := []; Cmdtest.startLine := 1;
                         commands := [[]];
                         Cmdtest.gotOutput := None; Cmdtest.wantOutput := [] |}];
            suffix := [] |} /\
  fst (fst (executeCase ts log parallel
              {| Cmdtest.before := before; Cmdtest.startLine := startLine;
                 commands := [] :: rest;
                 Cmdtest.gotOutput := gotOutput; Cmdtest.wantOutput := wantOutput |} w))
    = Panic indexOutOfRange.
Proof.
  split; [vm_compute; reflexivity|].
  unfold executeCase. cbn [setGotOutput commands Cmdtest.startLine].
  cbn [executeCommands]. unfold bind.
  destruct (executeCommand ts log (startLine + 0) [] w) as [r w'] eqn:Hr.
  pose proof (executeCommand_no_word ts log (startLine + 0) w) as Hp.
  rewrite Hr in Hp. cbn [fst] in Hp. now subst r.
Qed.

(** The cases of a file run in order up to the first that returns an
    error; the cases after it are left as they are. *)
Lemma executeCases_first_error (ts : TestSuite World) (log : Logger World)
    (parallel : bool) (cs1 : list testCase) : forall c cs2 w cs1' w1 c' w2 e,
  executeCases ts log parallel cs1 w = (Ok tt, cs1', w1) ->
  executeCase ts log parallel c w1 = (Err e, c', w2) ->
  executeCases ts log parallel (cs1 ++ c :: cs2) w = (Err e, cs1' ++ c' :: cs2, w2).
Proof.
  induction cs1 as [|c1 cs1 IH]; intros c cs2 w cs1' w1 c' w2 e H1 Hc.
  - cbn [executeCases] in H1. injection H1 as <- <-.
    cbn [app executeCases]. now rewrite Hc.
  - cbn [app executeCases] in *.
    destruct (executeCase ts log parallel c1 w) as [[r1 c1'] wa].
    destruct r1; try discriminate.
    destruct (executeCases ts log parallel cs1 wa) as [[r cs1a] wb] eqn:Hrest.
    injection H1 as -> <- <-.
    now rewrite (IH c cs2 wa cs1a wb c' w2 e Hrest Hc).
Qed.

(** The subtests of the files run one after the other; a subtest that
    reports errors does not end the loop. *)
Lemma runFiles_app
    (subtest : testFile -> World -> result (list report) * testFile * World)
    (fs1 : list testFile) : forall fs2 w rs1 fs1' w1,
  runFiles subtest fs1 w = (rs1, fs1', w1) ->
  Forall (fun nr => exists msgs, nr.2 = Ok msgs) rs1 ->
  runFiles subtest (fs1 ++ fs2) w
    = (let '(rs2, fs2', w2) := runFiles subtest fs2 w1 in
       (rs1 ++ rs2, fs1' ++ fs2', w2)).
Proof.
  induction fs1 as [|f fs1 IH]; intros fs2 w rs1 fs1' w1 H1 Hok.
  - cbn [runFiles] in H1. injection H1 as <- <- <-. cbn [app].
    now destruct (runFiles subtest fs2 w) as [[rs2 fs2'] w2].
  - cbn [app runFiles] in *.
    destruct (subtest f w) as [[r f'] wa].
    destruct r as [msgs|e|m].
    + destruct (runFiles subtest fs1 wa) as [[rsa fsa] wb] eqn:Hrest.
      injection H1 as <- <- <-. inversion Hok as [|? ? _ Hok']; subst.
      rewrite (IH fs2 wa rsa fsa wb Hrest Hok').
      now destruct (runFiles subtest fs2 wb) as [[rs2 fs2'] w2].
    + destruct (runFiles subtest fs1 wa) as [[rsa fsa] wb] eqn:Hrest.
      injection H1 as <- <- <-. inversion Hok as [|? ? [msgs Hm] _]; subst.
      discriminate.
    + injection H1 as <- <- <-. inversion Hok as [|? ? [msgs Hm] _]; subst.
      discriminate.
Qed.

(** C7: the cases of a file are executed in order, and the execution of the
    file stops at the first case that returns an error: the cases after it
    are not executed (they are left as they are, and the world is the one
    that the failing case left).  In the suite, the subtest of a file whose
    execution returns an error reports that error, and the files after it
    are run all the same, from the world that the file left. *)
Theorem C7_errors_stop_the_file_only (ts : TestSuite World) (tLogf : Logger World)
    (parallel : bool)
    (cs1 : list testCase) (c : testCase) (cs2 : list testCase)
    (w : World) (cs1' : list testCase) (w1 : World) (c' : testCase) (w2 : World)
    (e : error)
    (fs1 : list testFile) (f : testFile) (fs2 : list testFile)
    (v : World) (rs1 : list (gostring * result (list report)))
    (fs1' : list testFile) (v1 : World) (f' : testFile) (v2 : World) (e' : error) :
  let log := if DisableLogging ts then noopLogger else tLogf in
  executeCases ts log parallel cs1 w = (Ok tt, cs1', w1) ->
  executeCase ts log parallel c w1 = (Err e, c', w2) ->
  runFiles (compareSubtest ts tLogf parallel) fs1 v = (rs1, fs1', v1) ->
  Forall (fun nr => exists msgs, nr.2 = Ok msgs) rs1 ->
  execute ts log parallel f v1 = (Err e', f', v2) ->
  executeCases ts log parallel (cs1 ++ c :: cs2) w = (Err e, cs1' ++ c' :: cs2, w2) /\
  runFiles (compareSubtest ts tLogf parallel) (fs1 ++ f :: fs2) v
    = (let '(rs2, fs2', v3) := runFiles (compareSubtest ts tLogf parallel) fs2 v2 in
       (rs1 ++ (strings.TrimSuffix (filename f) (str ".ct"), Ok [reportError e']) :: rs2,
        fs1' ++ f' :: fs2', v3)).
Proof.
  intros log Hcs1 Hc Hfs1 Hok Hf. split.
  - eapply executeCases_first_error; eauto.
  - rewrite (runFiles_app _ fs1 (f :: fs2) v rs1 fs1' v1 Hfs1 Hok).
    cbn [runFiles]. unfold compareSubtest at 1, compareFile. fold log. rewrite Hf.
    now destruct (runFiles (compareSubtest ts tLogf parallel) fs2 v2) as [[rs2 fs2'] v3].
Qed.

End Running.

(** Two files for the simulated system: in the first the second case fails
    with the exit code 2 where 3 is wanted; the second has one case. *)
Definition case_hi : testCase :=
  {| before := []; startLine := 1; commands := [str "echo hi"];
     gotOutput := None; wantOutput := [str "hi"] |}.

Definition case_exit : testCase :=
  {| before := [[]]; startLine := 4; commands := [str "exit 2 --> FAIL 3"];
     gotOutput := None; wantOutput := [] |}.

Definition case_never : testCase :=
  {| before := [[]]; startLine := 6; commands := [str "echo never"];
     gotOutput := None; wantOutput := [str "should not appear"] |}.

Definition failing_ct : testFile :=
  {| filename := str "failing.ct"; cases := [case_hi; case_exit; case_never];
     suffix := [] |}.

Definition passing_ct : testFile :=
  {| filename := str "passing.ct";
     cases := [{| before := []; startLine := 1; commands := [str "echo b"];
                  gotOutput := None; wantOutput := [str "b"] |}];
     suffix := [] |}.

(** C7 on these files, run in parallel mode on the simulated system: the
    third case of the failing file is not executed, and the passing file
    runs after the failing one and passes. *)
Lemma C7_errors_stop_the_file_only_witness :
  let ts := Sim.suite [passing_ct; failing_ct; passing_ct] in
  let failure := ErrExitCode 4 (str "exit 2") 2 3 in
  map gotOutput (snd (fst (executeCases ts noopLogger true (cases failing_ct) Sim.world0)))
    = [Some [str "hi"]; None; None] /\
  fst (fst (compare ts noopLogger true Sim.world0))
    = [(str "passing", Ok []);
       (str "failing", Ok [reportError (ErrInFile (str "failing.ct") (str ":") failure)]);
       (str "passing", Ok [])].
Proof.
  intros ts failure.
  pose (r1 := executeCases ts noopLogger true [case_hi] Sim.world0).
  pose (r2 := executeCase ts noopLogger true case_exit (snd r1)).
  pose (p1 := runFiles (compareSubtest ts noopLogger true) [passing_ct] Sim.world0).
  pose (p2 := execute ts noopLogger true failing_ct (snd p1)).
  destruct (C7_errors_stop_the_file_only ts noopLogger true
              [case_hi] case_exit [case_never]
              Sim.world0 (snd (fst r1)) (snd r1) (snd (fst r2)) (snd r2) failure
              [passing_ct] failing_ct [passing_ct]
              Sim.world0 (fst (fst p1)) (snd (fst p1)) (snd p1)
              (snd (fst p2)) (snd p2)
              (ErrInFile (str "failing.ct") (str ":") failure)) as [Hcases Hfiles].
  - vm_compute. reflexivity.
  - vm_compute. reflexivity.
  - vm_compute. reflexivity.
  - vm_compute. repeat constructor. eexists. reflexivity.
  - vm_compute. reflexivity.
  - change (if DisableLogging ts then noopLogger else noopLogger)
      with (@noopLogger Sim.World) in Hcases.
    split.
    + change (cases failing_ct) with ([case_hi] ++ case_exit :: [case_never]).
      rewrite Hcases. vm_compute. reflexivity.
    + unfold compare.
      change (files ts) with ([passing_ct] ++ failing_ct :: [passing_ct]).
      rewrite Hfiles. vm_compute. reflexivity.
Defined.

(** ** Updating a file *)

(** What the calls of the updater do to the files: [content w p] is the
    content of the file at the path [p] in the world [w], if there is one.
    A temporary file is new and empty; writing to a file changes that file
    only, and adds the data when it succeeds; [Sync] and [Close] change no
    content; [Remove] and [Rename] do what they say when they succeed and
    change nothing when they fail; and these calls return, they do not
    panic. *)
Class FileSystem (World : Type) {os : OS World} : Type := {
  content : World -> gostring -> option gostring;
  TempFile_new : forall dir pattern w f w',
    TempFile dir pattern w = (Ok f, w') ->
    content w (Name f) = None /\ content w' (Name f) = Some [] /\
    forall p, p <> Name f -> content w' p = content w p;
  TempFile_failed : forall dir pattern w r w',
    TempFile dir pattern w = (r, w') -> (forall f, r <> Ok f) ->
    forall p, content w' p = content w p;
  FileWrite_other : forall f data w r w',
    FileWrite f data w = (r, w') ->
    forall p, p <> Name f -> content w' p = content w p;
  FileWrite_done : forall f data w w' old,
    FileWrite f data w = (Ok tt, w') -> content w (Name f) = Some old ->
    content w' (Name f) = Some (old ++ data);
  Sync_content : forall f w r w',
    Sync f w = (r, w') -> forall p, content w' p = content w p;
  Close_content : forall f w r w',
    Close f w = (r, w') -> forall p, content w' p = content w p;
  Remove_done : forall path w w',
    Remove path w = (Ok tt, w') ->
    content w' path = None /\ forall p, p <> path -> content w' p = content w p;
  Remove_failed : forall path w r w',
    Remove path w = (r, w') -> r <> Ok tt -> forall p, content w' p = content w p;
  Rename_done : forall old new w w',
    Rename old new w = (Ok tt, w') ->
    content w' new = content w old /\
    (old <> new -> content w' old = None) /\
    forall p, p <> old -> p <> new -> content w' p = content w p;
  Rename_failed : forall old new w r w',
    Rename old new w = (r, w') -> r <> Ok tt -> forall p, content w' p = content w p;
  Sync_returns : forall f w m, fst (Sync f w) <> Panic m;
  Close_returns : forall f w m, fst (Close f w) <> Panic m;
  Remove_returns : forall path w m, fst (Remove path w) <> Panic m;
  Rename_returns : forall old new w m, fst (Rename old new w) <> Panic m
}.

(** The text [tc.write] writes for a case: the output it got, if it was
    executed and got any, its expected output otherwise. *)
Definition caseTextGot (tc : testCase) : gostring :=
  unlines (before tc) ++ commandLines (commands tc)
  ++ unlines (match gotOutput tc with Some out => out | None => wantOutput tc end).

(** The text [tf.write] writes. *)
Definition fileText (tf : testFile) : gostring :=
  concat (map caseTextGot (cases tf)) ++ unlines (suffix tf).

Lemma write_buffer tf buf : write tf buf = (Ok tt, buf ++ fileText tf).
Proof.
  unfold write, bind, fileText.
  assert (Hc : forall cs b, writeCases cs b = (Ok tt, b ++ concat (map caseTextGot cs))).
  { induction cs as [|c cs IH]; intros b; cbn [writeCases map concat].
    - unfold ret. now rewrite app_nil_r.
    - unfold bind, writeCase, writeCommands, bind.
      rewrite writeLines_buffer, writeCommandLines_buffer, writeLines_buffer, IH.
      unfold caseTextGot. f_equal. destruct (gotOutput c); same_text. }
  rewrite Hc, writeLines_buffer. now rewrite <- app_assoc.
Qed.

Section Update.
Context {World : Type} {os : OS World} {files : FileSystem World}.

(** The program [c] writes [text] to the file [f]: it changes no other
    file, and when it succeeds the file has [text] added. *)
Definition writes (f : File) (c : io World unit) (text : gostring) : Prop :=
  forall w r w',
    c w = (r, w') ->
    (forall p, p <> Name f -> content w' p = content w p) /\
    (r = Ok tt -> forall old, content w (Name f) = Some old ->
                  content w' (Name f) = Some (old ++ text)).

Lemma writes_ret f : writes f (ret tt) [].
Proof.
  intros w r w' [= <- <-]. split; [reflexivity|].
  intros _ old Hold. now rewrite app_nil_r.
Qed.

Lemma writes_Write f data : writes f (Write (Writer := File_Writer f) data) data.
Proof.
  intros w r w' Hw. unfold Write, File_Writer in Hw. split.
  - eapply FileWrite_other; eauto.
  - intros -> old Hold. eapply FileWrite_done; eauto.
Qed.

Lemma writes_bind f c1 c2 t1 t2 :
  writes f c1 t1 -> writes f c2 t2 ->
  writes f (bind c1 (fun _ => c2)) (t1 ++ t2).
Proof.
  intros H1 H2 w r w' Hb. unfold bind in Hb.
  destruct (c1 w) as [r1 w1] eqn:Hc1. destruct (H1 _ _ _ Hc1) as [Hf1 Hd1].
  destruct r1 as [[]|e|m].
  - destruct (H2 _ _ _ Hb) as [Hf2 Hd2]. split.
    + intros p Hp. now rewrite Hf2, Hf1.
    + intros Hr old Hold. rewrite app_assoc. apply Hd2; [exact Hr|].
      now apply Hd1.
  - injection Hb as <- <-. split; [exact Hf1 | discriminate].
  - injection Hb as <- <-. split; [exact Hf1 | discriminate].
Qed.

Lemma writes_eq f c t1 t2 : t1 = t2 -> writes f c t1 -> writes f c t2.
Proof. now intros ->. Qed.

Lemma writeLines_writes f lines :
  writes f (writeLines (wr := File_Writer f) lines) (unlines lines).
Proof.
  induction lines as [|l lines IH]; cbn [writeLines].
  - apply writes_ret.
  - eapply writes_eq; [|apply writes_bind; [apply writes_Write|];
                         apply writes_bind; [apply writes_Write | exact IH]].
    unfold unlines. cbn [map concat]. same_text.
Qed.

Lemma writeCommandLines_writes f cs :
  writes f (writeCommandLines (wr := File_Writer f) cs) (commandLines cs).
Proof.
  induction cs as [|c cs IH]; cbn [writeCommandLines].
  - apply writes_ret.
  - eapply writes_eq; [|apply writes_bind; [apply writes_Write | exact IH]].
    reflexivity.
Qed.

Lemma writeCase_writes f tc :
  writes f (writeCase (wr := File_Writer f) tc) (caseTextGot tc).
Proof.
  unfold writeCase, writeCommands, caseTextGot.
  apply writes_bind; [apply writeLines_writes|].
  apply writes_bind; [apply writeCommandLines_writes|].
  destruct (gotOutput tc); apply writeLines_writes.
Qed.

Lemma write_writes f tf : writes f (write (wr := File_Writer f) tf) (fileText tf).
Proof.
  unfold write, fileText. apply writes_bind; [|apply writeLines_writes].
  induction (cases tf) as [|c cs IH]; cbn [writeCases map concat].
  - apply writes_ret.
  - apply writes_bind; [apply writeCase_writes | exact IH].
Qed.

(** [Cleanup] on a temporary file that was not renamed: no other file
    changes, and unless [Cleanup] returns an error the file is gone. *)
Lemma Cleanup_spec (t : simpleTempFile) w r w' :
  Cleanup t w = (r, w') -> done t = false ->
  (forall p, p <> Name (tmpFile t) -> content w' p = content w p) /\
  (forall m, r <> Panic m) /\
  ((forall e, r <> Err e) -> content w' (Name (tmpFile t)) = None).
Proof.
  unfold Cleanup. intros Hc Hdone. rewrite Hdone in Hc.
  destruct (if negb (closed t) then Close (tmpFile t) w else (Ok tt, w))
    as [closeErr wC] eqn:Hclose.
  assert (HC : forall p, content wC p = content w p).
  { destruct (closed t); cbn [negb] in Hclose.
    - now injection Hclose as <- <-.
    - eapply Close_content; eauto. }
  assert (HCp : forall m, closeErr <> Panic m).
  { intros m. destruct (closed t); cbn [negb] in Hclose.
    - injection Hclose as <- <-. discriminate.
    - pose proof (Close_returns (tmpFile t) w m) as Hn. rewrite Hclose in Hn.
      exact Hn. }
  destruct (Remove (Name (tmpFile t)) wC) as [rR wR] eqn:Hrem.
  pose proof (Remove_returns (Name (tmpFile t)) wC) as HRp. rewrite Hrem in HRp.
  cbn [fst] in HRp.
  destruct rR as [[]|e|m].
  - injection Hc as <- <-. destruct (Remove_done _ _ _ Hrem) as [Hgone Hother].
    split; [|split].
    + intros p Hp. now rewrite Hother, HC.
    + exact HCp.
    + intros _. exact Hgone.
  - injection Hc as <- <-. split; [|split].
    + intros p _. rewrite (Remove_failed _ _ _ _ Hrem) by discriminate. apply HC.
    + discriminate.
    + intros Hne. now elim (Hne e).
  - now elim (HRp m).
Qed.

(** [CloseAtomicallyReplace]: when it succeeds the file at [path] has the
    content of the temporary file, which is there no more; when it fails no
    content has changed. *)
Lemma CloseAtomicallyReplace_spec (t : simpleTempFile) w r t' w' :
  CloseAtomicallyReplace t w = (r, t', w') ->
  tmpFile t' = tmpFile t /\
  (forall m, r <> Panic m) /\
  match r with
  | Ok _ =>
    done t' = true /\
    content w' (path t) = content w (Name (tmpFile t)) /\
    (Name (tmpFile t) <> path t -> content w' (Name (tmpFile t)) = None) /\
    forall p, p <> Name (tmpFile t) -> p <> path t -> content w' p = content w p
  | _ => done t' = done t /\ forall p, content w' p = content w p
  end.
Proof.
  unfold CloseAtomicallyReplace. intros Hc.
  destruct (Sync (tmpFile t) w) as [rS wS] eqn:Hsync.
  pose proof (Sync_content _ _ _ _ Hsync) as HS.
  pose proof (Sync_returns (tmpFile t) w) as HSp. rewrite Hsync in HSp. cbn [fst] in HSp.
  destruct rS as [[]|e|m]; [| |now elim (HSp m)].
  2:{ injection Hc as <- <- <-. repeat split; try discriminate. exact HS. }
  cbn [tmpFile path closed done] in Hc.
  destruct (Close (tmpFile t) wS) as [rC wC] eqn:Hclose.
  pose proof (Close_content _ _ _ _ Hclose) as HC.
  pose proof (Close_returns (tmpFile t) wS) as HCp. rewrite Hclose in HCp.
  cbn [fst] in HCp.
  destruct rC as [[]|e|m]; [| |now elim (HCp m)].
  2:{ injection Hc as <- <- <-. cbn [tmpFile done]. repeat split; try discriminate.
      intros p. now rewrite HC, HS. }
  destruct (Rename (Name (tmpFile t)) (path t) wC) as [rN wN] eqn:Hren.
  pose proof (Rename_returns (Name (tmpFile t)) (path t) wC) as HNp.
  rewrite Hren in HNp. cbn [fst] in HNp.
  destruct rN as [[]|e|m]; [| |now elim (HNp m)].
  - injection Hc as <- <- <-. cbn [tmpFile done].
    destruct (Rename_done _ _ _ _ Hren) as [Hnew [Hold Hother]].
    split; [reflexivity|]. split; [discriminate|]. split; [reflexivity|].
    split; [now rewrite Hnew, HC, HS|]. split; [exact Hold|].
    intros p Hp1 Hp2. now rewrite Hother, HC, HS.
  - injection Hc as <- <- <-. cbn [tmpFile done]. repeat split; try discriminate.
    intros p. rewrite (Rename_failed _ _ _ _ _ Hren) by discriminate.
    now rewrite HC, HS.
Qed.

(** [tf.execute] gives the file back under its name. *)
Lemma setupAndCases_filename (ts : TestSuite World) log parallel tf rootDir w :
  filename (snd (fst (setupAndCases ts log parallel tf rootDir w))) = filename tf.
Proof.
  unfold setupAndCases.
  destruct (match Setup ts with
            | Some setup => inFile tf (str ": calling Setup: ") (setup rootDir) w
            | None => (Ok tt, w)
            end) as [r w1].
  destruct r; try reflexivity.
  destruct (executeCases ts log parallel (cases tf) w1) as [[r cs] w2].
  now destruct r.
Qed.

Definition keepsName (tf : testFile)
    (body : World -> result unit * testFile * World) : Prop :=
  forall w, filename (snd (fst (body w))) = filename tf.

Lemma keepsName_step {A} tf (c : io World A) k :
  (forall a, keepsName tf (k a)) -> keepsName tf (step tf c k).
Proof.
  intros Hk w. unfold step. destruct (c w) as [[a|e|m] w1]; try reflexivity.
  apply Hk.
Qed.

Lemma keepsName_deferringF {B} tf (d : io World B) body :
  keepsName tf body -> keepsName tf (deferringF d body).
Proof.
  intros Hb w. unfold deferringF. specialize (Hb w).
  now destruct (body w) as [[r tf1] w1].
Qed.

Lemma keepsName_keepOrRemove ts tf rootDir rest :
  keepsName tf rest -> keepsName tf (keepOrRemove ts tf rootDir rest).
Proof.
  intros Hr. unfold keepOrRemove. destruct (KeepRootDirs ts).
  - intros w. apply Hr.
  - now apply keepsName_deferringF.
Qed.

Lemma execute_filename (ts : TestSuite World) log parallel tf w :
  filename (snd (fst (execute ts log parallel tf w))) = filename tf.
Proof.
  unfold execute. destruct parallel; cbn [negb].
  - apply setupAndCases_filename.
  - revert w. change (keepsName tf
      (step tf (inFile tf (str ": ") (TempDir [] (str "cmdtest"))) (fun rootDir =>
       keepOrRemove ts tf rootDir (
       step tf (inFile tf (str ": ") (Setenv (str "ROOTDIR") rootDir)) (fun _ =>
       deferringF (Unsetenv (str "ROOTDIR")) (
       step tf (inFile tf (str ": ") Getwd) (fun cwd =>
       step tf (copyIfPresent tf rootDir) (fun _ =>
       step tf (inFile tf (str ": ") (Chdir rootDir)) (fun _ =>
       deferringF (Chdir cwd) (
       setupAndCases ts log false tf rootDir)))))))))).
    apply keepsName_step. intros rootDir. apply keepsName_keepOrRemove.
    apply keepsName_step. intros _. apply keepsName_deferringF.
    apply keepsName_step. intros cwd. apply keepsName_step. intros _.
    apply keepsName_step. intros _. apply keepsName_deferringF.
    intros w. apply setupAndCases_filename.
Qed.

(** C6, amended: the subtest that updates a file writes the new text to a
    temporary file and replaces the file by it with one call of [Rename].
    Let [orig] be the content of the file before the run, which the
    commands of the file leave as it is.  When the subtest reports nothing,
    the file has the new text and no other file has changed.  When it
    reports one failure (of the execution, of the creation of the temporary
    file, of a write, or of the replacement), every file is as the
    execution left it: the file has [orig] and the temporary file is gone.
    When [Cleanup] fails too, which the subtest reports as a second
    failure, the file still has [orig], and the temporary file may be
    left. *)
Theorem C6_update_replaces_or_leaves (ts : TestSuite World) (parallel : bool)
    (tf : testFile) (w : World) (orig : gostring) :
  content w (filename tf) = Some orig ->
  content (snd (execute ts noopLogger parallel tf w)) (filename tf) = Some orig ->
  let tfE := snd (fst (execute ts noopLogger parallel tf w)) in
  let wE := snd (execute ts noopLogger parallel tf w) in
  let w' := snd (updateFile ts parallel tf w) in
  match fst (fst (updateFile ts parallel tf w)) with
  | Ok [] =>
    content w' (filename tf) = Some (fileText tfE) /\
    forall p, p <> filename tf -> content w' p = content wE p
  | Ok [_] => forall p, content w' p = content wE p
  | _ => content w' (filename tf) = Some orig
  end.
Proof.
  intros _ Horig tfE wE w'. subst tfE wE w'. revert Horig.
  pose proof (execute_filename ts noopLogger parallel tf w) as Hfn.
  unfold updateFile, updateToTemp.
  destruct (execute ts noopLogger parallel tf w) as [[rE tfE] wE] eqn:Hexec.
  cbn [fst snd] in *. intros Horig.
  destruct rE as [[]|e|m]; [|cbn; reflexivity | cbn; exact Horig].
  unfold createTempFile, bind. rewrite Hfn.
  destruct (TempFile [] (Base (filename tf)) wE) as [rT wT] eqn:HT.
  destruct rT as [f0|e|m].
  2:{ cbn. intros p. eapply TempFile_failed; [exact HT | discriminate]. }
  2:{ cbn. rewrite (TempFile_failed _ _ _ _ _ HT) by discriminate. exact Horig. }
  destruct (TempFile_new _ _ _ _ _ HT) as [Hfresh [Hempty HTother]].
  assert (Hne : filename tf <> Name f0) by (intros E; rewrite E in Horig; congruence).
  unfold ret. cbn [tmpFile].
  destruct (write (wr := File_Writer f0) tfE wT) as [rW wW] eqn:HW.
  destruct (write_writes f0 tfE _ _ _ HW) as [HWother HWdone].
  set (t := {| tmpFile := f0; path := filename tf; closed := false; done := false |}).
  assert (HwWE : forall p, p <> Name f0 -> content wW p = content wE p).
  { intros p Hp. now rewrite HWother, HTother. }
  (* what is left after Cleanup on a temporary file that is still there *)
  assert (Hclean : forall t1 w1 msg,
    tmpFile t1 = f0 -> done t1 = false ->
    (forall p, p <> Name f0 -> content w1 p = content wE p) ->
    match fst (fst (match Cleanup t1 w1, (Ok [msg] : result (list report)) with
                    | (Err e, w2), Ok msgs => (Ok (msgs ++ [reportError e]), tfE, w2)
                    | (_, w2), _ => (Ok [msg], tfE, w2)
                    end)) with
    | Ok [] =>
      content (snd (match Cleanup t1 w1, (Ok [msg] : result (list report)) with
                    | (Err e, w2), Ok msgs => (Ok (msgs ++ [reportError e]), tfE, w2)
                    | (_, w2), _ => (Ok [msg], tfE, w2)
                    end)) (filename tf) = Some (fileText tfE) /\
      forall p, p <> filename tf ->
        content (snd (match Cleanup t1 w1, (Ok [msg] : result (list report)) with
                      | (Err e, w2), Ok msgs => (Ok (msgs ++ [reportError e]), tfE, w2)
                      | (_, w2), _ => (Ok [msg], tfE, w2)
                      end)) p = content wE p
    | Ok [_] =>
      forall p,
        content (snd (match Cleanup t1 w1, (Ok [msg] : result (list report)) with
                      | (Err e, w2), Ok msgs => (Ok (msgs ++ [reportError e]), tfE, w2)
                      | (_, w2), _ => (Ok [msg], tfE, w2)
                      end)) p = content wE p
    | _ =>
      content (snd (match Cleanup t1 w1, (Ok [msg] : result (list report)) with
                    | (Err e, w2), Ok msgs => (Ok (msgs ++ [reportError e]), tfE, w2)
                    | (_, w2), _ => (Ok [msg], tfE, w2)
                    end)) (filename tf) = Some orig
    end).
  { intros t1 w1 msg Ht1 Hd1 Hw1.
    destruct (Cleanup t1 w1) as [rc wc] eqn:Hc.
    destruct (Cleanup_spec _ _ _ _ Hc Hd1) as [Hother [Hnp Hgone]].
    rewrite Ht1 in Hother, Hgone.
    destruct rc as [[]|e|m]; [| |now elim (Hnp m)]; cbn.
    - intros p. destruct (decide (p = Name f0)) as [->|Hp].
      + rewrite Hgone by discriminate. now rewrite Hfresh.
      + now rewrite Hother, Hw1.
    - rewrite Hother, Hw1 by (intros E; now apply Hne). exact Horig. }
  destruct rW as [[]|e|m].
  - (* the text is written *)
    destruct (CloseAtomicallyReplace t wW) as [[rR t'] wR] eqn:HR.
    destruct (CloseAtomicallyReplace_spec _ _ _ _ _ HR) as [Ht' [Hnp Hres]].
    unfold t in Ht', Hres. cbn [tmpFile path done] in Ht', Hres.
    destruct rR as [[]|e|m]; [| |now elim (Hnp m)].
    + destruct Hres as [Hdone [Hnew [Hold Hother]]].
      unfold Cleanup. rewrite Hdone. unfold ret. cbn. split.
      * rewrite Hnew. rewrite (HWdone eq_refl [] Hempty). reflexivity.
      * intros p Hp. destruct (decide (p = Name f0)) as [->|Hp0].
        -- rewrite Hold by (intros E; now apply Hne). now rewrite Hfresh.
        -- now rewrite Hother, HwWE.
    + destruct Hres as [Hdone Hsame].
      apply (Hclean t' wR (reportError e)); [exact Ht' | exact Hdone |].
      intros p Hp. now rewrite Hsame, HwWE.
  - (* a write failed *)
    apply (Hclean t wW (reportError e)); [reflexivity | reflexivity | exact HwWE].
  - (* a write panicked *)
    cbn. rewrite HwWE by (intros E; now apply Hne). exact Horig.
Qed.

End Update.

(** ** The files of the simulated system *)

Lemma attempt_spec e w r w' :
  Sim.attempt e w = (r, w') ->
  Sim.fs w' = Sim.fs w /\ Sim.names w' = Sim.names w /\ (r = Ok tt \/ r = Err e).
Proof.
  unfold Sim.attempt. destruct (Sim.faults w) as [|[] rest]; intros [= <- <-];
    cbn; auto.
Qed.

Lemma exists_spec p w r w' :
  Sim.exists_ p w = (r, w') ->
  w' = w /\ ((r = Ok tt /\ Sim.fs w !! p <> None) \/ r = Err Sim.ENOENT).
Proof.
  unfold Sim.exists_. destruct (Sim.fs w !! p); intros [= <- <-];
    (split; [reflexivity|]); [left | now right].
  split; [reflexivity | discriminate].
Qed.

(** A call of the simulated system that begins with [attempt]. *)
Ltac sim_attempt H :=
  unfold bind in H;
  match type of H with
  | context [Sim.attempt ?e ?w] =>
    let r := fresh "ra" in let wa := fresh "wa" in
    let Ha := fresh "Ha" in let Hfs := fresh "Hfs" in
    let Hnames := fresh "Hnames" in let Hr := fresh "Hr" in
    destruct (Sim.attempt e w) as [r wa] eqn:Ha;
    apply attempt_spec in Ha as [Hfs [Hnames [Hr | Hr]]]; subst r
  end.

(** The lookup that decides the [match] of [H]. *)
Ltac sim_lookup H Hl :=
  match type of H with
  | context [match ?x with Some _ => _ | None => _ end] => destruct x eqn:Hl
  end.

Ltac sim_exists H :=
  match type of H with
  | context [Sim.exists_ ?p ?w] =>
    let r := fresh "rx" in let wx := fresh "wx" in
    let Hx := fresh "Hx" in let Hw := fresh "Hw" in
    let Hr := fresh "Hr" in let Hin := fresh "Hin" in
    destruct (Sim.exists_ p w) as [r wx] eqn:Hx;
    apply exists_spec in Hx as [Hw [[Hr Hin] | Hr]]; subst r wx
  end.

#[global, refine] Instance Sim_FileSystem : FileSystem Sim.World :=
  {| content := fun w p => Sim.fs w !! p |}.
Proof.
  - (* TempFile_new *)
    intros dir pattern w f w' H. cbn [TempFile Sim.Sim_OS] in H. sim_attempt H;
      [|discriminate].
    unfold Sim.nextName in H.
    destruct (Sim.names wa) as [|n rest]; cbn [Sim.fs Sim.setNames] in H.
    + sim_lookup H Hl; [discriminate|].
      injection H as <- <-. cbn [Name Sim.Sim_OS Sim.fs Sim.setFs].
      rewrite <- Hfs. split; [exact Hl|]. split; [apply lookup_insert_eq|].
      intros p Hp. now apply lookup_insert_ne.
    + sim_lookup H Hl; [discriminate|].
      injection H as <- <-. cbn [Name Sim.Sim_OS Sim.fs Sim.setFs Sim.setNames].
      rewrite <- Hfs. split; [exact Hl|]. split; [apply lookup_insert_eq|].
      intros p Hp. now apply lookup_insert_ne.
  - (* TempFile_failed *)
    intros dir pattern w r w' H Hr p. cbn [TempFile Sim.Sim_OS] in H. sim_attempt H.
    + unfold Sim.nextName in H.
      destruct (Sim.names wa) as [|n rest]; cbn [Sim.fs Sim.setNames] in H.
      * sim_lookup H Hl; injection H as <- <-;
          [now rewrite Hfs | now elim (Hr (str "/tmp/" ++ pattern))].
      * sim_lookup H Hl; injection H as <- <-;
          [cbn [Sim.fs Sim.setNames]; now rewrite Hfs
          | now elim (Hr (str "/tmp/" ++ pattern ++ n))].
    + injection H as <- <-. now rewrite Hfs.
  - (* FileWrite_other *)
    intros f data w r w' H p Hp. cbn [FileWrite Name Sim.Sim_OS] in *.
    destruct (Sim.attempt Sim.EIO w) as [ra wa] eqn:Ha.
    apply attempt_spec in Ha as [Hfs [_ [-> | ->]]]; injection H as <- <-;
      cbn [Sim.fs Sim.setFs]; rewrite lookup_insert_ne by congruence; now rewrite Hfs.
  - (* FileWrite_done *)
    intros f data w w' old H Hold. cbn [FileWrite Name Sim.Sim_OS] in *.
    destruct (Sim.attempt Sim.EIO w) as [ra wa] eqn:Ha.
    apply attempt_spec in Ha as [Hfs [_ [-> | ->]]]; [|discriminate].
    injection H as <-. cbn [Sim.fs Sim.setFs]. rewrite lookup_insert_eq.
    match goal with
    | |- context [default [] ?x] =>
      replace x with (Some old) by (symmetry; rewrite Hfs; exact Hold)
    end.
    reflexivity.
  - (* Sync_content *)
    intros f w r w' H p. cbn [Sync Sim.Sim_OS] in H.
    apply attempt_spec in H as [Hfs _]. now rewrite Hfs.
  - (* Close_content *)
    intros f w r w' H p. cbn [Close Sim.Sim_OS] in H.
    apply attempt_spec in H as [Hfs _]. now rewrite Hfs.
  - (* Remove_done *)
    intros path w w' H. cbn [Remove Sim.Sim_OS] in H. sim_attempt H; [|discriminate].
    unfold bind in H. sim_exists H; [|discriminate].
    injection H as <-. cbn [Sim.fs Sim.setFs]. rewrite <- Hfs. split.
    + apply lookup_delete_eq.
    + intros p Hp. now apply lookup_delete_ne.
  - (* Remove_failed *)
    intros path w r w' H Hr p. cbn [Remove Sim.Sim_OS] in H. sim_attempt H.
    + unfold bind in H. sim_exists H.
      * injection H as <- <-. now elim Hr.
      * injection H as <- <-. now rewrite Hfs.
    + injection H as <- <-. now rewrite Hfs.
  - (* Rename_done *)
    intros old new w w' H. cbn [Rename Sim.Sim_OS] in H. sim_attempt H; [|discriminate].
    unfold bind in H. sim_exists H; [|discriminate].
    injection H as <-. cbn [Sim.fs Sim.setFs]. rewrite <- Hfs.
    destruct (Sim.fs wa !! old) as [v|] eqn:Hv; [|congruence]. cbn [default].
    split; [apply lookup_insert_eq|]. split.
    + intros Hne. rewrite lookup_insert_ne by congruence. apply lookup_delete_eq.
    + intros p Hp1 Hp2. rewrite lookup_insert_ne by congruence.
      now apply lookup_delete_ne.
  - (* Rename_failed *)
    intros old new w r w' H Hr p. cbn [Rename Sim.Sim_OS] in H. sim_attempt H.
    + unfold bind in H. sim_exists H.
      * injection H as <- <-. now elim Hr.
      * injection H as <- <-. now rewrite Hfs.
    + injection H as <- <-. now rewrite Hfs.
  - (* Sync_returns *)
    intros f w m. cbn [Sync Sim.Sim_OS].
    destruct (Sim.attempt Sim.EIO w) as [r w'] eqn:Ha.
    apply attempt_spec in Ha as [_ [_ [-> | ->]]]; discriminate.
  - (* Close_returns *)
    intros f w m. cbn [Close Sim.Sim_OS].
    destruct (Sim.attempt Sim.EIO w) as [r w'] eqn:Ha.
    apply attempt_spec in Ha as [_ [_ [-> | ->]]]; discriminate.
  - (* Remove_returns *)
    intros path w m. cbn [Remove Sim.Sim_OS]. unfold bind.
    destruct (Sim.attempt Sim.EIO w) as [r wa] eqn:Ha.
    apply attempt_spec in Ha as [_ [_ [-> | ->]]]; [|discriminate].
    destruct (Sim.exists_ path wa) as [rx wx] eqn:Hx.
    apply exists_spec in Hx as [_ [[-> _] | ->]]; discriminate.
  - (* Rename_returns *)
    intros old new w m. cbn [Rename Sim.Sim_OS]. unfold bind.
    destruct (Sim.attempt Sim.EIO w) as [r wa] eqn:Ha.
    apply attempt_spec in Ha as [_ [_ [-> | ->]]]; [|discriminate].
    destruct (Sim.exists_ old wa) as [rx wx] eqn:Hx.
    apply exists_spec in Hx as [_ [[-> _] | ->]]; discriminate.
Defined.

(** A world with the file [passing.ct] in it, and a schedule of faults. *)
Definition passing_text : gostring := unlines [str "$ echo b"; str "old"].

Definition updating (faults : list bool) : Sim.World :=
  Sim.setFaults (Sim.setFs Sim.world0 (<[str "passing.ct" := passing_text]> ∅)) faults.

(** C6, as stated, fails when [Cleanup] fails too.  In this run of the
    subtest the temporary file is created, the first write to it fails, and
    then [os.Remove] fails in [Cleanup]: the subtest reports both errors,
    the file is as it was, and the temporary file, which was not there
    before, is left with the part that was written. *)
Lemma C6_temporary_file_left :
  let w := updating [false; true; false; true] in
  let run := updateFile (Sim.suite [passing_ct]) true passing_ct w in
  fst (fst run) = Ok [reportError Sim.EIO; reportError Sim.EIO] /\
  content w (str "/tmp/passing.ct") = None /\
  content (snd run) (str "/tmp/passing.ct") = Some (str "$ ec") /\
  content (snd run) (str "passing.ct") = Some passing_text.
Proof. repeat split; vm_compute; reflexivity. Qed.

(** C6 on the simulated system: a run in which a write fails and [Cleanup]
    works leaves every file as it was; a run without faults leaves the new
    text in the file. *)
Lemma C6_update_replaces_or_leaves_witness :
  (forall p,
     content (snd (updateFile (Sim.suite [passing_ct]) true passing_ct
                     (updating [false; true]))) p
     = content (snd (execute (Sim.suite [passing_ct]) noopLogger true passing_ct
                       (updating [false; true]))) p) /\
  content (snd (updateFile (Sim.suite [passing_ct]) true passing_ct (updating [])))
          (str "passing.ct")
    = Some (unlines [str "$ echo b"; str "b"]).
Proof.
  split.
  - pose proof (C6_update_replaces_or_leaves (Sim.suite [passing_ct]) true passing_ct
                  (updating [false; true]) passing_text eq_refl eq_refl) as H.
    vm_compute in H. vm_compute. exact H.
  - pose proof (C6_update_replaces_or_leaves (Sim.suite [passing_ct]) true passing_ct
                  (updating []) passing_text eq_refl eq_refl) as H.
    vm_compute in H. destruct H as [H _]. vm_compute. exact H.
Defined.

(** * Further properties *)

(** ** The failures of [readFile] *)

(** A line without the marker in front. *)
Definition noCommand (l : gostring) : Prop :=
  strings.HasPrefix l (str "$") = false.

(** A line that [readFile] refuses before the first command: it has no
    marker and, trimmed, it is neither empty nor a comment. *)
Definition badLine (l : gostring) : Prop :=
  noCommand l /\ ~ ignorable (strings.TrimSpace l).

Lemma ignorable_test (l : gostring) :
  match l with [] => true | c :: _ => Ascii.eqb c "#" end = true <-> ignorable l.
Proof.
  unfold ignorable. destruct l as [|c t].
  - split; auto.
  - rewrite Ascii.eqb_eq. split.
    + intros ->. right. eauto.
    + intros [H | [t' H]]; [discriminate | congruence].
Qed.

Lemma readLines_app l1 : forall l2 r,
  readLines r (l1 ++ l2)
    = match readLines r l1 with
      | Ok r' => readLines r' l2
      | Err e => Err e
      | Panic m => Panic m
      end.
Proof.
  induction l1 as [|l l1 IH]; intros l2 r; cbn [app readLines]; [reflexivity|].
  destruct (readLine r l); [apply IH | reflexivity | reflexivity].
Qed.

(** After the first command every line is taken. *)
Lemma readLine_after_command r line :
  readerOk r -> r_state r <> beforeFirstCommand ->
  exists r', readLine r line = Ok r' /\ r_state r' <> beforeFirstCommand
             /\ filename (r_tf r') = filename (r_tf r).
Proof.
  intros [Hc Hg Hs Hb Ho] Hst. destruct (Ho Hst) as [tc [Htc _]].
  unfold readLine. rewrite Htc.
  destruct (r_state r); [congruence| |].
  - destruct (strings.HasPrefix line (str "$")); eexists; (split; [reflexivity|]);
      cbn; split; congruence.
  - destruct (strings.HasPrefix line (str "$")).
    + unfold addCase. eexists. split; [reflexivity|]. cbn. split; congruence.
    + eexists. split; [reflexivity|]. cbn. split; congruence.
Qed.

Lemma readLines_after_command lines : forall r,
  readerOk r -> r_state r <> beforeFirstCommand ->
  exists r', readLines r lines = Ok r' /\ r_state r' <> beforeFirstCommand.
Proof.
  induction lines as [|l rest IH]; intros r Hok Hst; cbn [readLines].
  - eauto.
  - destruct (readLine_after_command r l Hok Hst) as [r1 [Hl [Hst1 _]]].
    rewrite Hl. apply IH; [eapply readLine_ok; eauto | exact Hst1].
Qed.

(** The lines up to the first command: the first bad line, if there is
    one, ends the reading. *)
Lemma readLines_before lines : forall r,
  readerOk r -> r_state r = beforeFirstCommand ->
  (exists n line,
     lines !! n = Some line /\ Forall noCommand (take n lines) /\
     Forall (fun l => ~ badLine l) (take n lines) /\ badLine line /\
     readLines r lines
       = Err (ErrBadLine (filename (r_tf r)) (r_lineno r + Z.of_nat n + 1)
                (strings.TrimSpace line)))
  \/ ((forall n line, lines !! n = Some line -> Forall noCommand (take n lines) ->
                      ~ badLine line) /\
      exists r', readLines r lines = Ok r').
Proof.
  induction lines as [|l rest IH]; intros r Hok Hst.
  - right. split; [intros n line Hn; now rewrite lookup_nil in Hn | cbn; eauto].
  - cbn [readLines].
    destruct (strings.HasPrefix l (str "$")) eqn:Hcmd.
    + (* the first command *)
      right. split.
      * intros [|n] line Hn Hno.
        -- injection Hn as <-. intros [Hb _]. unfold noCommand in Hb. congruence.
        -- cbn [take] in Hno. apply Forall_cons in Hno as [Hl _].
           unfold noCommand in Hl. congruence.
      * assert (Hl : exists r1, readLine r l = Ok r1 /\ r_state r1 = inCommands).
        { unfold readLine. rewrite Hst, Hcmd. eauto. }
        destruct Hl as [r1 [Hl Hst1]]. rewrite Hl.
        destruct (readLines_after_command rest r1) as [r' [Hr' _]];
          [eapply readLine_ok; eauto | congruence | eauto].
    + destruct (match strings.TrimSpace l with
                | [] => true | c :: _ => Ascii.eqb c "#" end) eqn:Hig.
      * (* a blank line or a comment *)
        assert (Hl : exists r1, readLine r l = Ok r1 /\
                       r_state r1 = beforeFirstCommand /\
                       r_lineno r1 = (r_lineno r + 1)%Z /\
                       filename (r_tf r1) = filename (r_tf r)).
        { unfold readLine. rewrite Hst, Hcmd, Hig. eexists. split; [reflexivity|].
          cbn. auto. }
        destruct Hl as [r1 [Hl [Hst1 [Hno1 Hfn1]]]]. rewrite Hl.
        apply ignorable_test in Hig.
        destruct (IH r1) as [[n [line [Hn [Hnc [Hnb [Hbad Hr]]]]]] | [Hnone Hr]];
          [eapply readLine_ok; eauto | exact Hst1 | |].
        -- left. exists (S n), line. split; [exact Hn|]. cbn [take].
           split; [constructor; assumption|].
           split; [constructor; [intros [_ Hb]; auto | assumption]|].
           split; [exact Hbad|]. rewrite Hr, Hfn1, Hno1. do 2 f_equal. lia.
        -- right. split; [|exact Hr]. intros [|n] line Hn Hno.
           ++ injection Hn as <-. intros [_ Hb]. auto.
           ++ cbn [take] in Hno. apply Forall_cons in Hno as [_ Hno].
              eapply Hnone; eauto.
      * (* a bad line *)
        left. exists 0, l. split; [reflexivity|]. cbn [take].
        split; [constructor|]. split; [constructor|]. split.
        -- split; [exact Hcmd|]. intros Hi. apply ignorable_test in Hi. congruence.
        -- unfold readLine. rewrite Hst, Hcmd, Hig. do 2 f_equal. lia.
Qed.

(** The scanner has one error of its own. *)
Lemma scanFrom_error s : forall cur e,
  snd (bufio.scanFrom cur s) = Some e -> e = ErrTooLong.
Proof.
  induction s as [|c s IH]; intros cur e; cbn [bufio.scanFrom].
  - destruct cur; [discriminate|]. destruct (bufio.tooLong _); cbn; congruence.
  - destruct (Ascii.eqb c "010").
    + destruct (bufio.tooLong cur); [cbn; congruence|].
      destruct (bufio.scanFrom [] s) as [lines err] eqn:Hs. cbn. intros ->.
      apply (IH [] e). now rewrite Hs.
    + apply IH.
Qed.

(** What [readFile] returns for a file: the error of the first bad line
    before the first command, with the number of the line (the first line
    is line 1) and the line trimmed; without a bad line, the error of a
    line too long for the scanner; otherwise a test file.  It does not
    panic: a case is open whenever a line is added to one. *)
Theorem readFile_result (filename text : gostring) :
  let lines := fst (bufio.Scan text) in
  (exists n line,
     lines !! n = Some line /\ Forall noCommand (take n lines) /\
     Forall (fun l => ~ badLine l) (take n lines) /\ badLine line /\
     readFile filename text
       = Err (ErrBadLine filename (Z.of_nat n + 1) (strings.TrimSpace line)))
  \/ ((forall n line, lines !! n = Some line -> Forall noCommand (take n lines) ->
                      ~ badLine line) /\
      ((snd (bufio.Scan text) = Some ErrTooLong /\
        readFile filename text = Err ErrTooLong)
       \/ (snd (bufio.Scan text) = None /\
           exists tf, readFile filename text = Ok tf))).
Proof.
  unfold readFile. destruct (bufio.Scan text) as [lines scanErr] eqn:Hscan.
  cbn [fst snd].
  destruct (readLines_before lines (initReader filename) (initReader_ok filename)
              eq_refl)
    as [[n [line [Hn [Hnc [Hnb [Hbad Hr]]]]]] | [Hnone [r Hr]]].
  - left. exists n, line. rewrite Hr. cbn in *. auto.
  - right. split; [exact Hnone|]. rewrite Hr. unfold finishRead.
    destruct scanErr as [e|].
    + left. assert (e = ErrTooLong) as ->.
      { apply (scanFrom_error text []). unfold bufio.Scan in Hscan.
        now rewrite Hscan. }
      auto.
    + right. split; [reflexivity|].
      destruct (r_tc r) as [tc|]; [|eauto].
      destruct (addCase (r_tf r) tc). eauto.
Qed.

(** The file of the test, with a line of text before its first command:
    the line is refused, with its number. *)
Example readFile_bad_line :
  readFile (str "bad.ct") (unlines [str "# a comment"; str "  some text "; str "$ echo"])
    = Err (ErrBadLine (str "bad.ct") 2 (str "some text")).
Proof. vm_compute. reflexivity. Qed.

(** ** The cases that [readFile] returns *)

(** The commands of the case [tc] stand on the lines [startLine tc],
    [startLine tc + 1], ... of [lines] (the first line is line 1), each as
    the marker and the command, which is stored trimmed. *)
Definition commandsAt (lines : list gostring) (tc : testCase) : Prop :=
  (1 <= startLine tc)%Z /\
  forall i cmd, commands tc !! i = Some cmd ->
    exists line, lines !! (Z.to_nat (startLine tc) - 1 + i) = Some line /\
                 strings.HasPrefix line (str "$") = true /\
                 cmd = strings.TrimSpace (drop 1 line).

(** A case as [readFile] leaves it: it was not executed; the lines before
    its commands are blank lines and comments; no line of its output has the
    marker in front; and its output is empty or ends with a line that is
    neither empty nor a comment. *)
Definition asRead (tc : testCase) : Prop :=
  gotOutput tc = None /\
  Forall ignorable (before tc) /\
  Forall noCommand (wantOutput tc) /\
  (wantOutput tc = [] \/ exists l, last (wantOutput tc) = Some l /\ ~ ignorable l).

Lemma commandsAt_more lines l tc : commandsAt lines tc -> commandsAt (lines ++ [l]) tc.
Proof.
  intros [H1 Hat]. split; [exact H1|]. intros i cmd Hi.
  destruct (Hat i cmd Hi) as [line [Hl H]]. exists line. split; [|exact H].
  apply lookup_app_l_Some. exact Hl.
Qed.

(** The invariant of the reader, with the lines read so far. *)
Record readerAt (lines : list gostring) (r : reader) : Prop := {
  at_lineno : r_lineno r = Z.of_nat (length lines);
  at_cases : Forall (fun tc => commandsAt lines tc /\ asRead tc) (cases (r_tf r));
  at_prefix : r_state r = beforeFirstCommand -> Forall ignorable (r_prefix r);
  at_open : forall tc, r_tc r = Some tc ->
    commandsAt lines tc /\ gotOutput tc = None /\ Forall ignorable (before tc) /\
    Forall noCommand (wantOutput tc) /\
    (r_state r = inCommands ->
     Z.of_nat (length lines)
       = (startLine tc + Z.of_nat (length (commands tc)) - 1)%Z)
}.

Lemma initReader_at filename : readerAt [] (initReader filename).
Proof. split; cbn; auto; try constructor; discriminate. Qed.

(** The case that [addCase] adds and the suffix that it returns. *)
Lemma addCase_asRead lines tf tc tf' prefix' :
  addCase tf tc = (tf', prefix') ->
  Forall (fun tc => commandsAt lines tc /\ asRead tc) (cases tf) ->
  commandsAt lines tc -> gotOutput tc = None -> Forall ignorable (before tc) ->
  Forall noCommand (wantOutput tc) ->
  Forall (fun tc => commandsAt lines tc /\ asRead tc) (cases tf')
  /\ Forall ignorable prefix'.
Proof.
  unfold addCase. intros [= <- <-] Hcases Hat Hgot Hbefore Hout. cbn [cases].
  remember (firstIgnored (wantOutput tc) (length (wantOutput tc))) as i eqn:Hi.
  assert (Hle : i <= length (wantOutput tc)) by (subst i; apply firstIgnored_le).
  split.
  - apply Forall_app. split; [exact Hcases|]. constructor; [|constructor].
    split; [exact Hat|]. unfold asRead. cbn.
    split; [exact Hgot|]. split; [exact Hbefore|].
    split; [now apply Forall_take|].
    pose proof (firstIgnored_last (wantOutput tc) (length (wantOutput tc))) as Hfl.
    rewrite <- Hi in Hfl. destruct Hfl as [H0 | [l [Hpos [Hl Ho]]]].
    + left. now rewrite H0.
    + right. exists l. split; [|now apply isOutputLine_true].
      rewrite last_lookup, length_take, Nat.min_l by exact Hle.
      replace (Nat.pred i) with (i - 1) by lia.
      apply lookup_take_Some. split; [exact Hl | lia].
  - pose proof (firstIgnored_suffix (wantOutput tc) (length (wantOutput tc))
                  (Nat.le_refl _)) as Hs.
    rewrite <- Hi in Hs. now rewrite take_ge in Hs.
Qed.

(** The case that a command line opens, and the case with a command line
    more. *)
Lemma commandsAt_first lines line prefix :
  strings.HasPrefix line (str "$") = true ->
  commandsAt (lines ++ [line])
    (addCommandLine (newCase (Z.of_nat (length lines) + 1) prefix) line).
Proof.
  intros Hcmd. split; [cbn; lia|]. cbn [addCommandLine newCase commands startLine app].
  intros i cmd Hi. apply list_lookup_singleton_Some in Hi as [-> <-].
  exists line. split; [|auto].
  replace (Z.to_nat (Z.of_nat (length lines) + 1) - 1 + 0) with (length lines) by lia.
  now rewrite lookup_app_r, Nat.sub_diag by lia.
Qed.

Lemma commandsAt_next lines line tc :
  strings.HasPrefix line (str "$") = true ->
  commandsAt lines tc ->
  Z.of_nat (length lines) = (startLine tc + Z.of_nat (length (commands tc)) - 1)%Z ->
  commandsAt (lines ++ [line]) (addCommandLine tc line).
Proof.
  intros Hcmd [H1 Hat] Hpos. split; [exact H1|].
  cbn [addCommandLine commands startLine]. intros i cmd Hi.
  apply lookup_app_Some in Hi as [Hi | [Hge Hi]].
  - destruct (Hat i cmd Hi) as [l [Hl H]]. exists l.
    split; [now apply lookup_app_l_Some | exact H].
  - apply list_lookup_singleton_Some in Hi as [Hk <-]. exists line. split; [|auto].
    replace (Z.to_nat (startLine tc) - 1 + i) with (length lines) by lia.
    now rewrite lookup_app_r, Nat.sub_diag by lia.
Qed.

Lemma readLine_at lines r line r' :
  readerOk r -> readerAt lines r -> readLine r line = Ok r' ->
  readerAt (lines ++ [line]) r'.
Proof.
  intros [Hc Hg Hs Hb Ho] [Hno Hcases Hprefix Hopen].
  assert (Hcases' : Forall (fun tc => commandsAt (lines ++ [line]) tc /\ asRead tc)
                      (cases (r_tf r))).
  { eapply Forall_impl; [exact Hcases|]. intros tc [H1 H2].
    split; [now apply commandsAt_more | exact H2]. }
  assert (Hlen : Z.of_nat (length (lines ++ [line])) = (r_lineno r + 1)%Z).
  { rewrite length_app. cbn. lia. }
  unfold readLine. rewrite Hno.
  destruct (r_state r) eqn:Hst.
  - (* before the first command *)
    destruct (Hb eq_refl) as [Htc Hnil].
    destruct (strings.HasPrefix line (str "$")) eqn:Hcmd.
    + intros [= <-]. split; cbn [r_lineno r_tf r_state r_tc r_prefix].
      * lia.
      * exact Hcases'.
      * discriminate.
      * intros tc [= <-]. split; [now apply commandsAt_first|].
        cbn. repeat split; auto; try constructor.
        intros _. rewrite length_app. cbn. lia.
    + destruct (match strings.TrimSpace line with
                | [] => true | c :: _ => Ascii.eqb c "#" end) eqn:Hig;
        [|discriminate].
      intros [= <-]. apply ignorable_test in Hig.
      split; cbn [r_lineno r_tf r_state r_tc r_prefix].
      * lia.
      * exact Hcases'.
      * intros _. apply Forall_app. split; auto.
      * intros tc Htc'. congruence.
  - (* in the commands *)
    destruct Ho as [tc [Htc _]]; [congruence|]. rewrite Htc.
    destruct (Hopen tc Htc) as [Hat [Hgot [Hbefore [Hout Hpos]]]].
    specialize (Hpos eq_refl).
    destruct (strings.HasPrefix line (str "$")) eqn:Hcmd; intros [= <-];
      split; cbn [r_lineno r_tf r_state r_tc r_prefix];
      try lia; try exact Hcases'; try discriminate.
    + intros tc' [= <-]. split; [now apply commandsAt_next|].
      cbn. repeat split; auto.
      intros _. rewrite !length_app. cbn. lia.
    + intros tc' [= <-]. split; [now apply commandsAt_more|]. cbn.
      split; [exact Hgot|]. split; [exact Hbefore|].
      split; [|discriminate].
      apply Forall_app. split; [exact Hout|]. constructor; [exact Hcmd | constructor].
  - (* in the output *)
    destruct Ho as [tc [Htc _]]; [congruence|]. rewrite Htc.
    destruct (Hopen tc Htc) as [Hat [Hgot [Hbefore [Hout _]]]].
    destruct (strings.HasPrefix line (str "$")) eqn:Hcmd.
    + destruct (addCase (r_tf r) tc) as [tf prefix] eqn:Hadd. intros [= <-].
      destruct (addCase_asRead (lines ++ [line]) _ _ _ _ Hadd Hcases'
                  (commandsAt_more _ _ _ Hat) Hgot Hbefore Hout) as [Hnew Hpre].
      split; cbn [r_lineno r_tf r_state r_tc r_prefix].
      * lia.
      * exact Hnew.
      * discriminate.
      * intros tc' [= <-]. split; [now apply commandsAt_first|].
        cbn. repeat split; auto; try constructor.
        intros _. rewrite length_app. cbn. lia.
    + intros [= <-]. split; cbn [r_lineno r_tf r_state r_tc r_prefix];
        try lia; try exact Hcases'; try discriminate.
      intros tc' [= <-]. split; [now apply commandsAt_more|]. cbn.
      split; [exact Hgot|]. split; [exact Hbefore|].
      split; [|discriminate].
      apply Forall_app. split; [exact Hout|]. constructor; [exact Hcmd | constructor].
Qed.

Lemma readLines_at rest : forall lines r r',
  readerOk r -> readerAt lines r -> readLines r rest = Ok r' ->
  readerOk r' /\ readerAt (lines ++ rest) r'.
Proof.
  induction rest as [|l rest IH]; intros lines r r' Hok Hat; cbn [readLines].
  - intros [= <-]. now rewrite app_nil_r.
  - destruct (readLine r l) as [r1| |] eqn:Hl; try discriminate.
    intros Hrest.
    replace (lines ++ l :: rest) with ((lines ++ [l]) ++ rest)
      by now rewrite <- app_assoc.
    eapply IH; [| |exact Hrest].
    + eapply readLine_ok; eauto.
    + eapply readLine_at; eauto.
Qed.

(** All of it for the file that [readFile] returns. *)
Lemma readFile_at filename text tf :
  readFile filename text = Ok tf ->
  Forall (fun tc => commandsAt (fst (bufio.Scan text)) tc /\ asRead tc) (cases tf)
  /\ Forall ignorable (suffix tf).
Proof.
  unfold readFile. destruct (bufio.Scan text) as [lines scanErr]. cbn [fst].
  destruct (readLines (initReader filename) lines) as [r| |] eqn:Hr;
    try discriminate.
  destruct (readLines_at _ _ _ _ (initReader_ok filename) (initReader_at filename) Hr)
    as [[Hc Hg Hs Hb Ho] [Hno Hcases Hprefix Hopen]].
  cbn [app] in *. unfold finishRead. destruct scanErr; [discriminate|].
  destruct (r_tc r) as [tc|] eqn:Htc.
  - destruct (addCase (r_tf r) tc) as [tf' suffix'] eqn:Hadd. intros [= <-]. cbn.
    destruct (Hopen tc eq_refl) as [Hat [Hgot [Hbefore [Hout _]]]].
    eapply addCase_asRead; eauto.
  - intros [= <-]. split; [exact Hcases|]. rewrite Hs. constructor.
Qed.

(** The line numbers of a file read: the commands of every case stand on
    the lines from [startLine] on, one after the other, so that
    [startLine + i], the number that the errors of the command [i] of a case
    carry, is the number of the line of that command in the file. *)
Theorem readFile_line_numbers (filename text : gostring) (tf : testFile) :
  readFile filename text = Ok tf ->
  Forall (commandsAt (fst (bufio.Scan text))) (cases tf).
Proof.
  intros Hread. destruct (readFile_at _ _ _ Hread) as [H _].
  eapply Forall_impl; [exact H|]. now intros tc [Hat _].
Qed.

Lemma readFile_line_numbers_witness :
  exists tf,
    readFile (str "read.ct") (unlines read_ct) = Ok tf /\
    map startLine (cases tf) = [5; 11; 15; 18]%Z /\
    Forall (commandsAt (fst (bufio.Scan (unlines read_ct)))) (cases tf).
Proof.
  eexists. split; [vm_compute; reflexivity|]. split; [reflexivity|].
  apply (readFile_line_numbers (str "read.ct") (unlines read_ct)).
  vm_compute. reflexivity.
Defined.

(** The form of a file read: every case is as [asRead] says, and the
    lines after the last case are blank lines and comments.  So the output
    that a file expects never ends with a blank line or a comment, and has
    no line that begins with the marker. *)
Theorem readFile_form (filename text : gostring) (tf : testFile) :
  readFile filename text = Ok tf ->
  Forall asRead (cases tf) /\ Forall ignorable (suffix tf).
Proof.
  intros Hread. destruct (readFile_at _ _ _ Hread) as [H Hs]. split; [|exact Hs].
  eapply Forall_impl; [exact H|]. now intros tc [_ Has].
Qed.

Lemma readFile_form_witness :
  exists tf,
    readFile (str "read.ct") (unlines read_ct) = Ok tf /\
    map wantOutput (cases tf) = [[str "out1"; str "out2"]; []; [str "out3"]; [str "out4"]] /\
    suffix tf = [[]; []; str "# end"] /\
    Forall asRead (cases tf) /\ Forall ignorable (suffix tf).
Proof.
  eexists. split; [vm_compute; reflexivity|]. split; [reflexivity|].
  split; [reflexivity|].
  apply (readFile_form (str "read.ct") (unlines read_ct)).
  vm_compute. reflexivity.
Defined.

(** ** A file without a command *)

Lemma readLine_filename r line r' :
  readLine r line = Ok r' -> filename (r_tf r') = filename (r_tf r).
Proof.
  unfold readLine. destruct (r_state r).
  - destruct (strings.HasPrefix line (str "$")); [now intros [= <-]|].
    destruct (match strings.TrimSpace line with
              | [] => true | c :: _ => Ascii.eqb c "#" end);
      [now intros [= <-] | discriminate].
  - destruct (r_tc r); [|discriminate].
    destruct (strings.HasPrefix line (str "$")); now intros [= <-].
  - destruct (r_tc r); [|discriminate].
    destruct (strings.HasPrefix line (str "$")); now intros [= <-].
Qed.

Lemma readLines_filename lines : forall r r',
  readLines r lines = Ok r' -> filename (r_tf r') = filename (r_tf r).
Proof.
  induction lines as [|l rest IH]; intros r r'; cbn [readLines].
  - now intros [= <-].
  - destruct (readLine r l) as [r1| |] eqn:Hl; try discriminate.
    intros Hrest. rewrite (IH _ _ Hrest). eapply readLine_filename; eauto.
Qed.

Lemma noCommand_existsb lines :
  existsb (fun l => strings.HasPrefix l (str "$")) lines = false
  <-> Forall noCommand lines.
Proof.
  induction lines as [|l rest IH]; cbn [existsb].
  - split; [constructor | reflexivity].
  - rewrite orb_false_iff, IH. unfold noCommand at 2. split.
    + intros [H1 H2]. now constructor.
    + intros H. apply Forall_cons in H. exact H.
Qed.

(** A file has cases exactly when it has a command line.  Of a file
    without a command line nothing is kept: the blank lines and the comments
    that were read are in no case and not in the suffix, and [write] writes
    nothing for the file. *)
Theorem readFile_without_command (filename text : gostring) (tf : testFile) :
  readFile filename text = Ok tf ->
  (cases tf = [] <-> Forall noCommand (fst (bufio.Scan text))) /\
  (cases tf = [] ->
   tf = {| Cmdtest.filename := filename; cases := []; suffix := [] |} /\
   write tf [] = (Ok tt, [])).
Proof.
  unfold readFile. destruct (bufio.Scan text) as [lines scanErr]. cbn [fst].
  destruct (readLines (initReader filename) lines) as [r| |] eqn:Hr;
    try discriminate.
  pose proof (readLines_ok _ _ _ (initReader_ok filename) Hr) as [Hc Hg Hs Hb Ho].
  destruct (readLines_text _ _ _ (initReader_ok filename) Hr) as [_ Hseen].
  pose proof (readLines_filename _ _ _ Hr) as Hfn. cbn in Hfn.
  change (seenCommand (initReader filename)) with false in Hseen.
  rewrite orb_false_l in Hseen. rewrite <- noCommand_existsb, <- Hseen.
  unfold finishRead. destruct scanErr; [discriminate|].
  unfold seenCommand. destruct (r_state r) eqn:Hst.
  - destruct (Hb eq_refl) as [Htc Hnil]. rewrite Htc. intros [= <-].
    split; [tauto|]. intros _. split; [|unfold write, bind; now rewrite Hnil, Hs].
    destruct (r_tf r) as [fn cs sf]. cbn in *. congruence.
  - destruct Ho as [tc [Htc _]]; [congruence|]. rewrite Htc.
    unfold addCase. intros [= <-]. cbn [cases].
    split; [split; [intros H; now apply snoc_nonempty in H | discriminate]|].
    intros H. now apply snoc_nonempty in H.
  - destruct Ho as [tc [Htc _]]; [congruence|]. rewrite Htc.
    unfold addCase. intros [= <-]. cbn [cases].
    split; [split; [intros H; now apply snoc_nonempty in H | discriminate]|].
    intros H. now apply snoc_nonempty in H.
Qed.

Lemma readFile_without_command_witness :
  let text := unlines [str "# only comments"; []; str "  # and blank lines"] in
  exists tf,
    readFile (str "c.ct") text = Ok tf /\
    (cases tf = [] <-> Forall noCommand (fst (bufio.Scan text))) /\
    (cases tf = [] ->
     tf = {| filename := str "c.ct"; cases := []; suffix := [] |} /\
     write tf [] = (Ok tt, [])).
Proof.
  eexists. split; [vm_compute; reflexivity|].
  apply (readFile_without_command (str "c.ct")
           (unlines [str "# only comments"; []; str "  # and blank lines"])).
  vm_compute. reflexivity.
Defined.

(** ** A line too long for the scanner *)

Lemma scanFrom_unlines pre : forall rest,
  forallb cleanLine pre = true ->
  bufio.scanFrom [] (unlines pre ++ rest)
    = let '(lines, err) := bufio.scanFrom [] rest in (pre ++ lines, err).
Proof.
  induction pre as [|l pre IH]; intros rest Hall.
  - cbn. now destruct (bufio.scanFrom [] rest).
  - cbn [forallb] in Hall. apply andb_true_iff in Hall as [Hl Hpre].
    unfold cleanLine in Hl. apply andb_true_iff in Hl as [Hl Hlong].
    apply andb_true_iff in Hl as [Hnl Hcr].
    apply negb_true_iff in Hnl, Hcr, Hlong.
    unfold unlines in *. cbn [map concat]. rewrite <- !app_assoc.
    rewrite scanFrom_line by assumption. cbn [app]. rewrite Hlong, (IH _ Hpre).
    destruct (bufio.scanFrom [] rest) as [lines err]. cbn [app]. f_equal. f_equal.
    unfold bufio.dropCR. destruct (last l) as [c|] eqn:Hlast; [|reflexivity].
    destruct (Ascii.eqb c "013") eqn:Hc; [|reflexivity].
    apply Ascii.eqb_eq in Hc. subst c. apply bool_decide_eq_false in Hcr. congruence.
Qed.

Lemma scanFrom_last l : forall cur,
  existsb (Ascii.eqb "010") l = false ->
  bufio.scanFrom cur l
    = match cur ++ l with
      | [] => ([], None)
      | _ => if bufio.tooLong (cur ++ l) then ([], Some ErrTooLong)
             else ([bufio.dropCR (cur ++ l)], None)
      end.
Proof.
  induction l as [|c l IH]; intros cur Hnl.
  - rewrite app_nil_r. reflexivity.
  - cbn [existsb] in Hnl. apply orb_false_iff in Hnl as [Hc Hl].
    rewrite Ascii.eqb_sym in Hc. cbn [bufio.scanFrom]. rewrite Hc.
    rewrite IH by assumption. now rewrite <- app_assoc.
Qed.

(** A line of 64 KiB or more, with or without a newline after it, makes
    [readFile] fail with the error of the scanner, when the lines before it
    are read without an error: a test file cannot hold such a line, be it a
    line of expected output. *)
Theorem readFile_line_too_long
    (filename : gostring) (pre : list gostring) (long rest : gostring)
    (tf : testFile) :
  forallb cleanLine pre = true ->
  readFile filename (unlines pre) = Ok tf ->
  existsb (Ascii.eqb "010") long = false ->
  (bufio.MaxScanTokenSize <=? N.of_nat (length long))%N = true ->
  rest = [] \/ (exists rest', rest = newline ++ rest') ->
  readFile filename (unlines pre ++ long ++ rest) = Err ErrTooLong.
Proof.
  intros Hpre Hread Hnl Hlong Hrest. unfold readFile in *.
  rewrite (Scan_unlines _ Hpre) in Hread.
  unfold bufio.Scan. rewrite (scanFrom_unlines _ _ Hpre).
  assert (Hs : bufio.scanFrom [] (long ++ rest) = ([], Some ErrTooLong)).
  { destruct Hrest as [-> | [rest' ->]].
    - rewrite app_nil_r, scanFrom_last by assumption. cbn [app].
      unfold bufio.tooLong. rewrite Hlong.
      destruct long; [|reflexivity]. cbn in Hlong. discriminate.
    - rewrite scanFrom_line by assumption. cbn [app].
      unfold bufio.tooLong. now rewrite Hlong. }
  rewrite Hs, app_nil_r.
  destruct (readLines (initReader filename) pre) as [r| |]; try discriminate.
  reflexivity.
Qed.

Lemma readFile_line_too_long_witness :
  readFile (str "long.ct")
    (unlines [str "$ echo"] ++ repeat "a"%char (N.to_nat bufio.MaxScanTokenSize) ++ []) = Err ErrTooLong.
Proof.
  apply (readFile_line_too_long (str "long.ct") [str "$ echo"]
           (repeat "a"%char (N.to_nat bufio.MaxScanTokenSize)) []
           {| filename := str "long.ct";
              cases := [{| before := []; startLine := 1; commands := [str "echo"];
                           gotOutput := None; wantOutput := [] |}];
              suffix := [] |}).
  - vm_compute. reflexivity.
  - vm_compute. reflexivity.
  - vm_compute. reflexivity.
  - vm_compute. reflexivity.
  - left. reflexivity.
Defined.

(** ** The words of a command *)

Lemma expandLoop_returns lookup : forall n s sb m,
  length s < n -> expandLoop lookup sb s <> Panic m.
Proof.
  induction n as [|n IH]; intros s sb m Hn; [lia|].
  intros H. rewrite expandLoop_unfold in H.
  destruct (FindStringSubmatchIndex s) as [[[[i0 i1] i2] i3]|] eqn:Hf; [|discriminate].
  destruct (lookup (slice s i2 i3)); [|discriminate].
  apply IH in H; [exact H|]. apply expand_shrinks in Hf. lia.
Qed.

(** The words of a command are expanded one by one, each to one word:
    the value of a variable is never split into words, and an empty value
    leaves an empty word, so the command gets as many words as the line has.
    When a word refers to a variable that is not set, the error is that of
    the first such word.  The expansion does not panic. *)
Theorem expandArgs_word_by_word
    (args : list gostring) (lookup : gostring -> option gostring) :
  match expandArgs args lookup with
  | Ok args' =>
    length args' = length args /\
    Forall2 (fun a a' => expandVariables a lookup = Ok a') args args'
  | Err e =>
    exists i a, args !! i = Some a /\ expandVariables a lookup = Err e /\
                Forall (fun b => exists b', expandVariables b lookup = Ok b')
                       (take i args)
  | Panic _ => False
  end.
Proof.
  induction args as [|a rest IH]; cbn [expandArgs].
  - split; [reflexivity | constructor].
  - destruct (expandVariables a lookup) as [a'|e|m] eqn:Ha.
    + destruct (expandArgs rest lookup) as [rest'|e|m].
      * destruct IH as [Hlen Hall]. split; [cbn; now rewrite Hlen|].
        now constructor.
      * destruct IH as [i [b [Hi [Hb Hbefore]]]]. exists (S i), b.
        split; [exact Hi|]. split; [exact Hb|]. cbn [take].
        constructor; [eauto | exact Hbefore].
      * exact IH.
    + exists 0, a. split; [reflexivity|]. split; [exact Ha | constructor].
    + unfold expandVariables in Ha.
      now apply (expandLoop_returns lookup (S (length a))) in Ha; [|lia].
Qed.

(** A value with a space in it stays one word, and an empty value is a
    word. *)
Example expandArgs_values :
  let lookup name :=
    if bool_decide (name = str "V") then Some (str "a b")
    else if bool_decide (name = str "E") then Some [] else None in
  expandArgs (strings.Fields (str "echo ${V} ${E} x")) lookup
    = Ok [str "echo"; str "a b"; []; str "x"].
Proof. vm_compute. reflexivity. Qed.

(** ** What an execution changes in a file *)

(** The case [tc'] is the case [tc] but for the output that it got, and
    the same for the file [tf']. *)
Definition sameCase (tc tc' : testCase) : Prop :=
  before tc' = before tc /\ startLine tc' = startLine tc /\
  commands tc' = commands tc /\ wantOutput tc' = wantOutput tc.

Definition sameFile (tf tf' : testFile) : Prop :=
  filename tf' = filename tf /\ suffix tf' = suffix tf /\
  Forall2 sameCase (cases tf) (cases tf').

Lemma sameCase_refl tc : sameCase tc tc.
Proof. now repeat split. Qed.

Lemma sameCases_refl cs : Forall2 sameCase cs cs.
Proof. induction cs; constructor; auto using sameCase_refl. Qed.

Lemma sameFile_refl tf : sameFile tf tf.
Proof. repeat split. apply sameCases_refl. Qed.

Section Executing.
Context {World : Type} {os : OS World}.

Lemma executeCase_same (ts : TestSuite World) log parallel tc w :
  sameCase tc (snd (fst (executeCase ts log parallel tc w))).
Proof.
  unfold executeCase.
  destruct (executeCommands ts log (startLine (setGotOutput tc None)) 0
              (commands (setGotOutput tc None)) [] w) as [[allout|e|m] w1];
    [destruct (0 <? length allout)|..]; now repeat split.
Qed.

Lemma executeCases_same (ts : TestSuite World) log parallel cs : forall w,
  Forall2 sameCase cs (snd (fst (executeCases ts log parallel cs w))).
Proof.
  induction cs as [|tc rest IH]; intros w; cbn [executeCases]; [constructor|].
  pose proof (executeCase_same ts log parallel tc w) as Hc.
  destruct (executeCase ts log parallel tc w) as [[r tc'] w1]. cbn [fst snd] in Hc.
  destruct r as [[]|e|m].
  - specialize (IH w1).
    destruct (executeCases ts log parallel rest w1) as [[r rest'] w2].
    now constructor.
  - constructor; [exact Hc | apply sameCases_refl].
  - constructor; [exact Hc | apply sameCases_refl].
Qed.

Lemma setupAndCases_same (ts : TestSuite World) log parallel tf rootDir w :
  sameFile tf (snd (fst (setupAndCases ts log parallel tf rootDir w))).
Proof.
  unfold setupAndCases.
  destruct (match Setup ts with
            | Some setup => inFile tf (str ": calling Setup: ") (setup rootDir) w
            | None => (Ok tt, w)
            end) as [r w1].
  destruct r; try apply sameFile_refl.
  pose proof (executeCases_same ts log parallel (cases tf) w1) as Hcs.
  destruct (executeCases ts log parallel (cases tf) w1) as [[r cs] w2].
  cbn [fst snd] in Hcs. destruct r; now repeat split.
Qed.

(** What holds of the file that a part of [tf.execute] returns. *)
Definition returnsFile (P : testFile -> Prop)
    (body : World -> result unit * testFile * World) : Prop :=
  forall w, P (snd (fst (body w))).

Lemma returnsFile_step {A} P tf (c : io World A) k :
  P tf -> (forall a, returnsFile P (k a)) -> returnsFile P (step tf c k).
Proof.
  intros Htf Hk w. unfold step. destruct (c w) as [[a|e|m] w1]; try exact Htf.
  apply Hk.
Qed.

Lemma returnsFile_deferringF {B} P (d : io World B) body :
  returnsFile P body -> returnsFile P (deferringF d body).
Proof.
  intros Hb w. unfold deferringF. specialize (Hb w).
  now destruct (body w) as [[r tf1] w1].
Qed.

Lemma returnsFile_keepOrRemove P ts tf rootDir rest :
  returnsFile P rest -> returnsFile P (keepOrRemove ts tf rootDir rest).
Proof.
  intros Hr. unfold keepOrRemove. destruct (KeepRootDirs ts).
  - intros w. apply Hr.
  - now apply returnsFile_deferringF.
Qed.

Lemma execute_same (ts : TestSuite World) (log : Logger World)
    (parallel : bool) (tf : testFile) (w : World) :
  sameFile tf (snd (fst (execute ts log parallel tf w))).
Proof.
  unfold execute. destruct parallel; cbn [negb].
  - apply setupAndCases_same.
  - revert w. change (returnsFile (sameFile tf)
      (step tf (inFile tf (str ": ") (TempDir [] (str "cmdtest"))) (fun rootDir =>
       keepOrRemove ts tf rootDir (
       step tf (inFile tf (str ": ") (Setenv (str "ROOTDIR") rootDir)) (fun _ =>
       deferringF (Unsetenv (str "ROOTDIR")) (
       step tf (inFile tf (str ": ") Getwd) (fun cwd =>
       step tf (copyIfPresent tf rootDir) (fun _ =>
       step tf (inFile tf (str ": ") (Chdir rootDir)) (fun _ =>
       deferringF (Chdir cwd) (
       setupAndCases ts log false tf rootDir)))))))))).
    pose proof (sameFile_refl tf) as Hrefl.
    apply returnsFile_step; [exact Hrefl|]. intros rootDir.
    apply returnsFile_keepOrRemove.
    apply returnsFile_step; [exact Hrefl|]. intros _. apply returnsFile_deferringF.
    apply returnsFile_step; [exact Hrefl|]. intros cwd.
    apply returnsFile_step; [exact Hrefl|]. intros _.
    apply returnsFile_step; [exact Hrefl|]. intros _. apply returnsFile_deferringF.
    intros w. apply setupAndCases_same.
Qed.

(** An execution changes nothing in a file but the output that its cases
    got: the name of the file, its suffix, the number of its cases and, case
    by case, the lines before the commands, the line number, the commands
    and the expected output are after the run what they were before it,
    whatever the commands do and however the run ends. *)
Theorem execute_changes_output_only (ts : TestSuite World) (log : Logger World)
    (parallel : bool) (tf : testFile) (w : World) :
  let tf' := snd (fst (execute ts log parallel tf w)) in
  filename tf' = filename tf /\ suffix tf' = suffix tf /\
  length (cases tf') = length (cases tf) /\
  forall i tc tc', cases tf !! i = Some tc -> cases tf' !! i = Some tc' ->
    before tc' = before tc /\ startLine tc' = startLine tc /\
    commands tc' = commands tc /\ wantOutput tc' = wantOutput tc.
Proof.
  destruct (execute_same ts log parallel tf w) as [Hfn [Hsuf Hcases]].
  cbn zeta. split; [exact Hfn|]. split; [exact Hsuf|]. split.
  - symmetry. eapply Forall2_length; eauto.
  - intros i tc tc' Hi Hi'.
    exact (Forall2_lookup_lr _ _ _ _ _ _ Hcases Hi Hi').
Qed.

(** *** The output that a case gets *)

Lemma TrimRight_last s cutset :
  strings.TrimRight s cutset = []
  \/ exists c, last (strings.TrimRight s cutset) = Some c /\ c ∉ cutset.
Proof.
  induction s as [|c s IH]; cbn [strings.TrimRight]; [now left|].
  destruct (strings.TrimRight s cutset) as [|c' t] eqn:Ht.
  - destruct (bool_decide (c ∈ cutset)) eqn:Hc; [now left|].
    right. exists c. split; [reflexivity|]. now apply bool_decide_eq_false in Hc.
  - right. destruct IH as [H | [c0 [Hl Hc0]]]; [discriminate|].
    exists c0. split; [|exact Hc0]. rewrite <- Hl. reflexivity.
Qed.

Lemma Split_last s sep :
  exists l, last (strings.Split s sep) = Some l /\
            forall c, last s = Some c -> c <> sep -> last l = Some c.
Proof.
  induction s as [|c s IH]; cbn [strings.Split].
  - exists []. split; [reflexivity|]. discriminate.
  - destruct IH as [l [Hl Hc]].
    destruct (strings.Split s sep) as [|piece pieces] eqn:Hs; [discriminate|].
    destruct (Ascii.eqb c sep) eqn:Hsep.
    + apply Ascii.eqb_eq in Hsep. subst c. exists l. split; [exact Hl|].
      intros c Hlast Hne. apply Hc; [|exact Hne].
      destruct s as [|c1 s]; [cbn in Hlast; congruence | exact Hlast].
    + destruct pieces as [|p2 pieces].
      * cbn in Hl. injection Hl as <-. exists (c :: piece).
        split; [reflexivity|]. intros c0 Hlast Hne.
        destruct s as [|c1 s].
        -- cbn in Hs. injection Hs as <-. exact Hlast.
        -- specialize (Hc c0 Hlast Hne).
           destruct piece; [discriminate | exact Hc].
      * exists l. split; [exact Hl|]. intros c0 Hlast Hne. apply Hc; [|exact Hne].
        destruct s as [|c1 s]; [discriminate | exact Hlast].
Qed.

(** The output of a case that ran: nil, or the lines of the output without
    the white space at its end, of which the last is empty (the output was
    white space only) or ends with a byte that is no space, tab or
    newline. *)
Lemma executeCase_output (ts : TestSuite World) log parallel tc w tc' w' :
  executeCase ts log parallel tc w = (Ok tt, tc', w') ->
  gotOutput tc' = None
  \/ gotOutput tc' = Some [[]]
  \/ exists out l c, gotOutput tc' = Some out /\ last out = Some l /\
                     last l = Some c /\ c <> " "%char /\ c <> "009"%char.
Proof.
  unfold executeCase.
  destruct (executeCommands ts log (startLine (setGotOutput tc None)) 0
              (commands (setGotOutput tc None)) [] w) as [[allout|e|m] w1];
    try discriminate.
  destruct (0 <? length allout); [|intros [= <- <-]; now left].
  intros [= <- <-]. right. cbn [gotOutput setGotOutput].
  pose proof (TrimRight_last (if negb parallel
                              then scrub (Getenv (str "ROOTDIR") w1) allout
                              else allout) [" "; "009"; "010"]%char) as Ht.
  set (s := strings.TrimRight _ _) in *.
  destruct Ht as [Hnil | [c [Hlast Hc]]].
  - left. now rewrite Hnil.
  - right. destruct (Split_last s "010") as [l [Hl Hlc]].
    exists (strings.Split s "010"), l, c. split; [reflexivity|].
    split; [exact Hl|].
    assert (Hne : c <> "010"%char /\ c <> " "%char /\ c <> "009"%char).
    { repeat split; intros ->; apply Hc; set_solver. }
    destruct Hne as [H1 [H2 H3]]. auto.
Qed.

(** What passing takes.  A case of a file that [readFile] has read
    passes, once executed, only if its commands print nothing and the file
    expects nothing, or the output got is the output expected and its last
    line is not empty, is no comment, and ends with a byte that is no space
    and no tab.  So a case whose commands print white space only, or whose
    output ends with a comment line, or has a line with the marker in
    front, fails whatever the file says; and so does a case for which the
    file expects a last line with a space at its end. *)
Theorem passing_case (ts : TestSuite World) (log : Logger World) (parallel : bool)
    (filename text : gostring) (tf : testFile) (tc : testCase) (w : World)
    (tc' : testCase) (w' : World) :
  readFile filename text = Ok tf ->
  In tc (cases tf) ->
  executeCase ts log parallel tc w = (Ok tt, tc', w') ->
  sameOutput (wantOutput tc') (gotOutput tc') = true ->
  (gotOutput tc' = None /\ wantOutput tc = [])
  \/ (exists l c,
        gotOutput tc' = Some (wantOutput tc) /\
        Forall noCommand (wantOutput tc) /\
        last (wantOutput tc) = Some l /\ ~ ignorable l /\
        last l = Some c /\ c <> " "%char /\ c <> "009"%char).
Proof.
  intros Hread Hin Hexec Hsame.
  destruct (readFile_at _ _ _ Hread) as [Hcases _].
  rewrite Forall_forall in Hcases.
  destruct (Hcases tc) as [_ [_ [_ [Hno Hend]]]]; [now apply list_elem_of_In|].
  pose proof (executeCase_same ts log parallel tc w) as Hs.
  rewrite Hexec in Hs. cbn [fst snd] in Hs. destruct Hs as [_ [_ [_ Hwant]]].
  rewrite Hwant in Hsame. unfold sameOutput in Hsame.
  destruct (executeCase_output _ _ _ _ _ _ _ Hexec)
    as [Hg | [Hg | [out [l [c [Hg [Hl [Hc [Hsp Htab]]]]]]]]]; rewrite Hg in *.
  - left. split; [reflexivity|]. now apply bool_decide_eq_true in Hsame.
  - apply andb_true_iff in Hsame as [Heq _]. apply bool_decide_eq_true in Heq.
    rewrite <- Heq in Hend. destruct Hend as [H | [l [Hl Hi]]]; [discriminate|].
    cbn in Hl. injection Hl as <-. exfalso. apply Hi. now left.
  - apply andb_true_iff in Hsame as [Heq _]. apply bool_decide_eq_true in Heq.
    subst out. right. exists l, c. split; [reflexivity|]. split; [exact Hno|].
    split; [exact Hl|]. split; [|auto].
    destruct Hend as [H | [l' [Hl' Hi]]]; [rewrite H in Hl; discriminate|].
    congruence.
Qed.

End Executing.

(** On the simulated system: the case [$ echo hi] with the output [hi]
    passes, and its last line ends with the byte [i]. *)
Lemma passing_case_witness :
  let text := unlines [str "$ echo hi"; str "hi"] in
  let tc := {| before := []; startLine := 1; commands := [str "echo hi"];
               gotOutput := None; wantOutput := [str "hi"] |} in
  let run := executeCase (Sim.suite []) noopLogger true tc Sim.world0 in
  (gotOutput (snd (fst run)) = None /\ wantOutput tc = [])
  \/ (exists l c,
        gotOutput (snd (fst run)) = Some (wantOutput tc) /\
        Forall noCommand (wantOutput tc) /\
        last (wantOutput tc) = Some l /\ ~ ignorable l /\
        last l = Some c /\ c <> " "%char /\ c <> "009"%char).
Proof.
  intros text tc run.
  apply (passing_case (Sim.suite []) noopLogger true (str "t.ct") text
           {| filename := str "t.ct"; cases := [tc]; suffix := [] |}
           tc Sim.world0 (snd (fst run)) (snd run)).
  - vm_compute. reflexivity.
  - left. reflexivity.
  - vm_compute. reflexivity.
  - vm_compute. reflexivity.
Defined.

(** ** Updating a file that passes *)

Lemma caseTextGot_same tc tc' :
  sameCase tc tc' -> gotOutput tc = None ->
  sameOutput (wantOutput tc') (gotOutput tc') = true ->
  caseTextGot tc' = caseTextGot tc.
Proof.
  intros [Hb [_ [Hc Hw]]] Hgot Hsame. unfold caseTextGot.
  rewrite Hb, Hc, Hgot, <- Hw. do 2 f_equal.
  unfold sameOutput in Hsame. destruct (gotOutput tc') as [g|]; [|reflexivity].
  apply andb_true_iff in Hsame as [Heq _]. apply bool_decide_eq_true in Heq.
  now subst g.
Qed.

Section Passing.
Context {World : Type} {os : OS World}.

(** A file that passes is written back as it is.  When a file is in the
    form in which [write] leaves a file, and its execution ends without an
    error with every case having got the output that it expects, the text
    that [write] gives for the file after the run, which is the text an
    update puts in its place, is the text that was read, byte for byte. *)
Theorem passing_file_written_back (ts : TestSuite World) (log : Logger World)
    (parallel : bool) (filename : gostring) (lines : list gostring)
    (tf : testFile) (w : World) (tf' : testFile) (w' : World) :
  forallb cleanLine lines = true ->
  writtenForm lines = true ->
  readFile filename (unlines lines) = Ok tf ->
  execute ts log parallel tf w = (Ok tt, tf', w') ->
  Forall (fun tc => sameOutput (wantOutput tc) (gotOutput tc) = true) (cases tf') ->
  write tf' [] = (Ok tt, unlines lines).
Proof.
  intros Hclean Hform Hread Hexec Hpass.
  (* the text of the file as it was read *)
  assert (Htext : fileText tf = unlines lines).
  { destruct (write_readFile _ _ _ Hread) as [lines' [Hscan Hwrite]].
    rewrite (Scan_unlines _ Hclean) in Hscan. injection Hscan as <-.
    rewrite write_buffer in Hwrite. cbn [app] in Hwrite. injection Hwrite as ->.
    unfold writtenForm in Hform. apply andb_true_iff in Hform as [Hlines Hcmd].
    destruct (existsb _ lines) eqn:Hex.
    - now rewrite writtenLines_fixed.
    - rewrite orb_false_r in Hcmd. apply bool_decide_eq_true in Hcmd. now subst. }
  (* the run has changed no text *)
  pose proof (execute_same ts log parallel tf w) as Hsame.
  rewrite Hexec in Hsame. cbn [fst snd] in Hsame. destruct Hsame as [_ [Hsuf Hcases]].
  destruct (readFile_at _ _ _ Hread) as [Hread' _].
  rewrite write_buffer. cbn [app]. f_equal. rewrite <- Htext. unfold fileText.
  rewrite Hsuf. f_equal. f_equal.
  clear Htext Hsuf Hexec Hread. revert Hpass Hread'.
  induction Hcases as [|tc tc' cs cs' Hc Hcs IH]; intros Hpass Hread'; [reflexivity|].
  apply Forall_cons in Hpass as [Hp Hpass]. apply Forall_cons in Hread' as [Hr Hread'].
  cbn [map]. rewrite IH by assumption. f_equal.
  apply caseTextGot_same; [exact Hc | | exact Hp]. now destruct Hr as [_ [Hg _]].
Qed.

End Passing.

Lemma passing_file_written_back_witness :
  let lines := [str "# a test"; str "$ echo hi"; str "hi"; []; str "# the end"] in
  exists tf,
    readFile (str "t.ct") (unlines lines) = Ok tf /\
    write (snd (fst (execute (Sim.suite []) noopLogger true tf Sim.world0))) []
      = (Ok tt, unlines lines).
Proof.
  intros lines. eexists. split; [vm_compute; reflexivity|].
  match goal with
  | |- write (snd (fst (execute ?ts ?log ?par ?tf ?w))) [] = _ =>
    apply (passing_file_written_back ts log par (str "t.ct") lines tf w
             (snd (fst (execute ts log par tf w))) (snd (execute ts log par tf w)))
  end.
  - vm_compute. reflexivity.
  - vm_compute. reflexivity.
  - vm_compute. reflexivity.
  - vm_compute. reflexivity.
  - vm_compute. repeat constructor.
Defined.

(** ** Replacing the root directory *)

(** *** The first occurrence and [bytes.Replace] *)

Lemma occursAt_take sub s j :
  occursAt sub s j
  <-> j + length sub <= length s /\ take (length sub) (drop j s) = sub.
Proof.
  split.
  - intros [pre [post [-> <-]]]. split; [rewrite !length_app; lia|].
    rewrite drop_app_length. now rewrite take_app_length.
  - intros [Hle Ht]. exists (take j s), (drop (length sub) (drop j s)). split.
    + rewrite <- Ht at 1. now rewrite !take_drop.
    + rewrite length_take. lia.
Qed.

Lemma occursAt_app_l sub x y j : occursAt sub x j -> occursAt sub (x ++ y) j.
Proof.
  intros [pre [post [-> <-]]]. exists pre, (post ++ y). split; [|reflexivity].
  now rewrite <- !app_assoc.
Qed.

Lemma occursAt_app_r sub x y j :
  occursAt sub y j -> occursAt sub (x ++ y) (length x + j).
Proof.
  intros [pre [post [-> <-]]]. exists (x ++ pre), post. split.
  - now rewrite <- !app_assoc.
  - now rewrite length_app.
Qed.

Lemma occursAt_app_inv_l sub x y j :
  occursAt sub (x ++ y) j -> j + length sub <= length x -> occursAt sub x j.
Proof.
  rewrite !occursAt_take. intros [_ Ht] Hle. split; [exact Hle|].
  rewrite drop_app_le in Ht by lia.
  rewrite take_app_le in Ht; [exact Ht|]. rewrite length_drop. lia.
Qed.

Lemma occursAt_app_inv_r sub x y j :
  occursAt sub (x ++ y) j -> length x <= j -> occursAt sub y (j - length x).
Proof.
  rewrite !occursAt_take. intros [Hlen Ht] Hle. rewrite length_app in Hlen.
  split; [lia|]. now rewrite drop_app_ge in Ht by lia.
Qed.

Lemma occursAt_cons sub c s j : occursAt sub (c :: s) (S j) <-> occursAt sub s j.
Proof.
  split.
  - intros H. apply (occursAt_app_inv_r sub [c] s (S j)) in H; [|cbn; lia].
    cbn in H. now rewrite Nat.sub_0_r in H.
  - intros H. exact (occursAt_app_r sub [c] s j H).
Qed.

(** [strings.Index s sub] is [-1] when [sub] does not occur in [s], and
    otherwise the index of its first occurrence. *)
Lemma Index_spec sub s :
  (strings.Index s sub = (-1)%Z /\ forall j, ~ occursAt sub s j)
  \/ (exists k, strings.Index s sub = Z.of_nat k /\
                occursAt sub s k /\ forall j, occursAt sub s j -> k <= j).
Proof.
  induction s as [|c s IH].
  - cbn [strings.Index]. destruct (strings.HasPrefix [] sub) eqn:Hp.
    + right. exists 0. split; [reflexivity|]. split; [|intros; lia].
      apply occursAt_HasPrefix. split; [cbn; lia | exact Hp].
    + left. split; [reflexivity|]. intros j Hocc.
      apply occursAt_HasPrefix in Hocc as [Hj Hocc]. cbn in Hj.
      assert (j = 0) by lia. subst j. rewrite drop_0 in Hocc. congruence.
  - cbn [strings.Index]. destruct (strings.HasPrefix (c :: s) sub) eqn:Hp.
    + right. exists 0. split; [reflexivity|]. split; [|intros; lia].
      apply occursAt_HasPrefix. split; [cbn; lia | exact Hp].
    + destruct IH as [[Hm Hno] | [k [Hk [Hocc Hmin]]]].
      * left. rewrite Hm. split; [reflexivity|]. intros [|j] Hj.
        -- apply occursAt_HasPrefix in Hj as [_ Hj]. rewrite drop_0 in Hj. congruence.
        -- apply occursAt_cons in Hj. now apply (Hno j).
      * right. exists (S k). rewrite Hk.
        destruct (Z.ltb_spec (Z.of_nat k) 0) as [Hneg|_]; [lia|].
        split; [lia|]. split; [now apply occursAt_cons|]. intros [|j] Hj.
        -- apply occursAt_HasPrefix in Hj as [_ Hj]. rewrite drop_0 in Hj. congruence.
        -- apply occursAt_cons in Hj. apply Hmin in Hj. lia.
Qed.

Lemma replaceFrom_none n s old new :
  (forall j, ~ occursAt old s j) -> bytes.replaceFrom n s old new = s.
Proof.
  intros Hno. destruct n; cbn [bytes.replaceFrom]; [reflexivity|].
  destruct (Index_spec old s) as [[Hm _] | [k [_ [Hocc _]]]].
  - now rewrite Hm.
  - now elim (Hno k).
Qed.

Lemma replaceFrom_first n pre old post new :
  (forall j, occursAt old (pre ++ old ++ post) j -> length pre <= j) ->
  bytes.replaceFrom (S n) (pre ++ old ++ post) old new
    = pre ++ new ++ bytes.replaceFrom n post old new.
Proof.
  intros Hmin. cbn [bytes.replaceFrom].
  assert (Hhere : occursAt old (pre ++ old ++ post) (length pre)) by now exists pre, post.
  destruct (Index_spec old (pre ++ old ++ post)) as [[_ Hno] | [k [Hk [Hocc Hk']]]];
    [now elim (Hno (length pre))|].
  assert (k = length pre) as -> by (apply Hk' in Hhere; apply Hmin in Hocc; lia).
  rewrite Hk. destruct (Z.ltb_spec (Z.of_nat (length pre)) 0) as [Hneg|_]; [lia|].
  rewrite Nat2Z.id, take_app_length.
  replace (drop (length pre + length old) (pre ++ old ++ post)) with post;
    [reflexivity|].
  rewrite app_assoc, <- length_app. now rewrite drop_app_length.
Qed.

(** The loop ends before its steps are used up. *)
Lemma replaceFrom_steps old new : old <> [] -> forall n m s,
  length s <= n -> length s <= m ->
  bytes.replaceFrom n s old new = bytes.replaceFrom m s old new.
Proof.
  intros Hold. induction n as [|n IH]; intros m s Hn Hm.
  - destruct s; [|cbn in Hn; lia]. rewrite !replaceFrom_none; [reflexivity| |];
      intros j Hj; apply occursAt_bound in Hj; destruct old; cbn in Hj; [congruence|lia|congruence|lia].
  - destruct m as [|m].
    + destruct s; [|cbn in Hm; lia]. rewrite !replaceFrom_none; [reflexivity| |];
        intros j Hj; apply occursAt_bound in Hj; destruct old; cbn in Hj; [congruence|lia|congruence|lia].
    + cbn [bytes.replaceFrom].
      destruct (Index_spec old s) as [[Hi _] | [k [Hk [Hocc _]]]].
      * now rewrite Hi.
      * rewrite Hk. destruct (Z.ltb_spec (Z.of_nat k) 0) as [Hneg|_]; [lia|].
        apply occursAt_bound in Hocc. do 2 f_equal.
        assert (0 < length old) by (destruct old; [congruence | cbn; lia]).
        apply IH; rewrite length_drop; lia.
Qed.

Lemma Replace_replaceFrom s old new :
  old <> [] -> bytes.Replace s old new = bytes.replaceFrom (length s) s old new.
Proof. intros Hold. unfold bytes.Replace. destruct old; [congruence | reflexivity]. Qed.

Lemma Replace_none s old new :
  old <> [] -> (forall j, ~ occursAt old s j) -> bytes.Replace s old new = s.
Proof.
  intros Hold Hno. rewrite Replace_replaceFrom by exact Hold.
  now apply replaceFrom_none.
Qed.

Lemma Replace_first pre old post new :
  old <> [] ->
  (forall j, occursAt old (pre ++ old ++ post) j -> length pre <= j) ->
  bytes.Replace (pre ++ old ++ post) old new
    = pre ++ new ++ bytes.Replace post old new.
Proof.
  intros Hold Hmin. rewrite !Replace_replaceFrom by exact Hold.
  assert (Hlen : 0 < length old) by (destruct old; [congruence | cbn; lia]).
  assert (Hs : length (pre ++ old ++ post)
               = S (length pre + (length old - 1) + length post)).
  { rewrite !length_app. lia. }
  rewrite Hs, replaceFrom_first by exact Hmin. do 2 f_equal.
  apply replaceFrom_steps; [exact Hold | lia | lia].
Qed.

(** [bytes.Replace] works apart on the two sides of an index that no
    occurrence straddles. *)
Lemma Replace_app old new : old <> [] -> forall n x y,
  length x < n ->
  (forall j, occursAt old (x ++ y) j -> j + length old <= length x \/ length x <= j) ->
  bytes.Replace (x ++ y) old new = bytes.Replace x old new ++ bytes.Replace y old new.
Proof.
  intros Hold. induction n as [|n IH]; intros x y Hn Hcut; [lia|].
  assert (Hlen : 0 < length old) by (destruct old; [congruence | cbn; lia]).
  destruct (Index_spec old x) as [[_ Hnox] | [k [_ [[pre [post [-> <-]]] Hmin]]]].
  - rewrite (Replace_none x) by assumption.
    destruct (Index_spec old y) as [[_ Hnoy] | [k [_ [[pre [post [-> <-]]] Hmin]]]].
    + rewrite !Replace_none; try assumption; [reflexivity|].
      intros j Hj. destruct (Hcut j Hj) as [Hl | Hr].
      * apply (Hnox j). now apply occursAt_app_inv_l in Hj.
      * apply (Hnoy (j - length x)). now apply occursAt_app_inv_r.
    + rewrite (Replace_first pre) by assumption.
      replace (x ++ pre ++ old ++ post) with ((x ++ pre) ++ old ++ post) in *
        by now rewrite <- app_assoc.
      rewrite Replace_first; [now rewrite <- app_assoc | exact Hold |].
      intros j Hj. rewrite length_app.
      replace ((x ++ pre) ++ old ++ post) with (x ++ pre ++ old ++ post) in Hj
        by now rewrite <- app_assoc.
      destruct (Hcut j) as [Hl | Hr].
      * now rewrite <- app_assoc.
      * exfalso. apply (Hnox j). now apply occursAt_app_inv_l in Hj.
      * apply occursAt_app_inv_r in Hj; [|exact Hr]. apply Hmin in Hj. lia.
  - rewrite (Replace_first pre) by assumption.
    replace ((pre ++ old ++ post) ++ y) with (pre ++ old ++ (post ++ y)) in *
      by now rewrite <- !app_assoc.
    rewrite Replace_first; [|exact Hold|].
    + rewrite (IH post y); [now rewrite <- !app_assoc | |].
      * rewrite !length_app in Hn. lia.
      * intros j Hj.
        apply (occursAt_app_r old (pre ++ old)) in Hj.
        rewrite <- !app_assoc in Hj. apply Hcut in Hj.
        rewrite !length_app in Hj. lia.
    + intros j Hj. destruct (Hcut j Hj) as [Hl | Hr].
      * apply Hmin.
        replace (pre ++ old ++ post ++ y) with ((pre ++ old ++ post) ++ y) in Hj
          by now rewrite <- !app_assoc.
        now apply occursAt_app_inv_l in Hj.
      * rewrite !length_app in Hr. lia.
Qed.

(** *** [scrub] *)

(** The indices in [strings.Join pieces sep] at which the separators
    begin. *)
Fixpoint joints (sep : gostring) (pieces : list gostring) : list nat :=
  match pieces with
  | p :: rest =>
    match rest with
    | [] => []
    | _ :: _ =>
      length p :: map (fun j => length p + length sep + j) (joints sep rest)
    end
  | [] => []
  end.

(** The indices at which [sub] occurs in [s]. *)
Definition occurrences (sub s : gostring) : list nat :=
  List.filter (fun j => strings.HasPrefix (drop j s) sub) (seq 0 (S (length s))).

Lemma occursAt_occurrences sub s j : occursAt sub s j <-> In j (occurrences sub s).
Proof.
  unfold occurrences. rewrite filter_In, in_seq, occursAt_HasPrefix.
  split; intros [H1 H2]; (split; [lia | exact H2]).
Qed.

(** The occurrences of [sub] in [s] do not overlap. *)
Definition apart (sub s : gostring) : Prop :=
  forall i j, occursAt sub s i -> occursAt sub s j -> i < j -> i + length sub <= j.

Lemma apart_part sub a s b : apart sub (a ++ s ++ b) -> apart sub s.
Proof.
  intros Hap i j Hi Hj Hlt.
  apply (occursAt_app_l sub s b) in Hi, Hj.
  apply (occursAt_app_r sub a) in Hi, Hj.
  specialize (Hap _ _ Hi Hj). lia.
Qed.

Lemma occursAt_lookup (sub s : list ascii) j i c :
  occursAt sub s j -> sub !! i = Some c -> s !! (j + i) = Some c.
Proof.
  intros [pre [post [-> <-]]] Hi.
  rewrite lookup_app_r by lia. replace (length pre + i - length pre) with i by lia.
  now apply lookup_app_l_Some.
Qed.

Lemma occursAt_longer sub more s j : occursAt (sub ++ more) s j -> occursAt sub s j.
Proof.
  intros [pre [post [-> <-]]]. exists pre, (more ++ post). split; [|reflexivity].
  now rewrite <- !app_assoc.
Qed.

Lemma Join_cons p q rest sep :
  strings.Join (p :: q :: rest) sep = p ++ sep ++ strings.Join (q :: rest) sep.
Proof. reflexivity. Qed.

Lemma joints_gap sep pieces : forall i j,
  In i (joints sep pieces) -> In j (joints sep pieces) -> i < j ->
  i + length sep <= j.
Proof.
  induction pieces as [|p rest IH]; intros i j Hi Hj Hlt; [destruct Hi|].
  cbn [joints] in Hi, Hj. destruct rest as [|q rest]; [destruct Hi|].
  destruct Hi as [<- | Hi], Hj as [<- | Hj].
  - lia.
  - apply in_map_iff in Hj as [j' [<- _]]. lia.
  - apply in_map_iff in Hi as [i' [<- _]]. lia.
  - apply in_map_iff in Hi as [i' [<- Hi]]. apply in_map_iff in Hj as [j' [<- Hj]].
    specialize (IH i' j' Hi Hj). lia.
Qed.

(** Every occurrence replaced, when the occurrences are the separators of
    a join. *)
Lemma Replace_Join old new : old <> [] -> forall pieces,
  (forall j, occursAt old (strings.Join pieces old) j -> In j (joints old pieces)) ->
  bytes.Replace (strings.Join pieces old) old new = strings.Join pieces new.
Proof.
  intros Hold. induction pieces as [|p rest IH]; intros Hocc.
  - apply Replace_none; [exact Hold|]. intros j Hj. exact (Hocc j Hj).
  - destruct rest as [|q rest].
    + apply Replace_none; [exact Hold|]. intros j Hj. exact (Hocc j Hj).
    + rewrite !Join_cons in *. rewrite Replace_first; [|exact Hold|].
      * rewrite IH; [reflexivity|]. intros j Hj.
        apply (occursAt_app_r old (p ++ old)) in Hj.
        rewrite <- app_assoc in Hj. apply Hocc in Hj.
        rewrite length_app in Hj. cbn [joints] in Hj.
        assert (Hlen : 0 < length old) by (destruct old; [congruence | cbn; lia]).
        destruct Hj as [Hj | Hj]; [lia|].
        apply in_map_iff in Hj as [j' [Hj' Hin]].
        now replace j with j' by lia.
      * intros j Hj. apply Hocc in Hj. cbn [joints] in Hj.
        destruct Hj as [<- | Hj]; [lia|].
        apply in_map_iff in Hj as [j' [<- _]]. lia.
Qed.

Section Scrub.
Context {World : Type} {os : OS World}.

(** Output in which the root directory does not occur is left as it
    is. *)
Theorem scrub_without_root (rootDir b : gostring) :
  rootDir <> [] ->
  (forall j, ~ occursAt rootDir b j) ->
  scrub rootDir b = b.
Proof.
  intros Hroot Hno. unfold scrub.
  rewrite (Replace_none b (rootDir ++ [Separator])).
  - now apply Replace_none.
  - now destruct rootDir.
  - intros j Hj. apply (Hno j). eapply occursAt_longer; eauto.
Qed.

(** The root directories that [scrub] takes for what they are: no dollar
    in them, and a first byte that is none of the bytes of [{ROOTDIR}], so
    that the root directory overlaps no [${ROOTDIR}] put in by [scrub]. *)
Definition plainRoot (rootDir : gostring) : Prop :=
  rootDir <> [] /\ ~ In "$"%char rootDir /\
  forall c, head rootDir = Some c -> ~ In c (str "{ROOTDIR}").

Lemma scrubbed_apart rootDir x y j :
  plainRoot rootDir ->
  occursAt rootDir (x ++ scrubbedRootDir ++ y) j ->
  j + length rootDir <= length x \/ length x + length scrubbedRootDir <= j.
Proof.
  intros [Hne [Hdollar Hhead]] Hocc.
  destruct (le_lt_dec (j + length rootDir) (length x)) as [?|H1]; [now left|].
  destruct (le_lt_dec (length x + length scrubbedRootDir) j) as [?|H2]; [now right|].
  exfalso. destruct (le_lt_dec j (length x)) as [H3|H3].
  - (* the occurrence has the dollar in it *)
    destruct (lookup_lt_is_Some_2 rootDir (length x - j)) as [c Hc]; [lia|].
    pose proof (occursAt_lookup _ _ _ _ _ Hocc Hc) as Hs.
    replace (j + (length x - j)) with (length x + 0) in Hs by lia.
    rewrite lookup_app_r in Hs by lia.
    replace (length x + 0 - length x) with 0 in Hs by lia.
    cbn in Hs. injection Hs as <-. apply Hdollar.
    apply list_elem_of_In. eapply list_elem_of_lookup_2; eauto.
  - (* the occurrence begins after the dollar *)
    destruct rootDir as [|c r]; [congruence|].
    pose proof (occursAt_lookup _ _ _ 0 c Hocc eq_refl) as Hs.
    rewrite Nat.add_0_r, lookup_app_r in Hs by lia.
    rewrite lookup_app_l in Hs by lia.
    apply (Hhead c eq_refl).
    destruct (j - length x) as [|k] eqn:Hk; [lia|].
    change (str "{ROOTDIR}") with (drop 1 scrubbedRootDir).
    apply list_elem_of_In. apply (list_elem_of_lookup_2 _ k).
    now rewrite lookup_drop.
Qed.

Lemma Replace_scrubbed rootDir x y :
  plainRoot rootDir ->
  bytes.Replace (x ++ scrubbedRootDir ++ y) rootDir scrubbedRootDir
  = bytes.Replace x rootDir scrubbedRootDir ++ scrubbedRootDir
    ++ bytes.Replace y rootDir scrubbedRootDir.
Proof.
  intros Hplain. pose proof Hplain as [Hne _].
  assert (Hlen : 0 < length rootDir) by (destruct rootDir; [congruence | cbn; lia]).
  rewrite (Replace_app rootDir scrubbedRootDir Hne (S (length x))); [|lia|].
  2:{ intros j Hj. apply scrubbed_apart in Hj; [lia | exact Hplain]. }
  f_equal.
  rewrite (Replace_app rootDir scrubbedRootDir Hne (S (length scrubbedRootDir))); [|lia|].
  2:{ intros j Hj. apply (scrubbed_apart rootDir [] y) in Hj; [|exact Hplain].
      cbn [length] in Hj. lia. }
  f_equal. apply Replace_none; [exact Hne|]. intros j Hj.
  pose proof (occursAt_bound _ _ _ Hj) as Hb.
  apply (occursAt_app_l _ _ []) in Hj.
  apply (scrubbed_apart rootDir [] []) in Hj; [|exact Hplain].
  cbn [length] in Hj. lia.
Qed.

Lemma Replace_here rootDir new u v :
  rootDir <> [] -> apart rootDir (u ++ rootDir ++ v) ->
  bytes.Replace (u ++ rootDir ++ v) rootDir new
  = bytes.Replace u rootDir new ++ new ++ bytes.Replace v rootDir new.
Proof.
  intros Hne Hap.
  assert (Hhere : occursAt rootDir (u ++ rootDir ++ v) (length u)) by now exists u, v.
  rewrite (Replace_app rootDir new Hne (S (length u))); [|lia|].
  - f_equal. apply (Replace_first [] rootDir v new Hne). intros j _. cbn. lia.
  - intros j Hj. destruct (le_lt_dec (length u) j) as [?|Hlt]; [now right|].
    left. exact (Hap j (length u) Hj Hhere Hlt).
Qed.

(** The two replacements of [scrub] are one replacement of the root
    directory. *)
Lemma scrub_passes rootDir : plainRoot rootDir -> forall n b z,
  length b < n -> apart rootDir (z ++ b) ->
  bytes.Replace (z ++ bytes.Replace b (rootDir ++ [Separator])
                        (scrubbedRootDir ++ [Separator]))
    rootDir scrubbedRootDir
  = bytes.Replace (z ++ b) rootDir scrubbedRootDir.
Proof.
  intros Hplain. pose proof Hplain as [Hne _].
  assert (Hne' : rootDir ++ [Separator] <> []) by now destruct rootDir.
  induction n as [|n IH]; intros b z Hn Hap; [lia|].
  destruct (Index_spec (rootDir ++ [Separator]) b)
    as [[_ Hno] | [k [_ [[x [y [-> <-]]] Hmin]]]].
  - now rewrite (Replace_none b (rootDir ++ [Separator])).
  - rewrite (Replace_first x (rootDir ++ [Separator]) y) by assumption.
    replace (z ++ x ++ (scrubbedRootDir ++ [Separator])
               ++ bytes.Replace y (rootDir ++ [Separator])
                    (scrubbedRootDir ++ [Separator]))
      with ((z ++ x) ++ scrubbedRootDir
              ++ ([Separator] ++ bytes.Replace y (rootDir ++ [Separator])
                                  (scrubbedRootDir ++ [Separator])))
      by now rewrite <- !app_assoc.
    replace (z ++ x ++ (rootDir ++ [Separator]) ++ y)
      with ((z ++ x) ++ rootDir ++ ([Separator] ++ y)) in *
      by now rewrite <- !app_assoc.
    rewrite Replace_scrubbed by exact Hplain.
    rewrite Replace_here by assumption. do 2 f_equal.
    apply IH.
    + rewrite !length_app in Hn. cbn in Hn. lia.
    + apply (apart_part rootDir ((z ++ x) ++ rootDir) _ []).
      now rewrite app_nil_r, <- !app_assoc in *.
Qed.

(** What [scrub] is for.  Let the output be pieces joined by the root
    directory, which occurs nowhere else in it, and let the root directory
    be plain.  Then [scrub] gives the pieces joined by [${ROOTDIR}]: every
    occurrence of the root directory is replaced, and nothing else
    changes. *)
Theorem scrub_replaces_root (rootDir : gostring) (pieces : list gostring) :
  plainRoot rootDir ->
  (forall j, occursAt rootDir (strings.Join pieces rootDir) j ->
             In j (joints rootDir pieces)) ->
  scrub rootDir (strings.Join pieces rootDir)
    = strings.Join pieces scrubbedRootDir.
Proof.
  intros Hplain Hocc. pose proof Hplain as [Hne _]. unfold scrub.
  rewrite <- (Replace_Join rootDir scrubbedRootDir Hne pieces Hocc).
  apply (scrub_passes rootDir Hplain (S (length (strings.Join pieces rootDir)))
           (strings.Join pieces rootDir) []); [lia|].
  intros i j Hi Hj Hlt. cbn [app] in Hi, Hj.
  apply (joints_gap rootDir pieces); auto.
Qed.

End Scrub.

Lemma scrub_without_root_witness :
  scrub (World := Sim.World) (str "/tmp/cmdtest1") (str "hello /tmp/cmdtest2")
    = str "hello /tmp/cmdtest2".
Proof.
  apply (scrub_without_root (World := Sim.World)).
  - discriminate.
  - intros j Hj. apply occursAt_occurrences in Hj. vm_compute in Hj. exact Hj.
Defined.

Lemma scrub_replaces_root_witness :
  scrub (World := Sim.World) (str "/tmp/cmdtest1")
    (str "cat: /tmp/cmdtest1/x: not in /tmp/cmdtest1")
    = str "cat: ${ROOTDIR}/x: not in ${ROOTDIR}".
Proof.
  apply (scrub_replaces_root (World := Sim.World) (str "/tmp/cmdtest1")
           [str "cat: "; str "/x: not in "; []]).
  - split; [discriminate|]. split.
    + vm_compute. intuition discriminate.
    + intros c [= <-]. vm_compute. intuition discriminate.
  - intros j Hj. apply occursAt_occurrences in Hj. vm_compute in Hj |- *. exact Hj.
Defined.

(** * The built-in commands

    [fixedArgBuiltin] and the commands [cd], [cat], [mkdir], [setenv] and
    [fecho] of [cmdtest.go] ([echo] is [echoCmd] above).  A function
    [func([]string) ([]byte, error)] is a function to [io World gostring]:
    these functions return no output with an error.  An index out of range
    is a panic. *)

From Stdlib Require DecimalString.

(** An [int] as [%d] formats it. *)
Definition itoa (n : Z) : gostring :=
  str (DecimalString.NilZero.string_of_int (Z.to_int n)).

(** A string as [%q] formats it ([strconv.Quote]). *)
Class Quoting : Type := Quote : gostring -> gostring.

(** The calls of the built-in commands that [OS] lacks: [os.Mkdir] and
    [ioutil.WriteFile] with their permissions, and [io.Copy] from a file to
    a new buffer, which gives the bytes of the file. *)
Class OSCommands (World : Type) {os : OS World} : Type := {
  Mkdir : gostring -> Z -> io World unit;
  WriteFile : gostring -> gostring -> Z -> io World unit;
  ReadAll : File -> io World gostring
}.

Section Builtins.
Context {World : Type} {os : OS World} {osc : OSCommands World} {quoting : Quoting}.
Local Open Scope io_scope.

(** [args[i]]. *)
Definition index (args : list gostring) (i : nat) : io World gostring :=
  match args !! i with
  | Some a => ret a
  | None =>
    panic (str "index out of range [" ++ itoa (Z.of_nat i) ++ str "] with length "
             ++ itoa (Z.of_nat (length args)))
  end.

(** [checkPath(path)]; the byte 92 is the backslash. *)
Definition checkPath (path : gostring) : io World unit :=
  if bool_decide ("/"%char ∈ path) || bool_decide ("092"%char ∈ path) then
    fail (errorString (str "argument must be in the current directory ("
                         ++ Quote path ++ str " has a '/')"))
  else ret tt.

(** [fixedArgBuiltin(nargs, f)]. *)
Definition fixedArgBuiltin (nargs : Z) (f : list gostring -> io World gostring)
    (args : list gostring) (inputFile : gostring) : io World gostring :=
  if negb (Z.of_nat (length args) =? nargs)%Z then
    fail (errorString (str "need exactly " ++ itoa nargs ++ str " arguments"))
  else if negb (bool_decide (inputFile = [])) then
    fail (errorString (str "input redirection not supported"))
  else f args.

(** [cdCmd(args)]. *)
Definition cdCmd (args : list gostring) : io World gostring :=
  dir <- index args 0 ;;
  checkPath dir ;;;
  cwd <- Getwd ;;
  Chdir (Join cwd dir) ;;;
  ret [].

(** [fechoCmd(args, inputFile)]. *)
Definition fechoCmd (args : list gostring) (inputFile : gostring)
    : io World gostring :=
  if length args <? 1 then fail (errorString (str "need at least 1 argument"))
  else if negb (bool_decide (inputFile = [])) then
    fail (errorString (str "input redirection not supported"))
  else
    file <- index args 0 ;;
    checkPath file ;;;
    let s := strings.Join (drop 1 args) (str " ") in
    let s := bytes.Replace s (str "\n") newline in
    let s := s ++ newline in
    WriteFile file s 384 ;;;     (* 0600 *)
    ret [].

(** [catCmd(args)]. *)
Definition catCmd (args : list gostring) : io World gostring :=
  file <- index args 0 ;;
  checkPath file ;;;
  f <- Open file ;;
  deferring (Close f) (ReadAll f).

(** [mkdirCmd(args)]. *)
Definition mkdirCmd (args : list gostring) : io World gostring :=
  dir <- index args 0 ;;
  checkPath dir ;;;
  Mkdir dir 448 ;;;              (* 0700 *)
  ret [].

(** [setenvCmd(args)]. *)
Definition setenvCmd (args : list gostring) : io World gostring :=
  name <- index args 0 ;;
  value <- index args 1 ;;
  Setenv name value ;;;
  ret [].

(** The commands as [Read] puts them in the suite. *)
Definition cat := fixedArgBuiltin 1 catCmd.
Definition cd := fixedArgBuiltin 1 cdCmd.
Definition mkdir := fixedArgBuiltin 1 mkdirCmd.
Definition setenv := fixedArgBuiltin 2 setenvCmd.

End Builtins.

(** ** Built-in commands called wrongly *)

Section BuiltinsWrong.
Context {World : Type} {os : OS World} {osc : OSCommands World} {quoting : Quoting}.

(** The call fails and does nothing. *)
Definition refuses {A : Type} (c : io World A) : Prop :=
  forall w, exists e, c w = (Err e, w).

Lemma fixedArgBuiltin_redirection nargs f args inputFile :
  inputFile <> [] -> refuses (fixedArgBuiltin nargs f args inputFile).
Proof.
  intros Hin w. unfold fixedArgBuiltin.
  destruct (negb (Z.of_nat (length args) =? nargs)%Z); [unfold fail; eauto|].
  rewrite bool_decide_eq_false_2 by exact Hin. cbn [negb]. unfold fail. eauto.
Qed.

(** None of the built-in commands takes an input file: called with one,
    each of [cat], [cd], [echo], [fecho], [mkdir] and [setenv] fails,
    whatever its arguments are, and leaves the world as it is. *)
Theorem builtins_refuse_redirection (args : list gostring) (inputFile : gostring) :
  inputFile <> [] ->
  refuses (cat args inputFile) /\ refuses (cd args inputFile) /\
  refuses (mkdir args inputFile) /\ refuses (setenv args inputFile) /\
  refuses (fechoCmd args inputFile) /\
  forall w : World, exists e, echoCmd args inputFile w = (([], Some e), w).
Proof.
  intros Hin. repeat split; try (now apply fixedArgBuiltin_redirection).
  - intros w. unfold fechoCmd. destruct (length args <? 1); [unfold fail; eauto|].
    rewrite bool_decide_eq_false_2 by exact Hin. cbn [negb]. unfold fail. eauto.
  - intros w. unfold echoCmd.
    rewrite bool_decide_eq_false_2 by exact Hin. cbn [negb]. eauto.
Qed.

(** A path that [checkPath] refuses: it has a slash or a backslash. *)
Definition misplaced (path : gostring) : Prop :=
  "/"%char ∈ path \/ "092"%char ∈ path.

Lemma checkPath_misplaced path : misplaced path -> refuses (checkPath path).
Proof.
  intros Hp w. unfold checkPath.
  assert (H : bool_decide ("/"%char ∈ path) || bool_decide ("092"%char ∈ path) = true).
  { apply orb_true_iff. destruct Hp as [Hp | Hp]; [left | right];
      now apply bool_decide_eq_true. }
  rewrite H. unfold fail. eauto.
Qed.

Lemma checkPath_first {A} path args (k : gostring -> io World A) :
  misplaced path ->
  refuses (bind (index (path :: args) 0)
             (fun file => bind (checkPath file) (fun _ => k file))).
Proof.
  intros Hp w. unfold bind, index. cbn [lookup list_lookup]. unfold ret.
  destruct (checkPath_misplaced path Hp w) as [e He]. rewrite He. eauto.
Qed.

Lemma fixedArgBuiltin_refuses nargs f args inputFile :
  refuses (f args) -> refuses (fixedArgBuiltin nargs f args inputFile).
Proof.
  intros Hf w. unfold fixedArgBuiltin.
  destruct (negb (Z.of_nat (length args) =? nargs)%Z); [unfold fail; eauto|].
  destruct (negb (bool_decide (inputFile = []))); [unfold fail; eauto|].
  apply Hf.
Qed.

(** The file and directory arguments must be in the current directory:
    called with a first argument that has a slash or a backslash in it, each
    of [cat], [cd], [mkdir] and [fecho] fails, whatever else it is given,
    before it has touched a file or a directory. *)
Theorem builtins_refuse_paths (path : gostring) (args : list gostring)
    (inputFile : gostring) :
  misplaced path ->
  refuses (cat (path :: args) inputFile) /\
  refuses (cd (path :: args) inputFile) /\
  refuses (mkdir (path :: args) inputFile) /\
  refuses (fechoCmd (path :: args) inputFile).
Proof.
  intros Hp. repeat split.
  - apply fixedArgBuiltin_refuses. unfold catCmd. now apply checkPath_first.
  - apply fixedArgBuiltin_refuses. unfold cdCmd. now apply checkPath_first.
  - apply fixedArgBuiltin_refuses. unfold mkdirCmd. now apply checkPath_first.
  - intros w. unfold fechoCmd. cbn [length Nat.ltb Nat.leb].
    destruct (negb (bool_decide (inputFile = []))); [unfold fail; eauto|].
    now apply checkPath_first.
Qed.

End BuiltinsWrong.

(** ** The built-in commands do not panic *)

(** The calls of the operating system return: they do not panic. *)
Class OSReturns (World : Type) {os : OS World} {osc : OSCommands World} : Prop := {
  Getwd_returns : forall w m, fst (Getwd w) <> Panic m;
  Chdir_returns : forall dir w m, fst (Chdir dir w) <> Panic m;
  Setenv_returns : forall key value w m, fst (Setenv key value w) <> Panic m;
  Open_returns : forall name w m, fst (Open name w) <> Panic m;
  Mkdir_returns : forall name perm w m, fst (Mkdir name perm w) <> Panic m;
  WriteFile_returns : forall name data perm w m,
    fst (WriteFile name data perm w) <> Panic m;
  ReadAll_returns : forall f w m, fst (ReadAll f w) <> Panic m
}.

Section BuiltinsReturn.
Context {World : Type} {os : OS World} {osc : OSCommands World} {quoting : Quoting}
        {returns : OSReturns World}.

Definition returns_ {A : Type} (c : io World A) : Prop :=
  forall w m, fst (c w) <> Panic m.

Lemma returns_bind {A B} (c : io World A) (k : A -> io World B) :
  returns_ c -> (forall a, returns_ (k a)) -> returns_ (bind c k).
Proof.
  intros Hc Hk w m. unfold bind. specialize (Hc w).
  destruct (c w) as [[a|e|m'] w1]; cbn [fst] in *.
  - apply Hk.
  - discriminate.
  - now elim (Hc m').
Qed.

Lemma returns_ret {A} (a : A) : returns_ (ret a).
Proof. intros w m. discriminate. Qed.

Lemma returns_fail {A} e : returns_ (@fail World A e).
Proof. intros w m. discriminate. Qed.

Lemma returns_checkPath path : returns_ (checkPath path).
Proof.
  unfold checkPath. destruct (_ || _); [apply returns_fail | apply returns_ret].
Qed.

Lemma returns_index args i : i < length args -> returns_ (index args i).
Proof.
  intros Hi. unfold index. destruct (lookup_lt_is_Some_2 args i Hi) as [a Ha].
  rewrite Ha. apply returns_ret.
Qed.

Lemma returns_deferring {A B} (d : io World B) (c : io World A) :
  returns_ c -> returns_ (deferring d c).
Proof.
  intros Hc w m. unfold deferring. specialize (Hc w m).
  now destruct (c w) as [r w1].
Qed.

Lemma returns_fixedArgBuiltin nargs f :
  (forall args, Z.of_nat (length args) = nargs -> returns_ (f args)) ->
  forall args inputFile, returns_ (fixedArgBuiltin nargs f args inputFile).
Proof.
  intros Hf args inputFile. unfold fixedArgBuiltin.
  destruct (Z.eqb_spec (Z.of_nat (length args)) nargs) as [Hn|Hn]; cbn [negb];
    [|apply returns_fail].
  destruct (negb (bool_decide (inputFile = []))); [apply returns_fail|].
  now apply Hf.
Qed.

(** No built-in command panics, whatever its arguments are: the
    arguments that the commands index are there, because [fixedArgBuiltin]
    and [fechoCmd] have looked at their number before.  ([echoCmd] indexes
    nothing.) *)
Theorem builtins_return (args : list gostring) (inputFile : gostring)
    (w : World) (m : gostring) :
  fst (cat args inputFile w) <> Panic m /\
  fst (cd args inputFile w) <> Panic m /\
  fst (mkdir args inputFile w) <> Panic m /\
  fst (setenv args inputFile w) <> Panic m /\
  fst (fechoCmd args inputFile w) <> Panic m.
Proof.
  repeat split.
  - apply returns_fixedArgBuiltin. intros a Ha. unfold catCmd.
    apply returns_bind; [apply returns_index; lia|]. intros file.
    apply returns_bind; [apply returns_checkPath|]. intros _.
    apply returns_bind; [intros w' m'; apply Open_returns|]. intros f.
    apply returns_deferring. intros w' m'. apply ReadAll_returns.
  - apply returns_fixedArgBuiltin. intros a Ha. unfold cdCmd.
    apply returns_bind; [apply returns_index; lia|]. intros dir.
    apply returns_bind; [apply returns_checkPath|]. intros _.
    apply returns_bind; [intros w' m'; apply Getwd_returns|]. intros cwd.
    apply returns_bind; [intros w' m'; apply Chdir_returns|]. intros _.
    apply returns_ret.
  - apply returns_fixedArgBuiltin. intros a Ha. unfold mkdirCmd.
    apply returns_bind; [apply returns_index; lia|]. intros dir.
    apply returns_bind; [apply returns_checkPath|]. intros _.
    apply returns_bind; [intros w' m'; apply Mkdir_returns|]. intros _.
    apply returns_ret.
  - apply returns_fixedArgBuiltin. intros a Ha. unfold setenvCmd.
    apply returns_bind; [apply returns_index; lia|]. intros name.
    apply returns_bind; [apply returns_index; lia|]. intros value.
    apply returns_bind; [intros w' m'; apply Setenv_returns|]. intros _.
    apply returns_ret.
  - revert w m. change (returns_ (fechoCmd args inputFile)). unfold fechoCmd.
    destruct (Nat.ltb_spec (length args) 1) as [Hn|Hn]; [apply returns_fail|].
    destruct (negb (bool_decide (inputFile = []))); [apply returns_fail|].
    apply returns_bind; [apply returns_index; lia|]. intros file.
    apply returns_bind; [apply returns_checkPath|]. intros _.
    apply returns_bind; [intros w' m'; apply WriteFile_returns|]. intros _.
    apply returns_ret.
Qed.

End BuiltinsReturn.

(** ** From one command to the next *)

(** What the calls of the commands do to the files and to the
    environment: [ioutil.WriteFile] leaves the data in the file; [os.Open]
    gives a file of the name asked for and changes no content; the bytes
    read from a file are its content; and [os.Setenv] sets the variable. *)
Class CommandLaws (World : Type) {os : OS World} {osc : OSCommands World}
    {files : FileSystem World} : Prop := {
  WriteFile_done : forall name data perm w w',
    WriteFile name data perm w = (Ok tt, w') -> content w' name = Some data;
  Open_opens : forall name w f w',
    Open name w = (Ok f, w') -> Name f = name /\ forall p, content w' p = content w p;
  ReadAll_content : forall f w data w',
    ReadAll f w = (Ok data, w') -> content w (Name f) = Some data;
  Setenv_done : forall key value w w',
    Setenv key value w = (Ok tt, w') -> LookupEnv key w' = Some value
}.

Section BuiltinsCompose.
Context {World : Type} {os : OS World} {osc : OSCommands World} {quoting : Quoting}
        {files : FileSystem World} {laws : CommandLaws World}.

(** [cat FILE] after [fecho FILE ARG1 ARG2 ...] prints what [echo ARG1
    ARG2 ...] prints.  When [fecho] has succeeded (it prints nothing), and
    [cat] succeeds in a world in which the file is as [fecho] left it, the
    output of [cat] is the output of [echo] for the arguments after the
    file. *)
Theorem fecho_then_cat (file : gostring) (args : list gostring)
    (w w1 v v' : World) (out out' : gostring) :
  fechoCmd (file :: args) [] w = (Ok out, w1) ->
  content v file = content w1 file ->
  cat [file] [] v = (Ok out', v') ->
  out = [] /\ echoCmd args [] w = ((out', None), w).
Proof.
  intros Hf Hsame Hc.
  assert (Hcheck : forall u : World,
            checkPath file u = (Ok tt, u) \/ exists e, checkPath file u = (Err e, u)).
  { intros u. unfold checkPath. destruct (_ || _); [right; unfold fail; eauto | now left]. }
  (* fecho *)
  unfold fechoCmd in Hf. change (length (file :: args) <? 1) with false in Hf.
  rewrite bool_decide_eq_true_2 in Hf by reflexivity. cbn [negb] in Hf.
  unfold bind, index in Hf. cbn [lookup list_lookup] in Hf. unfold ret in Hf.
  change (drop 1 (file :: args)) with args in Hf.
  destruct (Hcheck w) as [Hok | [e He]]; [|rewrite He in Hf; discriminate].
  rewrite Hok in Hf.
  destruct (WriteFile file _ 384 w) as [[[]|e|m] ww] eqn:Hwrite; try discriminate.
  injection Hf as <- <-. split; [reflexivity|].
  (* cat *)
  unfold cat, fixedArgBuiltin, catCmd in Hc.
  change (Z.of_nat (length [file]) =? 1)%Z with true in Hc.
  rewrite bool_decide_eq_true_2 in Hc by reflexivity. cbn [negb] in Hc.
  unfold bind, index in Hc. cbn [lookup list_lookup] in Hc. unfold ret in Hc.
  destruct (Hcheck v) as [Hokv | [e He]]; [|rewrite He in Hc; discriminate].
  rewrite Hokv in Hc.
  destruct (Open file v) as [[f|e|m] vo] eqn:Hopen; try discriminate.
  unfold deferring in Hc.
  destruct (ReadAll f vo) as [[data|e|m] vr] eqn:Hread; try discriminate.
  injection Hc as <- <-.
  apply WriteFile_done in Hwrite. apply Open_opens in Hopen as [Hname Hcontent].
  apply ReadAll_content in Hread. rewrite Hname, Hcontent, Hsame, Hwrite in Hread.
  injection Hread as <-.
  (* echo *)
  unfold echoCmd. now rewrite bool_decide_eq_true_2 by reflexivity.
Qed.

(** [${NAME}] after [setenv NAME VALUE] is the value.  When [setenv] has
    succeeded (it prints nothing), a reference to the variable expands to
    the value, in the world that [setenv] left; the name has to be one that
    a reference can hold, with no dollar and no brace in it. *)
Theorem setenv_then_expand (name value inputFile : gostring)
    (w w' : World) (out : gostring) :
  validName name = true ->
  setenv [name; value] inputFile w = (Ok out, w') ->
  out = [] /\
  expandVariables (ref name) (fun n => LookupEnv n w') = Ok value.
Proof.
  intros Hname Hs. unfold setenv, fixedArgBuiltin, setenvCmd in Hs.
  change (Z.of_nat (length [name; value]) =? 2)%Z with true in Hs. cbn [negb] in Hs.
  destruct (negb (bool_decide (inputFile = []))); [discriminate|].
  unfold bind, index in Hs. cbn [lookup list_lookup] in Hs. unfold ret in Hs.
  destruct (Setenv name value w) as [[[]|e|m] ws] eqn:Hset; try discriminate.
  injection Hs as <- <-. split; [reflexivity|].
  apply Setenv_done in Hset. unfold expandVariables.
  pose proof (expandLoop_ref (fun n => LookupEnv n ws) [] [] name [] Hname) as H.
  cbn [app] in H. rewrite app_nil_r in H. rewrite H.
  - rewrite Hset. rewrite expandLoop_unfold. cbn. now rewrite app_nil_r.
  - intros i name' _. cbn. lia.
Qed.

End BuiltinsCompose.

(** ** The commands on the simulated system *)

(** The calls of the commands on the simulated system; a directory is
    not a file there, and [Mkdir] only takes its turn in the schedule of
    faults.  Quoting puts the string between two quotation marks (the
    byte 34). *)
#[global] Instance Sim_Quoting : Quoting :=
  fun s => ["034"%char] ++ s ++ ["034"%char].

#[global] Instance Sim_OSCommands : OSCommands Sim.World := {|
  Mkdir := fun _ _ => Sim.attempt Sim.EEXIST;
  WriteFile := fun name data _ =>
    bind (Sim.attempt Sim.EIO)
         (fun _ w => (Ok tt, Sim.setFs w (<[name := data]> (Sim.fs w))));
  ReadAll := fun f =>
    bind (Sim.attempt Sim.EIO)
         (fun _ w => match Sim.fs w !! f with
                     | Some data => (Ok data, w)
                     | None => (Err Sim.ENOENT, w)
                     end)
|}.

Lemma attempt_returns e w m : fst (Sim.attempt e w) <> Panic m.
Proof.
  destruct (Sim.attempt e w) as [r w'] eqn:Ha.
  apply attempt_spec in Ha as [_ [_ [-> | ->]]]; discriminate.
Qed.

Lemma attempt_env e w : Sim.env (snd (Sim.attempt e w)) = Sim.env w.
Proof. unfold Sim.attempt. now destruct (Sim.faults w) as [|[] rest]. Qed.

(** A call that takes its turn and then returns. *)
Lemma attempt_then_returns {A} e (k : Sim.World -> result A * Sim.World) w m :
  (forall v, fst (k v) <> Panic m) ->
  fst (bind (Sim.attempt e) (fun _ => k) w) <> Panic m.
Proof.
  intros Hk. unfold bind. destruct (Sim.attempt e w) as [r wa] eqn:Ha.
  apply attempt_spec in Ha as [_ [_ [-> | ->]]]; [apply Hk | discriminate].
Qed.

#[global] Instance Sim_OSReturns : OSReturns Sim.World.
Proof.
  split.
  - intros w m. cbn [Getwd Sim.Sim_OS]. now apply attempt_then_returns.
  - intros dir w m. cbn [Chdir Sim.Sim_OS]. now apply attempt_then_returns.
  - intros key value w m. cbn [Setenv Sim.Sim_OS]. now apply attempt_then_returns.
  - intros name w m. cbn [Open Sim.Sim_OS]. apply attempt_then_returns.
    intros v. unfold bind, Sim.exists_, ret. now destruct (Sim.fs v !! name).
  - intros name perm w m. cbn [Mkdir Sim_OSCommands]. apply attempt_returns.
  - intros name data perm w m. cbn [WriteFile Sim_OSCommands].
    now apply attempt_then_returns.
  - intros f w m. cbn [ReadAll Sim_OSCommands]. apply attempt_then_returns.
    intros v. now destruct (Sim.fs v !! f).
Qed.

#[global] Instance Sim_CommandLaws : CommandLaws Sim.World.
Proof.
  split.
  - intros name data perm w w' H. cbn [WriteFile Sim_OSCommands] in H.
    sim_attempt H; [|discriminate]. injection H as <-.
    cbn [content Sim_FileSystem Sim.fs Sim.setFs]. apply lookup_insert_eq.
  - intros name w f w' H. cbn [Open Sim.Sim_OS] in H. sim_attempt H; [|discriminate].
    unfold bind in H. sim_exists H; [|discriminate]. unfold ret in H.
    injection H as <- <-. split; [reflexivity|]. intros p.
    cbn [content Sim_FileSystem]. now rewrite Hfs.
  - intros f w data w' H. cbn [ReadAll Sim_OSCommands] in H.
    sim_attempt H; [|discriminate]. cbn [content Sim_FileSystem Name Sim.Sim_OS].
    rewrite <- Hfs. sim_lookup H Hl; [|discriminate]. injection H as <- <-.
    exact Hl.
  - intros key value w w' H. cbn [Setenv Sim.Sim_OS] in H.
    unfold bind in H. destruct (Sim.attempt Sim.EIO w) as [[[]|e|m] wa];
      try discriminate.
    injection H as <-. cbn [LookupEnv Sim.Sim_OS Sim.env Sim.setEnv].
    apply lookup_insert_eq.
Qed.

Lemma builtins_refuse_redirection_witness :
  let args := [str "dir"] in
  let inputFile := str "input.txt" in
  refuses (World := Sim.World) (cat args inputFile) /\
  refuses (World := Sim.World) (cd args inputFile) /\
  refuses (World := Sim.World) (mkdir args inputFile) /\
  refuses (World := Sim.World) (setenv args inputFile) /\
  refuses (World := Sim.World) (fechoCmd args inputFile) /\
  forall w : Sim.World, exists e, echoCmd args inputFile w = (([], Some e), w).
Proof.
  apply (builtins_refuse_redirection (World := Sim.World)). discriminate.
Defined.

Lemma builtins_refuse_paths_witness :
  let path := str "../etc" in
  refuses (World := Sim.World) (cat [path] []) /\
  refuses (World := Sim.World) (cd [path] []) /\
  refuses (World := Sim.World) (mkdir [path] []) /\
  refuses (World := Sim.World) (fechoCmd [path] []).
Proof.
  apply (builtins_refuse_paths (World := Sim.World)). left. vm_compute.
  apply list_elem_of_In. vm_compute. tauto.
Defined.

(** On the simulated system: [setenv] with one argument and [cat] with
    none return. *)
Lemma builtins_return_witness :
  fst (cat [] [] Sim.world0) <> Panic indexOutOfRange /\
  fst (cd [] [] Sim.world0) <> Panic indexOutOfRange /\
  fst (mkdir [] [] Sim.world0) <> Panic indexOutOfRange /\
  fst (setenv [] [] Sim.world0) <> Panic indexOutOfRange /\
  fst (fechoCmd [] [] Sim.world0) <> Panic indexOutOfRange.
Proof. apply (builtins_return (World := Sim.World)). Defined.

Lemma fecho_then_cat_witness :
  let file := str "greeting" in
  let args := [str "hello"; str "world\nbye"] in
  let w1 := snd (fechoCmd (file :: args) [] Sim.world0) in
  fst (cat [file] [] w1) = Ok (str "hello world" ++ newline ++ str "bye" ++ newline) /\
  echoCmd args [] Sim.world0
    = ((str "hello world" ++ newline ++ str "bye" ++ newline, None), Sim.world0).
Proof.
  intros file args w1. split; [vm_compute; reflexivity|].
  apply (fecho_then_cat file args Sim.world0 w1 w1 (snd (cat [file] [] w1)) []
           (str "hello world" ++ newline ++ str "bye" ++ newline)).
  - vm_compute. reflexivity.
  - reflexivity.
  - vm_compute. reflexivity.
Defined.

Lemma setenv_then_expand_witness :
  let w' := snd (setenv [str "HOME"; str "/home/gopher"] [] Sim.world0) in
  expandVariables (str "${HOME}") (fun n => LookupEnv n w') = Ok (str "/home/gopher").
Proof.
  intros w'.
  apply (setenv_then_expand (str "HOME") (str "/home/gopher") [] Sim.world0 w' []).
  - vm_compute. reflexivity.
  - vm_compute. reflexivity.
Defined.

(** * Reading back what [write] has written *)

(** The output that [write] writes for a case: the output got, if there
    is one, and the output expected otherwise. *)
Definition written (tc : testCase) : list gostring :=
  match gotOutput tc with Some out => out | None => wantOutput tc end.

(** The lines that [write] writes for a case and for a file. *)
Definition caseLines (tc : testCase) : list gostring :=
  before tc ++ map (fun c => str "$ " ++ c) (commands tc) ++ written tc.

Definition fileLines (tf : testFile) : list gostring :=
  concat (map caseLines (cases tf)) ++ suffix tf.

(** The case as it is read back, its commands beginning on the line
    [startLine]. *)
Definition asWritten (startLine : Z) (tc : testCase) : testCase :=
  {| before := before tc; Cmdtest.startLine := startLine; commands := commands tc;
     gotOutput := None; wantOutput := written tc |}.

(** The cases as they are read back, [lineno] lines standing before
    them. *)
Fixpoint rereadCases (lineno : Z) (cs : list testCase) : list testCase :=
  match cs with
  | [] => []
  | tc :: rest =>
    asWritten (lineno + Z.of_nat (length (before tc)) + 1) tc
    :: rereadCases (lineno + Z.of_nat (length (caseLines tc))) rest
  end.

(** Output that is read back as output: no line of it has the marker in
    front, and its last line, if it has one, is neither empty nor a
    comment. *)
Definition outputOk (out : list gostring) : bool :=
  forallb (fun l => negb (strings.HasPrefix l (str "$"))) out
  && match last out with Some l => isOutputLine l | None => true end.

(** A case that is read back as it is written: the lines before its
    commands are blank lines and comments (without white space around them
    before the first command of the file); it has commands, without white
    space around them; and its output is read back as output. *)
Definition caseOk (first : bool) (tc : testCase) : bool :=
  forallb (fun l => negb (isOutputLine l)) (before tc)
  && (negb first
      || forallb (fun l => bool_decide (strings.TrimSpace l = l)) (before tc))
  && negb (bool_decide (commands tc = []))
  && forallb (fun c => bool_decide (strings.TrimSpace c = c)) (commands tc)
  && outputOk (written tc).

(** And between the commands of a case and the commands of the next
    there is a line. *)
Fixpoint casesOk (first : bool) (cs : list testCase) : bool :=
  match cs with
  | [] => true
  | tc :: rest =>
    caseOk first tc
    && match rest with
       | [] => true
       | next :: _ => negb (bool_decide (written tc ++ before next = []))
       end
    && casesOk false rest
  end.

(** A file that is read back as it is written: its lines are lines for
    the scanner, its cases are as above, and the lines after the last case
    are blank lines and comments, and there are none in a file without a
    case. *)
Definition readable (tf : testFile) : bool :=
  forallb cleanLine (fileLines tf)
  && casesOk true (cases tf)
  && forallb (fun l => negb (isOutputLine l)) (suffix tf)
  && (negb (bool_decide (cases tf = [])) || bool_decide (suffix tf = [])).

Lemma fileText_lines tf : fileText tf = unlines (fileLines tf).
Proof.
  unfold fileText, fileLines. rewrite unlines_app. f_equal.
  induction (cases tf) as [|tc cs IH]; [reflexivity|].
  cbn [map concat]. rewrite unlines_app, IH. f_equal.
  unfold caseTextGot, caseLines, written. rewrite !unlines_app. do 2 f_equal.
  unfold commandLines, unlines. now rewrite map_map.
Qed.

(** *** The reader on the lines of a case *)

Definition mkReader (fn : gostring) (done : list testCase) (tc : option testCase)
    (lineno : Z) (prefix : list gostring) (st : parseState) : reader :=
  {| r_tf := {| filename := fn; cases := done; suffix := [] |};
     r_tc := tc; r_lineno := lineno; r_prefix := prefix; r_state := st |}.

Definition mkCase (b : list gostring) (n : Z) (cs out : list gostring) : testCase :=
  {| before := b; startLine := n; commands := cs; gotOutput := None;
     wantOutput := out |}.

Lemma ignorable_noCommand l : isOutputLine l = false -> noCommand l.
Proof.
  unfold noCommand. destruct l as [|c l]; [reflexivity|]. cbn.
  rewrite negb_false_iff, Ascii.eqb_eq. intros ->. reflexivity.
Qed.

Lemma commandLine_read c :
  strings.TrimSpace c = c ->
  strings.HasPrefix (str "$ " ++ c) (str "$") = true /\
  strings.TrimSpace (drop 1 (str "$ " ++ c)) = c.
Proof.
  intros Hc. split; [reflexivity|].
  change (drop 1 (str "$ " ++ c)) with (" "%char :: c).
  now rewrite TrimSpace_space.
Qed.

(** Lines without the marker, after the commands of a case: they are
    its output. *)
Lemma readLines_output fn done b n cs P ls : forall out L st,
  st <> beforeFirstCommand -> Forall noCommand ls ->
  readLines (mkReader fn done (Some (mkCase b n cs out)) L P st) ls
    = Ok (mkReader fn done (Some (mkCase b n cs (out ++ ls)))
            (L + Z.of_nat (length ls)) P
            (match ls with [] => st | _ => inOutput end)).
Proof.
  induction ls as [|l ls IH]; intros out L st Hst Hls.
  - cbn. now rewrite app_nil_r, Z.add_0_r.
  - apply Forall_cons in Hls as [Hl Hls]. cbn [readLines].
    assert (Hstep : readLine (mkReader fn done (Some (mkCase b n cs out)) L P st) l
                    = Ok (mkReader fn done (Some (mkCase b n cs (out ++ [l])))
                            (L + 1) P inOutput)).
    { unfold readLine, mkReader. cbn [r_state r_tc r_lineno r_tf r_prefix].
      rewrite Hl. destruct st; [congruence | reflexivity | reflexivity]. }
    rewrite Hstep, IH by (assumption || discriminate).
    rewrite <- app_assoc. cbn [app length]. do 2 f_equal; [lia|].
    now destruct ls.
Qed.

(** Command lines after a command line: more commands of the case. *)
Lemma readLines_commands fn done b n P out more : forall cs L,
  Forall (fun c => strings.TrimSpace c = c) more ->
  readLines (mkReader fn done (Some (mkCase b n cs out)) L P inCommands)
            (map (fun c => str "$ " ++ c) more)
    = Ok (mkReader fn done (Some (mkCase b n (cs ++ more) out))
            (L + Z.of_nat (length more)) P inCommands).
Proof.
  induction more as [|c more IH]; intros cs L Hmore.
  - cbn. now rewrite app_nil_r, Z.add_0_r.
  - apply Forall_cons in Hmore as [Hc Hmore]. cbn [map readLines].
    destruct (commandLine_read c Hc) as [Hp Ht].
    assert (Hstep : readLine (mkReader fn done (Some (mkCase b n cs out)) L P inCommands)
                             (str "$ " ++ c)
                    = Ok (mkReader fn done (Some (mkCase b n (cs ++ [c]) out))
                            (L + 1) P inCommands)).
    { unfold readLine, mkReader. cbn [r_state r_tc r_lineno r_tf r_prefix].
      rewrite Hp. unfold addCommandLine, mkCase. cbn [before startLine commands gotOutput wantOutput].
      now rewrite Ht. }
    rewrite Hstep, IH by assumption.
    rewrite <- app_assoc. cbn [app length]. do 2 f_equal. lia.
Qed.

(** The split of [addCase], for output followed by blank lines and
    comments. *)
Lemma firstIgnored_within out ign : forall m,
  m <= length out -> firstIgnored (out ++ ign) m = firstIgnored out m.
Proof.
  induction m as [|m IH]; intros Hm; [reflexivity|]. cbn [firstIgnored].
  rewrite lookup_app_l by lia. now rewrite IH by lia.
Qed.

Lemma firstIgnored_beyond out ign :
  forallb (fun l => negb (isOutputLine l)) ign = true -> forall k,
  k <= length ign ->
  firstIgnored (out ++ ign) (length out + k) = firstIgnored (out ++ ign) (length out).
Proof.
  intros Hign. induction k as [|k IH]; intros Hk; [now rewrite Nat.add_0_r|].
  replace (length out + S k) with (S (length out + k)) by lia. cbn [firstIgnored].
  rewrite lookup_app_r by lia.
  replace (length out + k - length out) with k by lia.
  destruct (lookup_lt_is_Some_2 ign k) as [l Hl]; [lia|]. rewrite Hl.
  rewrite forallb_forall in Hign.
  assert (Ho : isOutputLine l = false).
  { apply negb_true_iff, Hign, list_elem_of_In. eapply list_elem_of_lookup_2; eauto. }
  rewrite Ho. apply IH. lia.
Qed.

Lemma firstIgnored_output out ign :
  outputOk out = true -> forallb (fun l => negb (isOutputLine l)) ign = true ->
  firstIgnored (out ++ ign) (length (out ++ ign)) = length out.
Proof.
  intros Hout Hign. rewrite length_app, firstIgnored_beyond by (assumption || lia).
  rewrite firstIgnored_within by lia.
  unfold outputOk in Hout. apply andb_true_iff in Hout as [_ Hlast].
  destruct out as [|l0 out _] using rev_ind; [reflexivity|].
  rewrite last_snoc in Hlast. rewrite length_app. cbn [length].
  replace (length out + 1) with (S (length out)) by lia. cbn [firstIgnored].
  rewrite lookup_app_r, Nat.sub_diag by lia. cbn. now rewrite Hlast.
Qed.

Lemma addCase_output fn done b n cs out ign :
  outputOk out = true -> forallb (fun l => negb (isOutputLine l)) ign = true ->
  addCase {| filename := fn; cases := done; suffix := [] |} (mkCase b n cs (out ++ ign))
    = ({| filename := fn; cases := done ++ [mkCase b n cs out]; suffix := [] |}, ign).
Proof.
  intros Hout Hign. unfold addCase, mkCase.
  cbn [before startLine commands gotOutput wantOutput filename cases suffix].
  rewrite (firstIgnored_output _ _ Hout Hign).
  now rewrite take_app_length, drop_app_length.
Qed.

Lemma outputOk_noCommand out : outputOk out = true -> Forall noCommand out.
Proof.
  unfold outputOk. intros H. apply andb_true_iff in H as [H _].
  rewrite forallb_forall in H. apply Forall_forall. intros l Hl.
  apply list_elem_of_In, H, negb_true_iff in Hl. exact Hl.
Qed.

Lemma ignorables_noCommand ls :
  forallb (fun l => negb (isOutputLine l)) ls = true -> Forall noCommand ls.
Proof.
  intros H. rewrite forallb_forall in H. apply Forall_forall. intros l Hl.
  apply list_elem_of_In, H, negb_true_iff in Hl. now apply ignorable_noCommand.
Qed.

Lemma trimmed_Forall (ls : list gostring) :
  forallb (fun l => bool_decide (strings.TrimSpace l = l)) ls = true ->
  Forall (fun l => strings.TrimSpace l = l) ls.
Proof.
  intros H. rewrite forallb_forall in H. apply Forall_forall. intros l Hl.
  apply list_elem_of_In, H in Hl. now apply bool_decide_eq_true in Hl.
Qed.

Lemma caseLines_length tc :
  Z.of_nat (length (caseLines tc))
  = (Z.of_nat (length (before tc)) + Z.of_nat (length (commands tc))
     + Z.of_nat (length (written tc)))%Z.
Proof. unfold caseLines. rewrite !length_app, length_map. unfold gostring. lia. Qed.

(** The command line that ends the output of a case and begins the
    next case. *)
Lemma readLine_next_case fn done b n cs out ign L P c :
  outputOk out = true -> forallb (fun l => negb (isOutputLine l)) ign = true ->
  strings.TrimSpace c = c ->
  readLine (mkReader fn done (Some (mkCase b n cs (out ++ ign))) L P inOutput)
           (str "$ " ++ c)
    = Ok (mkReader fn (done ++ [mkCase b n cs out])
            (Some (mkCase ign (L + 1) [c] [])) (L + 1) ign inCommands).
Proof.
  intros Hout Hign Hc. destruct (commandLine_read c Hc) as [Hp Ht].
  unfold readLine, mkReader. cbn [r_state r_tc r_lineno r_tf r_prefix].
  rewrite Hp, (addCase_output fn done b n cs out ign Hout Hign).
  unfold addCommandLine, newCase, mkCase.
  cbn [before startLine commands gotOutput wantOutput app]. now rewrite Ht.
Qed.

(** From the commands of a case to the end of the file. *)
Lemma reread_rest fn sfx :
  forallb (fun l => negb (isOutputLine l)) sfx = true ->
  forall cs tc done n L,
  casesOk false (tc :: cs) = true ->
  exists r',
    readLines (mkReader fn done (Some (mkCase (before tc) n (commands tc) [])) L
                 (before tc) inCommands)
              (written tc ++ concat (map caseLines cs) ++ sfx) = Ok r' /\
    finishRead r' None
      = Ok {| filename := fn;
              cases := done ++ asWritten n tc
                         :: rereadCases (L + Z.of_nat (length (written tc))) cs;
              suffix := sfx |}.
Proof.
  intros Hsfx. induction cs as [|next rest IH]; intros tc done n L Hok.
  - (* the last case *)
    cbn [casesOk] in Hok. rewrite !andb_true_r in Hok.
    unfold caseOk in Hok. apply andb_true_iff in Hok as [_ Hout].
    cbn [map concat app rereadCases].
    rewrite readLines_output; [|discriminate|].
    2:{ apply Forall_app. split; [now apply outputOk_noCommand
                                 | now apply ignorables_noCommand]. }
    eexists. split; [reflexivity|]. unfold finishRead, mkReader.
    cbn [r_tc r_tf app]. now rewrite (addCase_output fn done _ _ _ _ _ Hout Hsfx).
  - (* a case with a case after it *)
    cbn [casesOk] in Hok. apply andb_true_iff in Hok as [Hok Hrest].
    apply andb_true_iff in Hok as [Htc Hline].
    apply negb_true_iff, bool_decide_eq_false in Hline.
    pose proof Hrest as Hnext. cbn [casesOk] in Hnext.
    apply andb_true_iff in Hnext as [Hnext _].
    apply andb_true_iff in Hnext as [Hnext _].
    unfold caseOk in Htc, Hnext.
    apply andb_true_iff in Htc as [_ Hout].
    apply andb_true_iff in Hnext as [Hnext _].
    apply andb_true_iff in Hnext as [Hnext Htrim].
    apply andb_true_iff in Hnext as [Hnext Hcmds].
    apply andb_true_iff in Hnext as [Hbefore _].
    apply negb_true_iff, bool_decide_eq_false in Hcmds.
    apply trimmed_Forall in Htrim.
    destruct (commands next) as [|c1 cmds] eqn:Hcs; [congruence|].
    apply Forall_cons in Htrim as [Hc1 Htrim].
    (* the lines, in the order in which they are read *)
    cbn [map concat]. unfold caseLines at 1. rewrite Hcs. cbn [map].
    replace (written tc
             ++ ((before next ++ ((str "$ " ++ c1) :: map (fun c => str "$ " ++ c) cmds)
                  ++ written next) ++ concat (map caseLines rest)) ++ sfx)
      with ((written tc ++ before next)
            ++ [str "$ " ++ c1]
            ++ map (fun c => str "$ " ++ c) cmds
            ++ (written next ++ concat (map caseLines rest) ++ sfx))
      by same_text.
    rewrite readLines_app, readLines_output; [|discriminate|].
    2:{ apply Forall_app. split; [now apply outputOk_noCommand
                                 | now apply ignorables_noCommand]. }
    replace (match written tc ++ before next with [] => inCommands | _ => inOutput end)
      with inOutput by (now destruct (written tc ++ before next)).
    rewrite readLines_app. cbn [readLines].
    rewrite (readLine_next_case fn done _ _ _ _ _ _ _ c1 Hout Hbefore Hc1).
    rewrite readLines_app, readLines_commands by exact Htrim.
    specialize (IH next (done ++ [mkCase (before tc) n (commands tc) (written tc)])
                  (L + Z.of_nat (length (written tc ++ before next)) + 1)%Z
                  (L + Z.of_nat (length (written tc ++ before next)) + 1
                   + Z.of_nat (length cmds))%Z Hrest).
    rewrite Hcs in IH. destruct IH as [r' [Hr' Hfin]].
    exists r'. split; [exact Hr'|]. rewrite Hfin.
    rewrite <- app_assoc. cbn [app rereadCases].
    match goal with
    | |- Ok {| filename := _;
               cases := _ ++ _ :: asWritten ?a _ :: rereadCases ?x _;
               suffix := _ |}
         = Ok {| filename := _;
                 cases := _ ++ _ :: asWritten ?b _ :: rereadCases ?y _;
                 suffix := _ |} =>
      replace x with y
        by (rewrite caseLines_length, Hcs, length_app; cbn [length];
            unfold gostring; lia);
      replace a with b by (rewrite length_app; unfold gostring; lia)
    end.
    reflexivity.
Qed.

(** Before the first command: blank lines and comments without white
    space around them. *)
Lemma readLines_prefix fn ls : forall P L,
  forallb (fun l => negb (isOutputLine l)) ls = true ->
  Forall (fun l => strings.TrimSpace l = l) ls ->
  readLines (mkReader fn [] None L P beforeFirstCommand) ls
    = Ok (mkReader fn [] None (L + Z.of_nat (length ls)) (P ++ ls) beforeFirstCommand).
Proof.
  induction ls as [|l ls IH]; intros P L Hign Htrim.
  - cbn. now rewrite app_nil_r, Z.add_0_r.
  - cbn [forallb] in Hign. apply andb_true_iff in Hign as [Hl Hign].
    apply Forall_cons in Htrim as [Hlt Htrim]. apply negb_true_iff in Hl.
    cbn [readLines].
    assert (Hstep : readLine (mkReader fn [] None L P beforeFirstCommand) l
                    = Ok (mkReader fn [] None (L + 1) (P ++ [l]) beforeFirstCommand)).
    { unfold readLine, mkReader. cbn [r_state r_tc r_lineno r_tf r_prefix].
      rewrite (ignorable_noCommand l Hl), Hlt.
      apply isOutputLine_false, ignorable_test in Hl. now rewrite Hl. }
    rewrite Hstep, IH by assumption.
    rewrite <- app_assoc. cbn [app length]. do 2 f_equal. lia.
Qed.

(** The file that [write] has written is read back as it was written,
    when it is [readable]: the cases come back with their lines before the
    commands and their commands, with the output written as the output
    expected, with no output got, and with the line numbers of the text; the
    suffix comes back as it is.  So after an update the file expects the
    output that the run has got. *)
Theorem readFile_of_written (filename : gostring) (tf : testFile) :
  readable tf = true ->
  readFile filename (fileText tf)
    = Ok {| Cmdtest.filename := filename; cases := rereadCases 0 (cases tf);
            suffix := suffix tf |}.
Proof.
  unfold readable. intros H. apply andb_true_iff in H as [H Hnone].
  apply andb_true_iff in H as [H Hsfx]. apply andb_true_iff in H as [Hclean Hok].
  unfold readFile. rewrite fileText_lines, (Scan_unlines _ Hclean).
  unfold fileLines. destruct (cases tf) as [|tc cs] eqn:Hcases.
  - (* no case *)
    cbn [bool_decide negb orb] in Hnone. rewrite bool_decide_eq_true_2 in Hnone by reflexivity.
    cbn [negb orb] in Hnone. apply bool_decide_eq_true in Hnone. rewrite Hnone.
    reflexivity.
  - pose proof Hok as Hfirst. cbn [casesOk] in Hfirst.
    apply andb_true_iff in Hfirst as [Hfirst _].
    apply andb_true_iff in Hfirst as [Hfirst _]. unfold caseOk in Hfirst.
    apply andb_true_iff in Hfirst as [Hfirst _].
    apply andb_true_iff in Hfirst as [Hfirst Htrim].
    apply andb_true_iff in Hfirst as [Hfirst Hcmds].
    apply andb_true_iff in Hfirst as [Hbefore Hbtrim].
    cbn [negb orb] in Hbtrim. apply trimmed_Forall in Hbtrim, Htrim.
    apply negb_true_iff, bool_decide_eq_false in Hcmds.
    destruct (commands tc) as [|c1 cmds] eqn:Hcs; [congruence|].
    apply Forall_cons in Htrim as [Hc1 Htrim].
    cbn [map concat]. unfold caseLines at 1. rewrite Hcs. cbn [map].
    replace (((before tc ++ ((str "$ " ++ c1) :: map (fun c => str "$ " ++ c) cmds)
               ++ written tc) ++ concat (map caseLines cs)) ++ suffix tf)
      with (before tc ++ [str "$ " ++ c1] ++ map (fun c => str "$ " ++ c) cmds
            ++ (written tc ++ concat (map caseLines cs) ++ suffix tf))
      by same_text.
    change (initReader filename) with (mkReader filename [] None 0 [] beforeFirstCommand).
    rewrite readLines_app, readLines_prefix by assumption.
    rewrite readLines_app. cbn [readLines app].
    destruct (commandLine_read c1 Hc1) as [Hp Ht].
    assert (Hstep :
      readLine (mkReader filename [] None (0 + Z.of_nat (length (before tc)))
                  (before tc) beforeFirstCommand) (str "$ " ++ c1)
      = Ok (mkReader filename []
              (Some (mkCase (before tc) (Z.of_nat (length (before tc)) + 1) [c1] []))
              (Z.of_nat (length (before tc)) + 1) (before tc) inCommands)).
    { unfold readLine, mkReader. cbn [r_state r_tc r_lineno r_tf r_prefix].
      rewrite Hp. unfold addCommandLine, newCase, mkCase.
      cbn [before startLine commands gotOutput wantOutput app].
      now rewrite Ht, Z.add_0_l. }
    rewrite Hstep, readLines_app, readLines_commands by exact Htrim.
    (* the precondition of the rest, without the white space of the first case *)
    assert (Hok' : casesOk false (tc :: cs) = true).
    { cbn [casesOk] in Hok |- *. apply andb_true_iff in Hok as [Hok Hrest].
      apply andb_true_iff in Hok as [Htc Hline].
      rewrite Hline, Hrest, !andb_true_r. unfold caseOk in *.
      apply andb_true_iff in Htc as [Htc H5]. apply andb_true_iff in Htc as [Htc H4].
      apply andb_true_iff in Htc as [Htc H3]. apply andb_true_iff in Htc as [H1 _].
      now rewrite H1, H3, H4, H5. }
    destruct (reread_rest filename (suffix tf) Hsfx cs tc []
                (Z.of_nat (length (before tc)) + 1)%Z
                (Z.of_nat (length (before tc)) + 1 + Z.of_nat (length cmds))%Z Hok')
      as [r' [Hr' Hfin]].
    rewrite Hcs in Hr'. cbn [app] in Hr' |- *. rewrite Hr', Hfin.
    cbn [app rereadCases].
    match goal with
    | |- Ok {| Cmdtest.filename := _;
               cases := asWritten ?a _ :: rereadCases ?x _;
               suffix := _ |}
         = Ok {| Cmdtest.filename := _;
                 cases := asWritten ?b _ :: rereadCases ?y _;
                 suffix := _ |} =>
      replace x with y
        by (rewrite caseLines_length, Hcs; cbn [length]; unfold gostring; lia);
      replace a with b by lia
    end.
    reflexivity.
Qed.

(** The file of the test [TestRead], its first case with the output
    [new] got by a run: the file written is read back with that output
    expected. *)
Lemma readFile_of_written_witness :
  exists tf tf',
    readFile (str "read.ct") (unlines read_ct) = Ok tf /\
    cases tf' = match cases tf with
                | tc :: rest => setGotOutput tc (Some [str "new"]) :: rest
                | [] => []
                end /\
    suffix tf' = suffix tf /\
    readFile (str "read.ct") (fileText tf')
      = Ok {| filename := str "read.ct"; cases := rereadCases 0 (cases tf');
              suffix := suffix tf' |} /\
    map wantOutput (rereadCases 0 (cases tf'))
      = [[str "new"]; []; [str "out3"]; [str "out4"]] /\
    map startLine (rereadCases 0 (cases tf')) = [5; 10; 14; 17]%Z.
Proof.
  eexists. eexists {| filename := str "read.ct"; cases := _; suffix := _ |}.
  split; [vm_compute; reflexivity|]. cbn [cases suffix].
  split; [reflexivity|]. split; [reflexivity|].
  split; [|split; vm_compute; reflexivity].
  apply readFile_of_written. vm_compute. reflexivity.
Defined.

(** * Line endings *)








